(** * GIF: the generalized integrate-and-fire model of [GIF.py]

    A shallow embedding of the simulation engine (stochastic and
    forced-spike integrators) and of the fitting pipeline of the class
    [GIF], followed by the properties of the specification that were
    checked against it.

    Conventions of the embedding.
    - A floating-point number is the real number ([R]) it stands for.
      The arithmetic of doubles is taken as exact, except where a
      rounding decides an integer or an exact value: the quotients that
      are truncated to a number of samples, and the values that the
      inlined C code narrows to single precision. Overflow is outside
      the model; the one NaN that the code tests for is an [option].
    - C [int]s are integers ([Z]); array lengths are [nat].
    - A Python exception is an [outcome] [Raise e].
    - Inside the inlined C loops an out-of-bounds write ends the run with
      [Raise (BufferOverrun a i)]; an out-of-bounds read yields whatever
      lies next to the array, taken from a [memory] parameter, and is
      recorded in a log of [fault]s carried through the run.
    - The C loops are run with explicit fuel; [Raise FuelExhausted] is
      the outcome of a run that did not finish within it. *)

From Stdlib Require Import Reals ZArith List Bool Lia Lra.
Import ListNotations.
Local Open Scope R_scope.

(** ** Outcomes, faults and the monad of the inlined C code *)

Inductive array : Set :=
  | a_V | a_I | a_spks | a_eta_sum | a_gamma_sum | a_spks_i.

Inductive error : Set :=
  | IndexError
  | ValueError
  | LinAlgError
  | UnboundLocalError
  | ZeroDivisionError
  | BufferOverrun (a : array) (i : Z)
  | FuelExhausted.

Inductive outcome (A : Type) : Type :=
  | Ok (x : A)
  | Raise (e : error).
Arguments Ok {A} x.
Arguments Raise {A} e.

Inductive fault : Set :=
  | StrayRead (a : array) (i : Z).

(** What lies in memory around the arrays handed to the C code. *)
Record memory : Type := {
  stray_dbl : array -> Z -> R;
  stray_int : array -> Z -> Z
}.

Definition weave (A : Type) : Type := list fault -> outcome (A * list fault).

Definition ret {A} (x : A) : weave A := fun log => Ok (x, log).

Definition bind {A B} (c : weave A) (k : A -> weave B) : weave B :=
  fun log =>
    match c log with
    | Ok (x, log') => k x log'
    | Raise e => Raise e
    end.

Definition fail {A} (e : error) : weave A := fun _ => Raise e.

Notation "x <- c ;; k" := (bind c (fun x => k))
  (at level 61, c at next level, right associativity).

Definition obind {A B} (c : outcome A) (k : A -> outcome B) : outcome B :=
  match c with
  | Ok x => k x
  | Raise e => Raise e
  end.

Notation "'let?' x ':=' c 'in' k" := (obind c (fun x => k))
  (at level 10, x pattern, c at level 100, k at level 200).

(** ** Arrays *)

Definition zeros (n : nat) : list R := repeat 0 n.

Fixpoint upd {A} (l : list A) (n : nat) (x : A) : list A :=
  match l, n with
  | [], _ => []
  | _ :: tl, O => x :: tl
  | h :: tl, S n' => h :: upd tl n' x
  end.

Definition in_bounds {A} (l : list A) (i : Z) : bool :=
  ((0 <=? i) && (i <? Z.of_nat (length l)))%Z.

Definition aget {A} (l : list A) (i : Z) : option A :=
  if in_bounds l i then nth_error l (Z.to_nat i) else None.

(** [x = arr[i]] in C, for an array of doubles and for an array of ints. *)
Definition load_dbl (mem : memory) (a : array) (l : list R) (i : Z) : weave R :=
  fun log =>
    match aget l i with
    | Some x => Ok (x, log)
    | None => Ok (stray_dbl mem a i, StrayRead a i :: log)
    end.

Definition load_int (mem : memory) (a : array) (l : list Z) (i : Z) : weave Z :=
  fun log =>
    match aget l i with
    | Some x => Ok (x, log)
    | None => Ok (stray_int mem a i, StrayRead a i :: log)
    end.

(** [arr[i] = x] in C. *)
Definition store (a : array) (l : list R) (i : Z) (x : R) : weave (list R) :=
  if in_bounds l i then ret (upd l (Z.to_nat i) x) else fail (BufferOverrun a i).

(** [arr[i] = x] in Python, for a non-negative index. *)
Definition setitem (l : list R) (i : nat) (x : R) : outcome (list R) :=
  if (i <? length l)%nat then Ok (upd l i x) else Raise IndexError.

(** [np.where(a == x)[0]] *)
Fixpoint where_eq_from (k : nat) (l : list R) (x : R) : list nat :=
  match l with
  | [] => []
  | y :: tl =>
      if Req_dec_T y x then k :: where_eq_from (S k) tl x
      else where_eq_from (S k) tl x
  end.

Definition where_eq (l : list R) (x : R) : list nat := where_eq_from 0 l x.

(** [np.arange(n) * dt] *)
Definition arange_times (n : nat) (dt : R) : list R :=
  map (fun k => INR k * dt) (seq 0 n).

(** ** Conversions between times and sample indices *)

(** [int(x)] of Python and of C: truncation toward zero. *)
Definition trunc (x : R) : Z :=
  if Rle_dec 0 x then Int_part x else (- Int_part (- x))%Z.

(** [np.round(x)]: to the nearest integer, ties to the even one. *)
Definition np_round (x : R) : Z :=
  let f := Int_part x in
  let r := x - IZR f in
  if Rlt_dec r (1 / 2) then f
  else if Rlt_dec (1 / 2) r then (f + 1)%Z
  else if Z.even f then f else (f + 1)%Z.

(** Modelled from the spec: [Tools.timeToIndex] is not part of the
    sources at hand. The specification has spike times converted to
    sample indices by round-to-nearest against [dt]. *)
Definition timeToIndex (x_t : list R) (dt : R) : list Z :=
  map (fun s => np_round (s / dt)) x_t.

(** ** Floating point

    A floating-point number is the real number it stands for. The
    operations of the program on doubles are taken as exact, except
    where a rounding decides an integer or an exception: the quotient
    that is truncated to a number of samples, and the values that the
    inlined C code narrows to single precision. The exponent range is
    not bounded: no overflow, no subnormal number. *)

(** [floor(log2 x)] for [x > 0]. *)
Definition ilog2 (x : R) : Z := Int_part (ln x / ln 2).

(** Rounding to the nearest number of [prec] significant bits, ties to
    the even significand. *)
Definition round_to (prec : Z) (x : R) : R :=
  if Req_dec_T x 0 then 0
  else
    let ulp := powerRZ 2 (ilog2 (Rabs x) - (prec - 1)) in
    IZR (np_round (x / ulp)) * ulp.

(** The nearest double, and the nearest single-precision number: the
    cast [float(x)] of C. *)
Definition double (x : R) : R := round_to 53 x.
Definition float (x : R) : R := round_to 24 x.

(** [float x = float(p_x)] in the inlined C code: the attribute [x]
    arrives as the double [p_x] and is narrowed to single precision. *)
Definition narrowed (x : R) : R := float (double x).

(** ** The model and its collaborators *)

(** A kernel of class [Filter_Rect_LogSpaced]: coefficients on a fixed
    family of basis functions. The class is a collaborator; its
    interpolation onto a time step and its convolution with a spike
    train are fields of the record. *)
Record Filter : Type := {
  filter_coeff : list R;
  filter_interpolate : list R -> R -> list R * list R;
  filter_convolve : list R -> R -> R -> list (list R)
}.

Definition getInterpolatedFilter (f : Filter) (dt : R) : list R * list R :=
  filter_interpolate f (filter_coeff f) dt.

Definition getCoefficients (f : Filter) : list R := filter_coeff f.

Definition setFilter_Coefficients (f : Filter) (c : list R) : Filter :=
  {| filter_coeff := c;
     filter_interpolate := filter_interpolate f;
     filter_convolve := filter_convolve f |}.

Definition convolution_Spiketrain_basisfunctions
    (f : Filter) (spks : list R) (T dt : R) : list (list R) :=
  filter_convolve f spks T dt.

Record GIF : Type := {
  dt : R;
  gl : R;
  C : R;
  El : R;
  Vr : R;
  Tref : R;
  Vt_star : R;
  DV : R;
  lambda0 : R;
  eta : Filter;
  gamma : Filter;
  avg_spike_shape : list R;
  avg_spike_shape_support : list R
}.

(** ** Stochastic simulation: [simulate] *)

(** [for (j = 0; j < l; j++) sum[base + j] += kernel[j];] *)
Fixpoint superpose (a : array) (sum : list R) (base : Z) (kernel : list R)
  : weave (list R) :=
  match kernel with
  | [] => ret sum
  | k :: kernel' =>
      match aget sum base with
      | Some old =>
          sum' <- store a sum base (old + k) ;;
          superpose a sum' (base + 1)%Z kernel'
      | None => fail (BufferOverrun a base)
      end
  end.

Record sim_state : Type := {
  s_t : Z;
  s_V : list R;
  s_spks : list R;
  s_eta_sum : list R;
  s_gamma_sum : list R;
  s_draws : nat
}.

(** The value returned by [simulate], with the log of stray reads. *)
Record sim_result : Type := {
  r_time : list R;
  r_V : list R;
  r_eta_sum : list R;
  r_V_T : list R;
  r_spks : list R;
  r_faults : list fault
}.

(** [int Tref_ind = int(float(p_Tref)/dt);] with [float dt = float(p_dt)]:
    a quotient in single precision, truncated. *)
Definition Tref_ind (m : GIF) : Z :=
  trunc (float (narrowed (Tref m) / narrowed (dt m))).

Definition p_eta (m : GIF) : list R := snd (getInterpolatedFilter (eta m) (dt m)).
Definition p_gamma (m : GIF) : list R := snd (getInterpolatedFilter (gamma m) (dt m)).

(** One forward-Euler step of the membrane equation:
    [V[t] + dt/C*( -gl*(V[t] - El) + I[t] - eta_sum[t] )], in which
    [dt], [C], [gl] and [El] are the [float] locals of the C code and
    [dt/C] is a quotient in single precision. *)
Definition integrate (m : GIF) (v i e : R) : R :=
  v + float (narrowed (dt m) / narrowed (C m))
      * (- narrowed (gl m) * (v - narrowed (El m)) + i - e).

Section Simulate.

Variable m : GIF.
Variable mem : memory.
(** [rnd k] is the value of the k-th evaluation of [rand()/rand_max]. *)
Variable rnd : nat -> R.
Variable I : list R.

Definition T_ind : Z := Z.of_nat (length I).

Fixpoint simulate_loop (fuel : nat) (st : sim_state) : weave sim_state :=
  if negb (s_t st <? T_ind - 1)%Z then ret st
  else
    match fuel with
    | O => fail FuelExhausted
    | S fuel' =>
        let t := s_t st in
        v <- load_dbl mem a_V (s_V st) t ;;
        i <- load_dbl mem a_I I t ;;
        e <- load_dbl mem a_eta_sum (s_eta_sum st) t ;;
        V1 <- store a_V (s_V st) (t + 1) (integrate m v i e) ;;
        v1 <- load_dbl mem a_V V1 (t + 1) ;;
        g <- load_dbl mem a_gamma_sum (s_gamma_sum st) t ;;
        let lambda :=
          float (narrowed (lambda0 m)
                 * exp ((v1 - narrowed (Vt_star m) - g) / narrowed (DV m))) in
        let p_dontspike := float (exp (- lambda * (narrowed (dt m) / 1000))) in
        let r := rnd (s_draws st) in
        if Rgt_dec r p_dontspike then
          spks' <- (if (t + 1 <? T_ind - 1)%Z
                    then store a_spks (s_spks st) (t + 1) 1
                    else ret (s_spks st)) ;;
          let t' := (t + Tref_ind m)%Z in
          V2 <- (if (t' + 1 <? T_ind - 1)%Z
                 then store a_V V1 (t' + 1) (narrowed (Vr m))
                 else ret V1) ;;
          eta_sum' <- superpose a_eta_sum (s_eta_sum st) (t' + 1) (p_eta m) ;;
          gamma_sum' <- superpose a_gamma_sum (s_gamma_sum st) (t' + 1) (p_gamma m) ;;
          simulate_loop fuel'
            {| s_t := t' + 1; s_V := V2; s_spks := spks';
               s_eta_sum := eta_sum'; s_gamma_sum := gamma_sum';
               s_draws := S (s_draws st) |}
        else
          simulate_loop fuel'
            {| s_t := t + 1; s_V := V1; s_spks := s_spks st;
               s_eta_sum := s_eta_sum st; s_gamma_sum := s_gamma_sum st;
               s_draws := S (s_draws st) |}
    end.

Definition simulate (fuel : nat) (V0 : R) : outcome sim_result :=
  let p_T := length I in
  let p_eta_l := length (p_eta m) in
  let p_gamma_l := length (p_gamma m) in
  let V := zeros p_T in
  let spks := zeros p_T in
  let eta_sum := zeros (p_T + 2 * p_eta_l) in
  let gamma_sum := zeros (p_T + 2 * p_gamma_l) in
  let? V := setitem V 0 V0 in
  let? (st, log) :=
    simulate_loop fuel
      {| s_t := 0; s_V := V; s_spks := spks; s_eta_sum := eta_sum;
         s_gamma_sum := gamma_sum; s_draws := 0 |} [] in
  Ok {| r_time := arange_times p_T (dt m);
        r_V := s_V st;
        r_eta_sum := firstn p_T (s_eta_sum st);
        r_V_T := map (fun g => g + Vt_star m) (firstn p_T (s_gamma_sum st));
        r_spks := map (fun k => INR k * dt m) (where_eq (s_spks st) 1);
        r_faults := log |}.

End Simulate.


(** ** Forced-spike simulation: [simulateDeterministic_forceSpikes] *)

(** Where a bound [x] of a Python slice lands in an array of length [n]:
    a negative bound counts from the end, and both are clipped. *)
Definition slice_bound (n : nat) (x : Z) : Z :=
  if (x <? 0)%Z then Z.max (x + Z.of_nat n) 0 else Z.min x (Z.of_nat n).

(** Adds the entries of [k] onto [arr] from position [lo] on. *)
Fixpoint add_at (arr : list R) (lo : nat) (k : list R) : list R :=
  match arr, lo with
  | [], _ => []
  | x :: tl, S lo' => x :: add_at tl lo' k
  | x :: tl, O =>
      match k with
      | [] => x :: tl
      | y :: k' => (x + y) :: add_at tl 0 k'
      end
  end.

(** [arr[a:b] += k] of numpy: the slice is clipped to the array, and [k]
    must have the length of the clipped slice or be a single entry, which
    is then broadcast. *)
Definition slice_iadd (arr : list R) (a b : Z) (k : list R) : outcome (list R) :=
  let lo := slice_bound (length arr) a in
  let hi := slice_bound (length arr) b in
  let len := Z.to_nat (hi - lo) in
  if (length k =? len)%nat then Ok (add_at arr (Z.to_nat lo) k)
  else
    match k with
    | [y] => Ok (add_at arr (Z.to_nat lo) (repeat y len))
    | _ => Raise ValueError
    end.

(** [np.zeros(x)] for a size computed in floating point. *)
Definition zeros_of_float (x : R) : outcome (list R) :=
  if (trunc x <? 0)%Z then Raise ValueError else Ok (zeros (Z.to_nat (trunc x))).

Record force_state : Type := {
  f_t : Z;
  f_V : list R;
  f_spks_cnt : Z;
  f_next_spike : Z
}.

(** The value returned by [simulateDeterministic_forceSpikes], with the
    log of stray reads. *)
Record force_result : Type := {
  fr_time : list R;
  fr_V : list R;
  fr_eta_sum : list R;
  fr_faults : list fault
}.

(** [for s in spks_i : eta_sum[s+1+p_Tref_i : s+1+p_Tref_i+p_eta_l] += p_eta] *)
Fixpoint force_eta_sum (eta_sum : list R) (p_Tref_i : Z) (k : list R)
    (spks_i : list Z) : outcome (list R) :=
  match spks_i with
  | [] => Ok eta_sum
  | s :: rest =>
      let? eta_sum' :=
        slice_iadd eta_sum (s + 1 + p_Tref_i)
          (s + 1 + p_Tref_i + Z.of_nat (length k)) k in
      force_eta_sum eta_sum' p_Tref_i k rest
  end.

Section ForceSpikes.

Variable m : GIF.
Variable mem : memory.
Variable I : list R.
Variable spks_i : list Z.
Variable eta_sum : list R.

Fixpoint force_loop (fuel : nat) (st : force_state) : weave force_state :=
  if negb (f_t st <? Z.of_nat (length I) - 1)%Z then ret st
  else
    match fuel with
    | O => fail FuelExhausted
    | S fuel' =>
        let t := f_t st in
        v <- load_dbl mem a_V (f_V st) t ;;
        i <- load_dbl mem a_I I t ;;
        e <- load_dbl mem a_eta_sum eta_sum t ;;
        V1 <- store a_V (f_V st) (t + 1) (integrate m v i e) ;;
        if (t =? f_next_spike st)%Z then
          let spks_cnt := (f_spks_cnt st + 1)%Z in
          s <- load_int mem a_spks_i spks_i spks_cnt ;;
          let next_spike := (s + Tref_ind m)%Z in
          V2 <- store a_V V1 (t - 1) 0 ;;
          V3 <- store a_V V2 t (narrowed (Vr m)) ;;
          force_loop fuel'
            {| f_t := t - 1 + 1; f_V := V3; f_spks_cnt := spks_cnt;
               f_next_spike := next_spike |}
        else
          force_loop fuel'
            {| f_t := t + 1; f_V := V1; f_spks_cnt := f_spks_cnt st;
               f_next_spike := f_next_spike st |}
    end.

(** The inlined C code: the first scheduled reset is read before the loop. *)
Definition force_code (fuel : nat) (V : list R) : weave force_state :=
  s0 <- load_int mem a_spks_i spks_i 0 ;;
  force_loop fuel
    {| f_t := 0; f_V := V; f_spks_cnt := 0;
       f_next_spike := s0 + Tref_ind m |}.

End ForceSpikes.

(** [p_Tref_i = int(self.Tref/self.dt)]: a quotient of doubles,
    truncated. *)
Definition p_Tref_i (m : GIF) : Z :=
  trunc (double (double (Tref m) / double (dt m))).

Definition simulateDeterministic_forceSpikes (m : GIF) (mem : memory)
    (fuel : nat) (I : list R) (V0 : R) (spks : list R) : outcome force_result :=
  let p_T := length I in
  let p_eta_l := length (p_eta m) in
  let V := zeros p_T in
  let spks_i := timeToIndex spks (dt m) in
  let? eta_sum :=
    zeros_of_float (INR p_T + 11 / 10 * INR p_eta_l + IZR (p_Tref_i m)) in
  let? eta_sum := force_eta_sum eta_sum (p_Tref_i m) (p_eta m) spks_i in
  let eta_sum := firstn p_T eta_sum in
  let? V := setitem V 0 V0 in
  let? (st, log) := force_code m mem I spks_i eta_sum fuel V [] in
  Ok {| fr_time := arange_times p_T (dt m);
        fr_V := f_V st;
        fr_eta_sum := firstn p_T eta_sum;
        fr_faults := log |}.


(** ** numpy on vectors and matrices

    A vector is a list of reals and a matrix the list of its rows.
    Operations on arguments whose shapes do not fit, where numpy raises
    [ValueError], are outside the model unless stated. *)

Fixpoint vadd (u v : list R) : list R :=
  match u, v with
  | x :: u', y :: v' => (x + y) :: vadd u' v'
  | _, _ => []
  end.

Fixpoint vsub (u v : list R) : list R :=
  match u, v with
  | x :: u', y :: v' => (x - y) :: vsub u' v'
  | _, _ => []
  end.

Definition vscale (c : R) (v : list R) : list R := map (fun x => c * x) v.

Fixpoint madd (A B : list (list R)) : list (list R) :=
  match A, B with
  | r :: A', s :: B' => vadd r s :: madd A' B'
  | _, _ => []
  end.

Definition mscale (c : R) (A : list (list R)) : list (list R) := map (vscale c) A.

(** Python's [sum] over a vector. *)
Definition total (v : list R) : R := fold_right Rplus 0 v.

Fixpoint dotp (u v : list R) : R :=
  match u, v with
  | x :: u', y :: v' => x * y + dotp u' v'
  | _, _ => 0
  end.

(** [np.dot(M, v)] *)
Definition matvec (M : list (list R)) (v : list R) : list R :=
  map (fun r => dotp r v) M.

Definition column (j : nat) (M : list (list R)) : list R :=
  map (fun r => nth j r 0) M.

(** [np.transpose(M)] for a matrix of [p] columns. *)
Definition transpose (p : nat) (M : list (list R)) : list (list R) :=
  map (fun j => column j M) (seq 0 p).

(** [np.dot(A, B)] for a matrix [B] of [p] columns. *)
Definition matmul (p : nat) (A B : list (list R)) : list (list R) :=
  map (fun r => map (fun j => dotp r (column j B)) (seq 0 p)) A.

(** [np.diff(v)] *)
Fixpoint diff (v : list R) : list R :=
  match v with
  | x :: ((y :: _) as tl) => (y - x) :: diff tl
  | _ => []
  end.

(** [a[sel]] for an array of indices [sel]. *)
Fixpoint take {A} (a : list A) (sel : list nat) : outcome (list A) :=
  match sel with
  | [] => Ok []
  | t :: sel' =>
      match nth_error a t with
      | Some x => let? rest := take a sel' in Ok (x :: rest)
      | None => Raise IndexError
      end
  end.

Fixpoint remove_nth {A} (n : nat) (l : list A) : list A :=
  match n, l with
  | _, [] => []
  | O, _ :: tl => tl
  | S n', h :: tl => h :: remove_nth n' tl
  end.

(** Determinant of an [n] by [n] matrix, expanded along its first row. *)
Fixpoint det (n : nat) (M : list (list R)) : R :=
  match n with
  | O => 1
  | S n' =>
      match M with
      | [] => 0
      | r :: rest =>
          total (map (fun j => (-1) ^ j * nth j r 0
                               * det n' (map (remove_nth j) rest))
                     (seq 0 n))
      end
  end.

Definition minor (i j : nat) (M : list (list R)) : list (list R) :=
  map (remove_nth j) (remove_nth i M).

Definition is_square (M : list (list R)) : bool :=
  forallb (fun r => (length r =? length M)%nat) M.

(** The rows of [M] are one and the same row. *)
Definition equal_rows (M : list (list R)) : bool :=
  match M with
  | [] => true
  | r :: rest =>
      forallb (fun r' => if list_eq_dec Req_dec_T r' r then true else false) rest
  end.

(** What LAPACK's factorisation in doubles makes of a matrix that is
    singular in exact arithmetic while its rows differ: rounding decides
    whether the elimination arrives at a pivot that is exactly zero.
    [None] stands for a zero pivot, [Some M'] for the matrix that comes
    back when every pivot was left non-zero. *)
Record lapack : Type := {
  singular_inverse : list (list R) -> option (list (list R))
}.

(** [numpy.linalg.inv]: a library routine, modelled by its contract. It
    raises [LinAlgError] on an argument that is not square, and when the
    elimination meets a pivot that is exactly zero. On a matrix that is
    not singular it returns the inverse, in exact arithmetic. On a
    singular matrix whose rows are all equal the elimination subtracts
    the pivot row from each other row with the multiplier 1 and leaves
    zeros, in doubles as in exact arithmetic: the pivot is zero. On any
    other singular matrix the outcome is that of [la]. *)
Definition inv (la : lapack) (M : list (list R)) : outcome (list (list R)) :=
  let n := length M in
  if negb (is_square M) then Raise LinAlgError
  else if Req_dec_T (det n M) 0 then
    if equal_rows M then Raise LinAlgError
    else
      match singular_inverse la M with
      | Some M' => Ok M'
      | None => Raise LinAlgError
      end
  else
    Ok (map (fun i =>
               map (fun j => (-1) ^ (i + j) * det (n - 1) (minor j i M)
                             / det n M)
                   (seq 0 n))
            (seq 0 n)).

(** [np.mean(rows, axis=0)] for a non-empty list of arrays; arrays of
    different lengths do not form a matrix. *)
Definition mean_axis0 (rows : list (list R)) : outcome (list R) :=
  match rows with
  | [] => Ok []
  | r :: rest =>
      if forallb (fun r' => (length r' =? length r)%nat) rest
      then Ok (map (fun x => x / INR (length rows)) (fold_left vadd rest r))
      else Raise ValueError
  end.

(** Index of the first entry of [v] that is at least [x]:
    [np.where(v >= x)[0][0]]. *)
Fixpoint first_ge_from (k : nat) (v : list R) (x : R) : outcome nat :=
  match v with
  | [] => Raise IndexError
  | y :: tl => if Rle_dec x y then Ok k else first_ge_from (S k) tl x
  end.

Definition first_ge (v : list R) (x : R) : outcome nat := first_ge_from 0 v x.

(** [a[i]] in Python, for a non-negative index. *)
Definition getitem {A} (a : list A) (i : nat) : outcome A :=
  match nth_error a i with
  | Some x => Ok x
  | None => Raise IndexError
  end.


(** ** Recorded traces

    [Trace] and [Experiment] are collaborators; a trace is known to the
    model through the attributes and methods below, each a field. *)
Record Trace : Type := {
  tr_dt : R;
  tr_T : R;
  tr_I : list R;
  tr_V : list R;
  tr_spks : list Z;
  useTrace : bool;
  getSpikeTimes : list R;
  getSpikeTrain : list R;
  getROI_FarFromSpikes : R -> R -> list nat;
  computeAverageSpikeShape : list R * list R * nat;
  getSpikeNb_inROI : nat;
  getTraceLength_inROI : R
}.

Record Experiment : Type := {
  exp_dt : R;
  trainingset_traces : list Trace
}.

(** Record updates, one per attribute assigned by the fitting stages. *)
Definition set_dt (m : GIF) (x : R) : GIF :=
  {| dt := x; gl := gl m; C := C m; El := El m; Vr := Vr m; Tref := Tref m;
     Vt_star := Vt_star m; DV := DV m; lambda0 := lambda0 m; eta := eta m;
     gamma := gamma m; avg_spike_shape := avg_spike_shape m;
     avg_spike_shape_support := avg_spike_shape_support m |}.

Definition set_Tref (m : GIF) (x : R) : GIF :=
  {| dt := dt m; gl := gl m; C := C m; El := El m; Vr := Vr m; Tref := x;
     Vt_star := Vt_star m; DV := DV m; lambda0 := lambda0 m; eta := eta m;
     gamma := gamma m; avg_spike_shape := avg_spike_shape m;
     avg_spike_shape_support := avg_spike_shape_support m |}.

Definition set_reset (m : GIF) (vr : R) (shape support : list R) : GIF :=
  {| dt := dt m; gl := gl m; C := C m; El := El m; Vr := vr; Tref := Tref m;
     Vt_star := Vt_star m; DV := DV m; lambda0 := lambda0 m; eta := eta m;
     gamma := gamma m; avg_spike_shape := shape;
     avg_spike_shape_support := support |}.

Definition set_subthreshold (m : GIF) (c g e : R) (k : Filter) : GIF :=
  {| dt := dt m; gl := g; C := c; El := e; Vr := Vr m; Tref := Tref m;
     Vt_star := Vt_star m; DV := DV m; lambda0 := lambda0 m; eta := k;
     gamma := gamma m; avg_spike_shape := avg_spike_shape m;
     avg_spike_shape_support := avg_spike_shape_support m |}.

(** ** Step 1: [fitVoltageReset] *)

(** The local variables of the loop over the training traces; [None] is
    a name that has not been bound yet. *)
Record reset_acc : Type := {
  ra_support : option (list R);
  all_spike_average : list (list R);
  all_spike_nb : nat
}.

Definition reset_visit (acc : reset_acc) (tr : Trace) : reset_acc :=
  if useTrace tr then
    if (0 <? length (tr_spks tr))%nat then
      let '(support, spike_average, spike_nb) := computeAverageSpikeShape tr in
      {| ra_support := Some support;
         all_spike_average := all_spike_average acc ++ [spike_average];
         all_spike_nb := all_spike_nb acc + spike_nb |}
    else acc
  else acc.

Definition fitVoltageReset (m : GIF) (experiment : Experiment) (Tref0 : R)
  : outcome GIF :=
  let m := set_Tref (set_dt m (exp_dt experiment)) Tref0 in
  let acc :=
    fold_left reset_visit (trainingset_traces experiment)
      {| ra_support := None; all_spike_average := []; all_spike_nb := 0 |} in
  let? spike_average := mean_axis0 (all_spike_average acc) in
  match ra_support acc with
  | None => Raise UnboundLocalError
  | Some support =>
      let? Tref_ind := first_ge support (Tref m) in
      let? vr := getitem spike_average Tref_ind in
      Ok (set_reset m vr spike_average support)
  end.

(** ** Step 2: [fitSubthresholdDynamics] *)

Definition fitSubthresholdDynamics_Build_Xmatrix_Yvector
    (m : GIF) (trace : Trace) (DT_beforeSpike : R)
  : outcome (list (list R) * list R) :=
  let selection := getROI_FarFromSpikes trace DT_beforeSpike (Tref m) in
  let? X0 := take (tr_V trace) selection in
  let? X1 := take (tr_I trace) selection in
  let X_eta :=
    convolution_Spiketrain_basisfunctions (eta m)
      (map (fun s => s + Tref m) (getSpikeTimes trace))
      (tr_T trace) (tr_dt trace) in
  let? X_eta_sel := take X_eta selection in
  let X :=
    map (fun row => let '(v, i, e) := row in [v; i; 1] ++ e)
        (combine (combine X0 X1) X_eta_sel) in
  let? Y :=
    take (map (fun d => d / tr_dt trace) (diff (tr_V trace)) ++ [0]) selection in
  Ok (X, Y).

(** The loop over the training traces: the design matrices and target
    vectors of the traces in use, stacked, and their number. *)
Fixpoint subthreshold_design (m : GIF) (traces : list Trace) (DT_beforeSpike : R)
  : outcome (list (list R) * list R * nat) :=
  match traces with
  | [] => Ok ([], [], O)
  | tr :: rest =>
      if useTrace tr then
        let? (X_tmp, Y_tmp) :=
          fitSubthresholdDynamics_Build_Xmatrix_Yvector m tr DT_beforeSpike in
        let? (X, Y, cnt) := subthreshold_design m rest DT_beforeSpike in
        Ok (X_tmp ++ X, Y_tmp ++ Y, S cnt)
      else subthreshold_design m rest DT_beforeSpike
  end.

(** The linear regression [b = (X^T X)^-1 X^T Y]. Without a trace in use
    [X] is the empty Python list, whose product with itself is a scalar
    that [inv] refuses; without a row it is the zero matrix. *)
Definition regression (la : lapack) (X : list (list R)) (Y : list R) (cnt : nat)
  : outcome (list R) :=
  match cnt, X with
  | O, _ => Raise LinAlgError
  | _, [] => Raise LinAlgError
  | _, r :: _ =>
      let p := length r in
      let XTX := matmul p (transpose p X) X in
      let? XTX_inv := inv la XTX in
      let XTY := matvec (transpose p X) Y in
      Ok (matvec XTX_inv XTY)
  end.

(** The parameters read off the regression result [b]. *)
Definition extract_parameters (m : GIF) (b : list R) : outcome GIF :=
  let? b1 := getitem b 1 in
  let c := 1 / b1 in
  let? b0 := getitem b 0 in
  let g := - b0 * c in
  let? b2 := getitem b 2 in
  let e := b2 * c / g in
  let k := setFilter_Coefficients (eta m) (map (fun x => - x * c) (skipn 3 b)) in
  Ok (set_subthreshold m c g e k).

(** [fitSubthresholdDynamics] up to the assignment of the parameters; what
    follows in the source computes and prints diagnostics. *)
Definition fitSubthresholdDynamics (la : lapack) (m : GIF)
    (experiment : Experiment) (DT_beforeSpike : R) : outcome GIF :=
  let m := set_dt m (exp_dt experiment) in
  let? (X, Y, cnt) :=
    subthreshold_design m (trainingset_traces experiment) DT_beforeSpike in
  let? b := regression la X Y cnt in
  extract_parameters m b.

(** ** The likelihood and its maximisation *)

(** [np.transpose(X)*expXbeta]: row [j] of the transpose, scaled entry by
    entry. *)
Fixpoint vmul (u v : list R) : list R :=
  match u, v with
  | x :: u', y :: v' => (x * y) :: vmul u' v'
  | _, _ => []
  end.

Definition computeLikelihoodGradientHessian (m : GIF)
    (beta : list R) (X X_spikes : list (list R)) (sum_X_spikes : list R)
  : R * list R * list (list R) :=
  let p := length beta in
  let dt_s := dt m / 1000 in
  let X_spikesbeta := matvec X_spikes beta in
  let Xbeta := matvec X beta in
  let expXbeta := map exp Xbeta in
  let L := total X_spikesbeta - lambda0 m * dt_s * total expXbeta in
  let G :=
    vsub sum_X_spikes
         (vscale (lambda0 m * dt_s) (matvec (transpose p X) expXbeta)) in
  let H :=
    mscale (- lambda0 m * dt_s)
           (matmul p (map (fun r => vmul r expXbeta) (transpose p X)) X) in
  (L, G, H).

(** The learning rate of iteration [i] of the Newton loop. *)
Definition learning_rate (i : nat) : R :=
  if (i <=? 10)%nat then 1 / 10 else 1.

(** The accumulators [L=0; G=0; H=0] and their update over the traces.
    Until a trace has been added [G] and [H] are the integer 0, here
    [None]. *)
Record lgh : Type := {
  acc_L : R;
  acc_G : option (list R);
  acc_H : option (list (list R))
}.

Definition lgh_add (a : lgh) (x : R * list R * list (list R)) : lgh :=
  let '(L_tmp, G_tmp, H_tmp) := x in
  {| acc_L := acc_L a + L_tmp;
     acc_G := Some (match acc_G a with None => G_tmp | Some G => vadd G G_tmp end);
     acc_H := Some (match acc_H a with None => H_tmp | Some H => madd H H_tmp end) |}.

Definition likelihood_over_traces (m : GIF) (beta : list R)
    (all : list (list (list R) * list (list R) * list R)) : lgh :=
  fold_left
    (fun a tr => let '(X, X_spikes, sum_X_spikes) := tr in
       lgh_add a (computeLikelihoodGradientHessian m beta X X_spikes sum_X_spikes))
    all {| acc_L := 0; acc_G := None; acc_H := None |}.

(** [beta - learning_rate*np.dot(inv(H),G)]; without a trace [H] is the
    integer 0, which [inv] refuses. *)
Definition newton_update (la : lapack) (beta : list R) (lr : R) (a : lgh)
  : outcome (list R) :=
  match acc_H a, acc_G a with
  | Some H, Some G =>
      let? H_inv := inv la H in
      Ok (vsub beta (vscale lr (matvec H_inv G)))
  | _, _ => Raise LinAlgError
  end.


(** [abs((L-old_L)/old_L) < stopCond] on numpy floats: the quotient by 0
    is an infinity or a NaN, and the comparison is then false. *)
Definition converged (L old_L stopCond : R) : bool :=
  if Req_dec_T old_L 0 then false
  else if Rlt_dec (Rabs ((L - old_L) / old_L)) stopCond then true else false.

(** [math.isnan(L_norm)] for
    [L_norm = (L-logL_poisson)/np.log(2)/N_spikes_tot]: the NaN of
    [logL_poisson] is passed on, and 0/0 is a NaN; any other number over
    0 is an infinity, which is not a NaN. *)
Definition isnan_L_norm (L : R) (logL : option R) (N_spikes_tot : R) : bool :=
  match logL with
  | None => true
  | Some l =>
      if Req_dec_T N_spikes_tot 0
      then (if Req_dec_T (L - l) 0 then true else false)
      else false
  end.

Section Newton.

Variable la : lapack.
Variable m : GIF.
Variable all : list (list (list R) * list (list R) * list R).
Variable logL : option R.
Variable N_spikes_tot stopCond : R.

(** The loop [for i in range(maxIter)], from iteration [i] on with [n]
    iterations left. It returns [beta] and the number of iterations
    that were run. *)
Fixpoint newton_loop (n i : nat) (beta : list R) (old_L : R)
  : outcome (list R * nat) :=
  match n with
  | O => Ok (beta, i)
  | S n' =>
      let a := likelihood_over_traces m beta all in
      let L := acc_L a in
      let? beta' := newton_update la beta (learning_rate i) a in
      if (0 <? i)%nat && converged L old_L stopCond
      then Ok (beta', S i)
      else
        if isnan_L_norm L logL N_spikes_tot then Ok (beta', S i)
        else newton_loop n' (S i) beta' L
  end.

End Newton.

Section MaximizeLikelihood.

Variable la : lapack.
Variable m : GIF.
Variable mem : memory.
Variable fuel : nat.

(** The method passed as [buildXmatrix]. *)
Variable buildXmatrix :
  Trace -> list R -> outcome (list (list R) * list (list R) * list R * nat * R).



End MaximizeLikelihood.

Definition default_stopCond : R := 1 / 1000000.


(** ** The responses of the model: [setDt], [simulateSpikingResponse],
    [simulateVoltageResponse] *)

(** [self.dt = dt] *)
Definition setDt (m : GIF) (x : R) : GIF := set_dt m x.

(** Both responses assign the time step and then simulate from
    [V(0) = El]. The first component is the model as the call leaves it,
    also when the simulation raises; the log of stray reads is returned
    with the values of the method. *)
Definition simulateSpikingResponse (m : GIF) (mem : memory) (rnd : nat -> R)
    (fuel : nat) (I : list R) (dt0 : R)
  : GIF * outcome (list R * list fault) :=
  let m := setDt m dt0 in
  (m, let? res := simulate m mem rnd I fuel (El m) in
      Ok (r_spks res, r_faults res)).

Definition simulateVoltageResponse (m : GIF) (mem : memory) (rnd : nat -> R)
    (fuel : nat) (I : list R) (dt0 : R)
  : GIF * outcome (list R * list R * list R * list fault) :=
  let m := setDt m dt0 in
  (m, let? res := simulate m mem rnd I fuel (El m) in
      Ok (r_spks res, r_V res, r_V_T res, r_faults res)).

(** ** The design of the threshold fit: [buildXmatrix_staticThreshold] *)

(** [np.sum(rows, axis=0)] for a matrix of [p] columns. *)
Definition sum_axis0 (p : nat) (rows : list (list R)) : list R :=
  fold_left vadd rows (zeros p).

(** The matrices [X], [X_spikes] and [sum_X_spikes], the number of spikes
    and the duration in seconds of the samples selected from the trace
    [tr], for the voltage [V_est] estimated on it. *)
Definition buildXmatrix_staticThreshold (m : GIF) (tr : Trace) (V_est : list R)
  : outcome (list (list R) * list (list R) * list R * nat * R) :=
  let selection := getROI_FarFromSpikes tr (- dt m) (Tref m) in
  let T_l_selection := length selection in
  let spk_train := getSpikeTrain tr in
  let? train_sel := take spk_train selection in
  let spks_i_afterselection := where_eq train_sel 1 in
  let T_l := INR T_l_selection * tr_dt tr / 1000 in
  let N_spikes := length spks_i_afterselection in
  let? V_sel := take V_est selection in
  let X := map (fun v => [v; 1]) V_sel in
  let? X_spikes := take X spks_i_afterselection in
  let sum_X_spikes := sum_axis0 2 X_spikes in
  Ok (X, X_spikes, sum_X_spikes, N_spikes, T_l).

(** ** Notions used to state the properties *)

(** Spike indices in ascending order. *)
Definition ascending (l : list Z) : Prop :=
  forall i j, (i <= j < length l)%nat -> (nth i l 0 <= nth j l 0)%Z.

(** The voltages after the integration step of the forced-spike loop at
    index [t]. *)
Definition next_voltages (m : GIF) (I eta_sum V : list R) (t : Z) : list R :=
  upd V (Z.to_nat (t + 1))
      (integrate m (nth (Z.to_nat t) V 0) (nth (Z.to_nat t) I 0)
                 (nth (Z.to_nat t) eta_sum 0)).

(** The regression target in the words of the specification: the
    discrete voltage derivative at each selected sample, the final sample
    of the trace dropped. *)
Definition derivative_target_dropping_last (V : list R) (dt : R)
    (selection : list nat) : list R :=
  map (fun t => (nth (S t) V 0 - nth t V 0) / dt)
      (filter (fun t => (S t <? length V)%nat) selection).

(** A trace contributes to the reset fit when it is in use and has at
    least one spike. *)
Definition contributes (tr : Trace) : bool :=
  useTrace tr && (0 <? length (tr_spks tr))%nat.

Definition contributing (experiment : Experiment) : list Trace :=
  filter contributes (trainingset_traces experiment).

(** The three values returned by [computeAverageSpikeShape]. *)
Definition spike_support (tr : Trace) : list R :=
  fst (fst (computeAverageSpikeShape tr)).
Definition spike_shape (tr : Trace) : list R :=
  snd (fst (computeAverageSpikeShape tr)).
Definition spike_count (tr : Trace) : nat :=
  snd (computeAverageSpikeShape tr).

(** The mean over traces, each with weight one, of the spike-triggered
    averages at sample [j]: the averaged waveform in the words of the
    specification. *)
Definition unweighted_mean_at (trs : list Trace) (j : nat) : R :=
  total (map (fun tr => nth j (spike_shape tr) 0) trs) / INR (length trs).

(** ** Models and traces used as examples *)

(** A kernel without coefficients whose interpolation is [k] at every
    time step, and whose convolution design has no column. *)
Definition sampled_filter (k : list R) (rows : nat) : Filter :=
  {| filter_coeff := [];
     filter_interpolate := fun _ _ => ([], k);
     filter_convolve := fun _ _ _ => repeat [] rows |}.

(** The parameters set by [__init__], with the two kernels given. *)
Definition GIF_init (dt0 : R) (eta0 gamma0 : Filter) : GIF :=
  {| dt := dt0;
     gl := 1 / 100;
     C := 20 * (1 / 100);
     El := -65;
     Vr := -50;
     Tref := 4;
     Vt_star := -48;
     DV := 1 / 2;
     lambda0 := 1;
     eta := eta0;
     gamma := gamma0;
     avg_spike_shape := [];
     avg_spike_shape_support := [] |}.

Definition set_lambda0 (m : GIF) (x : R) : GIF :=
  {| dt := dt m; gl := gl m; C := C m; El := El m; Vr := Vr m; Tref := Tref m;
     Vt_star := Vt_star m; DV := DV m; lambda0 := x; eta := eta m;
     gamma := gamma m; avg_spike_shape := avg_spike_shape m;
     avg_spike_shape_support := avg_spike_shape_support m |}.

(** Memory in which every stray read finds [-1]. *)
Definition quiet_memory : memory :=
  {| stray_dbl := fun _ _ => 0; stray_int := fun _ _ => (-1)%Z |}.

(** The parameters of [__init__] at a time step of 1 ms, with kernels of a
    single sample. *)
Definition one_sample_model : GIF :=
  GIF_init 1 (sampled_filter [1 / 5] 0) (sampled_filter [10] 0).

(** The parameters of [__init__] at a time step of 5 ms, with kernels
    that have no sample. *)
Definition coarse_model : GIF :=
  GIF_init 5 (sampled_filter [] 0) (sampled_filter [] 0).

(** The parameters of [__init__] at a time step of 1 ms, with kernels
    that have no basis function, on traces of [rows] samples. *)
Definition bare_model (rows : nat) : GIF :=
  GIF_init 1 (sampled_filter [] rows) (sampled_filter [] rows).

(** A LAPACK that is never left with a zero pivot by rounding: on a
    singular matrix with different rows it hands back a matrix, here the
    argument. *)
Definition rounding_lapack : lapack :=
  {| singular_inverse := fun M => Some M |}.

(** The matrices of a model of one parameter on a trace of one selected
    sample, which carries a spike. *)
Definition one_parameter_design : list (list (list R) * list (list R) * list R) :=
  [([[1]], [[1]], [1])].



(** A trace of two samples, both selected for the regression. *)
Definition two_sample_trace : Trace :=
  {| tr_dt := 1;
     tr_T := 2;
     tr_I := [0; 0];
     tr_V := [1; 2];
     tr_spks := [];
     useTrace := true;
     getSpikeTimes := [];
     getSpikeTrain := [0; 0];
     getROI_FarFromSpikes := fun _ _ => [0; 1]%nat;
     computeAverageSpikeShape := ([], [], 0%nat);
     getSpikeNb_inROI := 0;
     getTraceLength_inROI := 2 |}.

(** A trace known only by its spike indices and by what
    [computeAverageSpikeShape] returns for it. *)
Definition shape_trace (use : bool) (spks : list Z) (support shape : list R)
    (nb : nat) : Trace :=
  {| tr_dt := 1;
     tr_T := 0;
     tr_I := [];
     tr_V := [];
     tr_spks := spks;
     useTrace := use;
     getSpikeTimes := map IZR spks;
     getSpikeTrain := [];
     getROI_FarFromSpikes := fun _ _ => [];
     computeAverageSpikeShape := (support, shape, nb);
     getSpikeNb_inROI := nb;
     getTraceLength_inROI := 0 |}.

(** Two contributing traces, of one and of three spikes, between a trace
    that is not in use and a trace without spike. *)
Definition reset_experiment : Experiment :=
  {| exp_dt := 1;
     trainingset_traces :=
       [ shape_trace false [5%Z] [0; 4] [9; 9] 1;
         shape_trace true [5%Z] [0; 4] [1; 3] 1;
         shape_trace true [] [0; 4] [7; 7] 0;
         shape_trace true [2%Z; 5%Z; 8%Z] [0; 4] [3; 5] 3 ] |}.

(** A noise-free trace of four samples of the membrane equation with
    [C = 1], [gl = 1] and [El = 1] at a time step of 1 ms; its first
    three samples are selected for the regression. *)
Definition membrane_trace : Trace :=
  {| tr_dt := 1;
     tr_T := 4;
     tr_I := [0; 0; 1; 0];
     tr_V := [0; 1; 1; 2];
     tr_spks := [];
     useTrace := true;
     getSpikeTimes := [];
     getSpikeTrain := [0; 0; 0; 0];
     getROI_FarFromSpikes := fun _ _ => [0; 1; 2]%nat;
     computeAverageSpikeShape := ([], [], 0%nat);
     getSpikeNb_inROI := 0;
     getTraceLength_inROI := 3 |}.

Definition membrane_experiment : Experiment :=
  {| exp_dt := 1; trainingset_traces := [membrane_trace] |}.

(** What the stochastic loop keeps true of the spike markers: a marker
    sits neither on the first nor on the last sample, lies at least
    [Tref_i] samples before the current index [t], and two markers are
    more than [Tref_i] samples apart. *)
Definition spike_markers_ok (T : nat) (Tref_i t : Z) (spks : list R) : Prop :=
  (forall k, nth k spks 0 = 1 ->
             (1 <= k)%nat /\ (k + 2 <= T)%nat /\ (Z.of_nat k + Tref_i <= t)%Z)
  /\ (forall j k, (j < k)%nat -> nth j spks 0 = 1 -> nth k spks 0 = 1 ->
                  (Z.of_nat j + Tref_i < Z.of_nat k)%Z).

(** The invariant of the stochastic loop on a trace [I] started from
    [V0]. *)
Definition sim_inv (m : GIF) (I : list R) (V0 : R) (st : sim_state) : Prop :=
  (0 <= s_t st)%Z
  /\ length (s_V st) = length I
  /\ length (s_spks st) = length I
  /\ (length I <= length (s_eta_sum st))%nat
  /\ (length I <= length (s_gamma_sum st))%nat
  /\ nth_error (s_V st) 0 = Some V0
  /\ spike_markers_ok (length I) (Tref_ind m) (s_t st) (s_spks st).

(** The padding of an accumulator covers the refractory shift. *)
Definition padding_covers (Tref_i : Z) (kernel : list R) : Prop :=
  kernel = [] \/ (Tref_i <= Z.of_nat (length kernel) + 1)%Z.

(** The parameters of [__init__] at a time step of 1 ms, with kernels of
    three samples: the refractory period spans four samples. *)
Definition padded_model : GIF :=
  GIF_init 1 (sampled_filter [1 / 5; 1 / 10; 1 / 20] 0) (sampled_filter [10; 5; 2] 0).

(** The parameters of [__init__] at a time step of a microsecond, with
    kernels that have no sample. *)
Definition fine_model : GIF :=
  GIF_init (1 / 1000) (sampled_filter [] 0) (sampled_filter [] 0).

(** A model without escape noise whose resting potential, -65.3 mV, is
    not a single-precision number. *)
Definition drifting_model : GIF :=
  set_subthreshold (set_lambda0 padded_model 0) (20 * (1 / 100)) (1 / 100)
    (-653 / 10) (eta padded_model).

(** The kernel [k] laid from sample [a] on, read at sample [i]. *)
Definition shifted (k : list R) (a : Z) (i : nat) : R :=
  if ((a <=? Z.of_nat i) && (Z.of_nat i <? a + Z.of_nat (length k)))%Z
  then nth (Z.to_nat (Z.of_nat i - a)) k 0 else 0.

(** The sum at sample [i] of copies of the kernel [k], one laid from each
    sample of [starts] on. *)
Definition superposition (k : list R) (starts : list Z) (i : nat) : R :=
  fold_right (fun a acc => shifted k a i + acc) 0 starts.

(** A trace of three samples with a spike on the second one; every
    sample is selected for the threshold fit. *)
Definition spiking_trace : Trace :=
  {| tr_dt := 1;
     tr_T := 3;
     tr_I := [0; 0; 0];
     tr_V := [-65; -65; -65];
     tr_spks := [1%Z];
     useTrace := true;
     getSpikeTimes := [1];
     getSpikeTrain := [0; 1; 0];
     getROI_FarFromSpikes := fun _ _ => [0; 1; 2]%nat;
     computeAverageSpikeShape := ([], [], 1%nat);
     getSpikeNb_inROI := 1;
     getTraceLength_inROI := 3 |}.

(** The sum over the samples [t] of [X[t][j] * e[t] * X[t][k]]: entry
    [(j, k)] of [np.dot(np.transpose(X)*e, X)]. *)
Fixpoint weighted_gram (X : list (list R)) (e : list R) (j k : nat) : R :=
  match X, e with
  | x :: X', e0 :: e' => nth j x 0 * e0 * nth k x 0 + weighted_gram X' e' j k
  | _, _ => 0
  end.

(** The sum of [f i] over [i < p]. *)
Definition sum_upto (p : nat) (f : nat -> R) : R := total (map f (seq 0 p)).

(** The sum over the samples [t] of [e[t] * (X[t] . v)^2], rows and [v]
    read on their first [p] entries. *)
Fixpoint weighted_squares (p : nat) (X : list (list R)) (e v : list R) : R :=
  match X, e with
  | x :: X', e0 :: e' =>
      e0 * (sum_upto p (fun j => nth j x 0 * nth j v 0)
            * sum_upto p (fun j => nth j x 0 * nth j v 0))
      + weighted_squares p X' e' v
  | _, _ => 0
  end.

(** Two traces that do not contribute to the reset fit: one is in use
    and has no spike, the other has a spike and is not in use. *)
Definition idle_experiment : Experiment :=
  {| exp_dt := 1;
     trainingset_traces :=
       [ shape_trace true [] [0; 4] [7; 7] 0;
         shape_trace false [5%Z] [0; 4] [9; 9] 1 ] |}.

(** The samples of [membrane_trace], on a trace that is not in use. *)
Definition unused_trace : Trace :=
  {| tr_dt := 1;
     tr_T := 4;
     tr_I := [0; 0; 1; 0];
     tr_V := [0; 1; 1; 2];
     tr_spks := [];
     useTrace := false;
     getSpikeTimes := [];
     getSpikeTrain := [0; 0; 0; 0];
     getROI_FarFromSpikes := fun _ _ => [0; 1; 2]%nat;
     computeAverageSpikeShape := ([], [], 0%nat);
     getSpikeNb_inROI := 0;
     getTraceLength_inROI := 3 |}.

Definition unused_experiment : Experiment :=
  {| exp_dt := 1; trainingset_traces := [unused_trace] |}.

(** * Properties *)

(** ** Arrays and the monad *)

Lemma length_upd {A} (l : list A) (n : nat) (x : A) :
  length (upd l n x) = length l.
Proof.
  revert n; induction l as [|h tl IH]; intros [|n]; simpl; auto.
Qed.

Lemma nth_error_upd_eq {A} (l : list A) (n : nat) (x : A) :
  (n < length l)%nat -> nth_error (upd l n x) n = Some x.
Proof.
  revert n; induction l as [|h tl IH]; intros [|n] Hn; simpl in *;
    try lia; auto.
  apply IH; lia.
Qed.

Lemma nth_error_upd_ne {A} (l : list A) (n k : nat) (x : A) :
  n <> k -> nth_error (upd l n x) k = nth_error l k.
Proof.
  revert n k; induction l as [|h tl IH]; intros [|n] [|k] Hne; simpl;
    try congruence; auto.
Qed.

Lemma in_bounds_true {A} (l : list A) (i : Z) :
  in_bounds l i = true <-> (0 <= i < Z.of_nat (length l))%Z.
Proof.
  unfold in_bounds. rewrite andb_true_iff, Z.leb_le, Z.ltb_lt. tauto.
Qed.

Lemma in_bounds_false {A} (l : list A) (i : Z) :
  in_bounds l i = false <-> ~ (0 <= i < Z.of_nat (length l))%Z.
Proof.
  rewrite <- in_bounds_true. destruct (in_bounds l i); split; congruence.
Qed.

Lemma aget_Some {A} (l : list A) (i : Z) :
  (0 <= i < Z.of_nat (length l))%Z -> exists x, aget l i = Some x.
Proof.
  intros Hi. unfold aget. rewrite (proj2 (in_bounds_true l i) Hi).
  destruct (nth_error l (Z.to_nat i)) eqn:E; eauto.
  apply nth_error_None in E. lia.
Qed.

Lemma aget_None {A} (l : list A) (i : Z) :
  ~ (0 <= i < Z.of_nat (length l))%Z -> aget l i = None.
Proof.
  intros Hi. unfold aget. now rewrite (proj2 (in_bounds_false l i) Hi).
Qed.

Lemma load_dbl_in mem a l i log :
  (0 <= i < Z.of_nat (length l))%Z ->
  exists x, aget l i = Some x /\ load_dbl mem a l i log = Ok (x, log).
Proof.
  intros Hi. destruct (aget_Some l i Hi) as [x Hx].
  exists x. split; auto. unfold load_dbl. now rewrite Hx.
Qed.

Lemma store_in a l i x log :
  (0 <= i < Z.of_nat (length l))%Z ->
  store a l i x log = Ok (upd l (Z.to_nat i) x, log).
Proof.
  intros Hi. unfold store. now rewrite (proj2 (in_bounds_true l i) Hi).
Qed.

Lemma length_zeros n : length (zeros n) = n.
Proof. apply repeat_length. Qed.

Lemma where_eq_from_zeros k n : where_eq_from k (zeros n) 1 = [].
Proof.
  revert k; induction n as [|n IH]; intros k; simpl; auto.
  destruct (Req_dec_T 0 1) as [E|_]; [lra | apply IH].
Qed.

(** ** Conversions to sample indices *)

Lemma Int_part_between (x : R) (z : Z) :
  IZR z <= x < IZR z + 1 -> Int_part x = z.
Proof.
  intros H. symmetry. apply Int_part_spec. lra.
Qed.

Lemma trunc_between (x : R) (z : Z) :
  0 <= IZR z -> IZR z <= x < IZR z + 1 -> trunc x = z.
Proof.
  intros Hz H. unfold trunc.
  destruct (Rle_dec 0 x) as [_|Hn]; [|lra].
  now apply Int_part_between.
Qed.

Lemma trunc_IZR (z : Z) : (0 <= z)%Z -> trunc (IZR z) = z.
Proof.
  intros Hz. apply trunc_between.
  - now apply IZR_le.
  - lra.
Qed.

Lemma np_round_near (x : R) (z : Z) :
  IZR z - 1 / 2 < x < IZR z + 1 / 2 -> np_round x = z.
Proof.
  intros H. unfold np_round.
  destruct (Rle_dec (IZR z) x) as [Hle|Hlt].
  - rewrite (Int_part_between x z) by lra.
    destruct (Rlt_dec (x - IZR z) (1 / 2)) as [_|Hn]; [reflexivity|lra].
  - assert (Hf : Int_part x = (z - 1)%Z).
    { apply Int_part_between. rewrite minus_IZR. lra. }
    rewrite Hf. rewrite minus_IZR.
    destruct (Rlt_dec (x - (IZR z - 1)) (1 / 2)) as [Hn|_]; [lra|].
    destruct (Rlt_dec (1 / 2) (x - (IZR z - 1))) as [_|Hn]; [lia|lra].
Qed.

(** ** Rounding *)

Lemma Rabs_bound (a b : R) : Rabs a <= b -> - b <= a <= b.
Proof. unfold Rabs. destruct (Rcase_abs a); lra. Qed.

Lemma ln_2_pos : 0 < ln 2.
Proof. pose proof ln_lt_2. lra. Qed.

Lemma powerRZ_2_pos (e : Z) : 0 < powerRZ 2 e.
Proof. apply powerRZ_lt. lra. Qed.

Lemma ln_powerRZ_2 (e : Z) : ln (powerRZ 2 e) = IZR e * ln 2.
Proof.
  rewrite powerRZ_Rpower by lra. unfold Rpower. apply ln_exp.
Qed.

Lemma ln_le (x y : R) : 0 < x -> x <= y -> ln x <= ln y.
Proof.
  intros Hx [Hlt | ->]; [left; now apply ln_increasing|right; reflexivity].
Qed.

Lemma ilog2_spec (x : R) (e : Z) :
  powerRZ 2 e <= x < powerRZ 2 (e + 1) -> ilog2 x = e.
Proof.
  intros [Hlo Hhi]. pose proof (powerRZ_2_pos e) as Hp. pose proof ln_2_pos as H2.
  assert (Hx : 0 < x) by lra.
  unfold ilog2. apply Int_part_between.
  pose proof (ln_le _ _ Hp Hlo) as H1. rewrite ln_powerRZ_2 in H1.
  pose proof (ln_increasing _ _ Hx Hhi) as H3. rewrite ln_powerRZ_2, plus_IZR in H3.
  split.
  - apply (Rmult_le_reg_r (ln 2)); [exact H2|].
    unfold Rdiv. rewrite Rmult_assoc, Rinv_l by lra. lra.
  - apply (Rmult_lt_reg_r (ln 2)); [exact H2|].
    unfold Rdiv. rewrite Rmult_assoc, Rinv_l by lra. lra.
Qed.

Lemma exp_le (x y : R) : x <= y -> exp x <= exp y.
Proof.
  intros [Hlt | ->]; [left; now apply exp_increasing|right; reflexivity].
Qed.

Lemma ilog2_bounds (x : R) :
  0 < x -> powerRZ 2 (ilog2 x) <= x < powerRZ 2 (ilog2 x + 1).
Proof.
  intros Hx. pose proof ln_2_pos as H2. unfold ilog2.
  set (y := ln x / ln 2).
  destruct (base_Int_part y) as [Hlo Hhi].
  assert (Hy : y * ln 2 = ln x) by (unfold y; field; lra).
  rewrite !powerRZ_Rpower by lra. unfold Rpower. rewrite plus_IZR.
  split.
  - rewrite <- (exp_ln x Hx), <- Hy. apply exp_le. apply Rmult_le_compat_r; lra.
  - rewrite <- (exp_ln x Hx), <- Hy. apply exp_increasing.
    apply Rmult_lt_compat_r; lra.
Qed.

Lemma np_round_error (y : R) : Rabs (IZR (np_round y) - y) <= 1 / 2.
Proof.
  unfold np_round. destruct (base_Int_part y) as [Hlo Hhi].
  destruct (Rlt_dec (y - IZR (Int_part y)) (1 / 2)) as [H1|H1].
  - apply Rabs_le. lra.
  - destruct (Rlt_dec (1 / 2) (y - IZR (Int_part y))) as [H2|H2].
    + rewrite plus_IZR. apply Rabs_le. lra.
    + destruct (Z.even (Int_part y)).
      * apply Rabs_le. lra.
      * rewrite plus_IZR. apply Rabs_le. lra.
Qed.

Lemma np_round_IZR (k : Z) : np_round (IZR k) = k.
Proof. apply np_round_near. lra. Qed.

Lemma round_to_0 (p : Z) : round_to p 0 = 0.
Proof.
  unfold round_to. destruct (Req_dec_T 0 0) as [_|H]; [reflexivity|contradiction].
Qed.

(** The error of a rounding is at most half a unit in the last place,
    which is at most [2^-p] relative to the argument. *)
Lemma round_to_error (p : Z) (x : R) :
  Rabs (round_to p x - x) <= Rabs x * powerRZ 2 (- p).
Proof.
  unfold round_to. destruct (Req_dec_T x 0) as [->|Hx].
  - rewrite Rminus_0_r, Rabs_R0. lra.
  - assert (Hax : 0 < Rabs x) by now apply Rabs_pos_lt.
    set (e := ilog2 (Rabs x)). cbv zeta.
    set (u := powerRZ 2 (e - (p - 1))).
    assert (Hu : 0 < u) by apply powerRZ_2_pos.
    destruct (ilog2_bounds (Rabs x) Hax) as [Hlo _]. fold e in Hlo.
    assert (Hue : u = powerRZ 2 e * powerRZ 2 (- p) * 2).
    { unfold u. replace (e - (p - 1))%Z with (e + (- p) + 1)%Z by lia.
      rewrite !powerRZ_add by lra.
      replace (powerRZ 2 1) with 2 by (unfold powerRZ; simpl; lra). ring. }
    pose proof (np_round_error (x / u)) as Herr.
    replace (IZR (np_round (x / u)) * u - x)
      with ((IZR (np_round (x / u)) - x / u) * u) by (field; lra).
    rewrite Rabs_mult, (Rabs_pos_eq u) by lra.
    pose proof (powerRZ_2_pos (- p)) as Hp.
    apply Rle_trans with (1 / 2 * u).
    + apply Rmult_le_compat_r; lra.
    + rewrite Hue. nra.
Qed.

Lemma powerRZ_2_neg_le_half (p : Z) : (1 <= p)%Z -> powerRZ 2 (- p) <= 1 / 2.
Proof.
  intros Hp. replace (- p)%Z with (- (p - 1) + - 1)%Z by lia.
  rewrite powerRZ_add by lra.
  assert (H : powerRZ 2 (- (p - 1)) <= 1).
  { rewrite powerRZ_neg'. rewrite <- Rinv_1.
    apply Rinv_le_contravar; [lra|].
    rewrite powerRZ_Rpower by lra. rewrite <- (Rpower_O 2) by lra.
    apply Rle_Rpower; [lra|]. apply IZR_le. lia. }
  replace (powerRZ 2 (-1)) with (1 / 2) by (unfold powerRZ; simpl; lra).
  pose proof (powerRZ_2_pos (- (p - 1))). nra.
Qed.

Lemma round_to_nonneg (p : Z) (x : R) : (1 <= p)%Z -> 0 <= x -> 0 <= round_to p x.
Proof.
  intros Hp Hx. pose proof (round_to_error p x) as H.
  pose proof (powerRZ_2_neg_le_half p Hp) as Hh. pose proof (powerRZ_2_pos (- p)) as Hpos.
  rewrite (Rabs_pos_eq x) in H by exact Hx.
  apply Rabs_bound in H. nra.
Qed.

Lemma round_to_pos (p : Z) (x : R) : (1 <= p)%Z -> 0 < x -> 0 < round_to p x.
Proof.
  intros Hp Hx. pose proof (round_to_error p x) as H.
  pose proof (powerRZ_2_neg_le_half p Hp) as Hh. pose proof (powerRZ_2_pos (- p)) as Hpos.
  rewrite (Rabs_pos_eq x) in H by lra.
  apply Rabs_bound in H. nra.
Qed.

(** A number of at most [p] significant bits is its own rounding. *)
Lemma round_to_exact (p : Z) (x : R) (e k : Z) :
  powerRZ 2 e <= Rabs x < powerRZ 2 (e + 1) ->
  x = IZR k * powerRZ 2 (e - (p - 1)) ->
  round_to p x = x.
Proof.
  intros Hb Hk. unfold round_to. destruct (Req_dec_T x 0) as [->|Hx]; [reflexivity|].
  rewrite (ilog2_spec (Rabs x) e Hb). cbv zeta.
  pose proof (powerRZ_2_pos (e - (p - 1))) as Hu.
  replace (x / powerRZ 2 (e - (p - 1))) with (IZR k).
  - rewrite np_round_IZR. symmetry. exact Hk.
  - rewrite Hk at 1. field. lra.
Qed.

Lemma float_nonneg (x : R) : 0 <= x -> 0 <= float x.
Proof. apply round_to_nonneg. lia. Qed.

Lemma float_pos (x : R) : 0 < x -> 0 < float x.
Proof. apply round_to_pos. lia. Qed.

Lemma double_nonneg (x : R) : 0 <= x -> 0 <= double x.
Proof. apply round_to_nonneg. lia. Qed.

Lemma double_pos (x : R) : 0 < x -> 0 < double x.
Proof. apply round_to_pos. lia. Qed.

Lemma narrowed_nonneg (x : R) : 0 <= x -> 0 <= narrowed x.
Proof. intros H. apply float_nonneg, double_nonneg, H. Qed.

Lemma narrowed_pos (x : R) : 0 < x -> 0 < narrowed x.
Proof. intros H. apply float_pos, double_pos, H. Qed.

Lemma float_0 : float 0 = 0.
Proof. apply round_to_0. Qed.

Lemma narrowed_0 : narrowed 0 = 0.
Proof. unfold narrowed, float, double. now rewrite !round_to_0. Qed.

(** Numbers used by the examples, none of which is rounded. *)
Ltac power_bounds := unfold powerRZ; simpl; lra.

Ltac representable e k :=
  apply (round_to_exact _ _ e k);
  [ unfold Rabs; destruct (Rcase_abs _); power_bounds | power_bounds ].

Lemma round_to_near (p : Z) (x : R) (e k u : Z) :
  u = (e - (p - 1))%Z ->
  powerRZ 2 e <= Rabs x < powerRZ 2 (e + 1) ->
  IZR k - 1 / 2 < x / powerRZ 2 u < IZR k + 1 / 2 ->
  round_to p x = IZR k * powerRZ 2 u.
Proof.
  intros -> Hb Hk. unfold round_to. destruct (Req_dec_T x 0) as [->|Hx].
  - exfalso. rewrite Rabs_R0 in Hb. pose proof (powerRZ_2_pos e). lra.
  - rewrite (ilog2_spec (Rabs x) e Hb). cbv zeta.
    now rewrite (np_round_near _ k Hk).
Qed.

Ltac rounds e k :=
  apply (round_to_near _ _ e k);
  [ reflexivity
  | unfold Rabs; destruct (Rcase_abs _) as [Hneg|Hpos];
    [ unfold powerRZ in Hneg; simpl in Hneg | unfold powerRZ in Hpos; simpl in Hpos ];
    power_bounds
  | power_bounds ].

Lemma float_1 : float 1 = 1.
Proof. unfold float. representable 0%Z 8388608%Z. Qed.

Lemma float_4 : float 4 = 4.
Proof. unfold float. representable 2%Z 8388608%Z. Qed.

Lemma float_5 : float 5 = 5.
Proof. unfold float. representable 2%Z 10485760%Z. Qed.

Lemma float_m65 : float (-65) = -65.
Proof. unfold float. representable 6%Z (-8519680)%Z. Qed.

Lemma float_m50 : float (-50) = -50.
Proof. unfold float. representable 5%Z (-13107200)%Z. Qed.

Lemma double_1 : double 1 = 1.
Proof. unfold double. representable 0%Z 4503599627370496%Z. Qed.

Lemma double_4 : double 4 = 4.
Proof. unfold double. representable 2%Z 4503599627370496%Z. Qed.

Lemma double_5 : double 5 = 5.
Proof. unfold double. representable 2%Z 5629499534213120%Z. Qed.

Lemma double_m65 : double (-65) = -65.
Proof. unfold double. representable 6%Z (-4573968371548160)%Z. Qed.

Lemma double_m50 : double (-50) = -50.
Proof. unfold double. representable 5%Z (-7036874417766400)%Z. Qed.

Lemma float_m48 : float (-48) = -48.
Proof. unfold float. representable 5%Z (-12582912)%Z. Qed.

Lemma double_m48 : double (-48) = -48.
Proof. unfold double. representable 5%Z (-6755399441055744)%Z. Qed.

Lemma float_half : float (1 / 2) = 1 / 2.
Proof. unfold float. representable (-1)%Z 8388608%Z. Qed.

Lemma double_half : double (1 / 2) = 1 / 2.
Proof. unfold double. representable (-1)%Z 4503599627370496%Z. Qed.

Lemma narrowed_1 : narrowed 1 = 1.
Proof. unfold narrowed. now rewrite double_1, float_1. Qed.

Lemma narrowed_4 : narrowed 4 = 4.
Proof. unfold narrowed. now rewrite double_4, float_4. Qed.

Lemma narrowed_5 : narrowed 5 = 5.
Proof. unfold narrowed. now rewrite double_5, float_5. Qed.

Lemma narrowed_m65 : narrowed (-65) = -65.
Proof. unfold narrowed. now rewrite double_m65, float_m65. Qed.

Lemma narrowed_m50 : narrowed (-50) = -50.
Proof. unfold narrowed. now rewrite double_m50, float_m50. Qed.

Lemma narrowed_m48 : narrowed (-48) = -48.
Proof. unfold narrowed. now rewrite double_m48, float_m48. Qed.

Lemma narrowed_half : narrowed (1 / 2) = 1 / 2.
Proof. unfold narrowed. now rewrite double_half, float_half. Qed.

(** Coarse bounds on a rounding, for the examples. *)
Lemma powerRZ_2_le (a b : Z) : (a <= b)%Z -> powerRZ 2 a <= powerRZ 2 b.
Proof.
  intros H. rewrite !powerRZ_Rpower by lra.
  apply Rle_Rpower; [lra|]. now apply IZR_le.
Qed.

Lemma round_to_rel (p : Z) (x : R) :
  (10 <= p)%Z -> 0 < x ->
  x * (999 / 1000) <= round_to p x <= x * (1001 / 1000).
Proof.
  intros Hp Hx. pose proof (round_to_error p x) as H.
  rewrite (Rabs_pos_eq x) in H by lra. apply Rabs_bound in H.
  assert (Hq : powerRZ 2 (- p) <= 1 / 1000).
  { apply Rle_trans with (powerRZ 2 (-10)); [apply powerRZ_2_le; lia|].
    unfold powerRZ. simpl. lra. }
  pose proof (powerRZ_2_pos (- p)) as Hpos. nra.
Qed.

Lemma float_rel (x : R) :
  0 < x -> x * (999 / 1000) <= float x <= x * (1001 / 1000).
Proof. apply round_to_rel. lia. Qed.

Lemma double_rel (x : R) :
  0 < x -> x * (999 / 1000) <= double x <= x * (1001 / 1000).
Proof. apply round_to_rel. lia. Qed.

Lemma narrowed_rel (x : R) :
  0 < x -> x * (998 / 1000) <= narrowed x <= x * (1003 / 1000).
Proof.
  intros Hx. unfold narrowed.
  pose proof (double_rel x Hx) as Hd.
  assert (Hd0 : 0 < double x) by lra.
  pose proof (float_rel (double x) Hd0) as Hf. nra.
Qed.

(** ** The stochastic simulator *)

Lemma no_spike_without_intensity (m : GIF) (x r : R) :
  lambda0 m = 0 -> r <= 1 ->
  ~ r > float (exp (- float (narrowed (lambda0 m) * exp x)
                    * (narrowed (dt m) / 1000))).
Proof.
  intros H0 Hr. rewrite H0, narrowed_0, Rmult_0_l, float_0.
  replace (- 0 * (narrowed (dt m) / 1000)) with 0 by ring.
  rewrite exp_0, float_1. lra.
Qed.

Lemma simulate_loop_silent (m : GIF) (mem : memory) (rnd : nat -> R)
    (I : list R) :
  lambda0 m = 0 -> (forall k, rnd k <= 1) ->
  forall fuel st log,
    (0 <= s_t st)%Z ->
    (Z.of_nat (length I) - 1 - s_t st <= Z.of_nat fuel)%Z ->
    length (s_V st) = length I ->
    (length I <= length (s_eta_sum st))%nat ->
    (length I <= length (s_gamma_sum st))%nat ->
    exists st',
      simulate_loop m mem rnd I fuel st log = Ok (st', log)
      /\ s_spks st' = s_spks st
      /\ length (s_V st') = length I
      /\ (0 < length I -> nth_error (s_V st') 0 = nth_error (s_V st) 0)%nat.
Proof.
  intros H0 Hr. induction fuel as [|fuel IH]; intros st log Ht Hfuel HV He Hg.
  - exists st. simpl. unfold T_ind.
    replace (s_t st <? Z.of_nat (length I) - 1)%Z with false
      by (symmetry; apply Z.ltb_ge; lia).
    simpl. auto.
  - simpl. unfold T_ind.
    destruct (s_t st <? Z.of_nat (length I) - 1)%Z eqn:Hc; simpl.
    2:{ exists st. auto. }
    apply Z.ltb_lt in Hc.
    destruct (load_dbl_in mem a_V (s_V st) (s_t st) log) as [v [_ Hv]]; [lia|].
    destruct (load_dbl_in mem a_I I (s_t st) log) as [i [_ Hi]]; [lia|].
    destruct (load_dbl_in mem a_eta_sum (s_eta_sum st) (s_t st) log)
      as [e [_ Hld]]; [lia|].
    destruct (load_dbl_in mem a_gamma_sum (s_gamma_sum st) (s_t st) log)
      as [g [_ Hgm]]; [lia|].
    set (V1 := upd (s_V st) (Z.to_nat (s_t st + 1)) (integrate m v i e)).
    destruct (load_dbl_in mem a_V V1 (s_t st + 1) log) as [v1 [_ Hv1]].
    { unfold V1. rewrite length_upd. lia. }
    unfold bind. rewrite Hv, Hi, Hld.
    rewrite store_in by lia. fold V1. rewrite Hv1, Hgm.
    destruct (Rgt_dec _ _) as [Hsp|_].
    { exfalso. revert Hsp. apply no_spike_without_intensity; auto. }
    destruct (IH {| s_t := s_t st + 1; s_V := V1; s_spks := s_spks st;
                    s_eta_sum := s_eta_sum st; s_gamma_sum := s_gamma_sum st;
                    s_draws := S (s_draws st) |} log) as [st' [Hrun [Hs [Hl Hz]]]];
      simpl; try lia; auto.
    { unfold V1. now rewrite length_upd. }
    exists st'. repeat split; auto.
    intros Hpos. etransitivity; [apply Hz; auto|]. unfold V1.
    apply (nth_error_upd_ne (s_V st) (Z.to_nat (s_t st + 1)) 0%nat). lia.
Qed.

Lemma simulate_nil (m : GIF) (mem : memory) (rnd : nat -> R) (fuel : nat) (V0 : R) :
  simulate m mem rnd [] fuel V0 = Raise IndexError.
Proof. reflexivity. Qed.

Lemma simulate_silent (m : GIF) (mem : memory) (rnd : nat -> R) (I : list R)
    (fuel : nat) (V0 : R) :
  lambda0 m = 0 -> I <> [] -> (forall k, rnd k <= 1) ->
  (length I <= fuel)%nat ->
  exists res,
    simulate m mem rnd I fuel V0 = Ok res
    /\ r_spks res = [] /\ r_faults res = []
    /\ length (r_V res) = length I
    /\ nth_error (r_V res) 0 = Some V0.
Proof.
  intros H0 Hne Hr Hfuel.
  destruct I as [|i0 I']; [congruence|].
  unfold simulate.
  set (T := length (i0 :: I')).
  assert (HT : (0 < T)%nat) by (unfold T; simpl; lia).
  unfold setitem. rewrite length_zeros.
  destruct (0 <? T)%nat eqn:E; [|apply Nat.ltb_ge in E; lia].
  unfold obind at 1.
  destruct (simulate_loop_silent m mem rnd (i0 :: I') H0 Hr fuel
              {| s_t := 0; s_V := upd (zeros T) 0 V0; s_spks := zeros T;
                 s_eta_sum := zeros (T + 2 * length (p_eta m));
                 s_gamma_sum := zeros (T + 2 * length (p_gamma m));
                 s_draws := 0 |} [])
    as [st' [Hrun [Hs [Hl Hz]]]].
  - simpl; lia.
  - fold T. cbn [s_t]. lia.
  - cbn [s_V]. rewrite length_upd, length_zeros. reflexivity.
  - cbn [s_eta_sum]. rewrite length_zeros. fold T. lia.
  - cbn [s_gamma_sum]. rewrite length_zeros. fold T. lia.
  - rewrite Hrun. unfold obind. eexists. split; [reflexivity|].
    cbn [r_spks r_faults r_V]. rewrite Hs. cbn [s_spks].
    unfold where_eq. rewrite where_eq_from_zeros.
    split; [reflexivity|]. split; [reflexivity|]. split; [exact Hl|].
    etransitivity; [apply Hz; fold T; lia|]. cbn [s_V].
    apply nth_error_upd_eq. rewrite length_zeros. lia.
Qed.

(** C2, as amended. An input of one sample is answered with no spike, the
    voltage trajectory [[V0]] and no access out of bounds; on the empty
    input the assignment [V[0] = V0] raises [IndexError]. *)
Theorem simulate_short_input (m : GIF) (mem : memory) (rnd : nat -> R)
    (fuel : nat) (V0 : R) :
  simulate m mem rnd [] fuel V0 = Raise IndexError
  /\ forall i0 : R,
       exists res,
         simulate m mem rnd [i0] fuel V0 = Ok res
         /\ r_spks res = [] /\ r_V res = [V0] /\ r_faults res = [].
Proof.
  split; [reflexivity|]. intros i0.
  unfold simulate, setitem. cbn [length zeros repeat Nat.ltb Nat.leb upd obind].
  assert (Hloop : forall st log,
             s_t st = 0%Z -> simulate_loop m mem rnd [i0] fuel st log = Ok (st, log)).
  { intros st log Hst. destruct fuel; simpl; unfold T_ind; rewrite Hst; reflexivity. }
  rewrite Hloop by reflexivity.
  eexists. split; [reflexivity|].
  cbn [r_spks r_V r_faults s_spks s_V].
  unfold where_eq, where_eq_from.
  destruct (Req_dec_T 0 1) as [E|_]; [lra|]. auto.
Qed.

(** C2, refuted as stated: on the empty input the simulator does not
    return a voltage trajectory of length 0 with an empty spike list. *)
Lemma simulate_empty_input_counterexample :
  ~ exists res,
      simulate (GIF_init (1 / 10) (sampled_filter [] 0) (sampled_filter [] 0))
               quiet_memory (fun _ => 0) [] 0 (-65) = Ok res
      /\ r_spks res = [] /\ length (r_V res) = 0%nat.
Proof.
  intros [res [H _]]. rewrite simulate_nil in H. discriminate H.
Qed.

(** C7, as amended. With [lambda0 = 0] the simulator returns an empty
    list of spike times for every non-empty input current, every initial
    voltage and every sequence of draws in [0,1). *)
Theorem simulate_lambda0_zero_no_spike (m : GIF) (mem : memory)
    (rnd : nat -> R) (I : list R) (fuel : nat) (V0 : R) :
  lambda0 m = 0 -> I <> [] -> (forall k, 0 <= rnd k < 1) ->
  (length I <= fuel)%nat ->
  exists res,
    simulate m mem rnd I fuel V0 = Ok res
    /\ r_spks res = [] /\ r_faults res = [] /\ length (r_V res) = length I.
Proof.
  intros H0 Hne Hr Hfuel.
  destruct (simulate_silent m mem rnd I fuel V0 H0 Hne) as [res [H1 [H2 [H3 [H4 _]]]]];
    auto.
  - intros k. destruct (Hr k). lra.
  - exists res. auto.
Qed.

Lemma simulate_lambda0_zero_witness :
  exists res,
    simulate (set_lambda0 (GIF_init (1 / 10) (sampled_filter [1] 0) (sampled_filter [1] 0)) 0)
             quiet_memory (fun _ => 1 / 2) [0; 0; 0] 3 (-65) = Ok res
    /\ r_spks res = [] /\ r_faults res = [] /\ length (r_V res) = 3%nat.
Proof.
  apply (simulate_lambda0_zero_no_spike
           (set_lambda0 (GIF_init (1 / 10) (sampled_filter [1] 0) (sampled_filter [1] 0)) 0)
           quiet_memory (fun _ => 1 / 2) [0; 0; 0] 3 (-65)).
  - reflexivity.
  - discriminate.
  - intros _. lra.
  - simpl. lia.
Defined.

(** C7, refuted as stated: with [lambda0 = 0] and the empty input current
    no list of spike times is returned. *)
Lemma simulate_lambda0_zero_counterexample :
  ~ exists res,
      simulate (set_lambda0 (GIF_init (1 / 10) (sampled_filter [1] 0) (sampled_filter [1] 0)) 0)
               quiet_memory (fun _ => 1 / 2) [] 0 (-65) = Ok res
      /\ r_spks res = [].
Proof.
  intros [res [H _]]. rewrite simulate_nil in H. discriminate H.
Qed.

(** ** Overrun of the adaptation accumulators *)

Lemma load_dbl_val mem a l i x log :
  aget l i = Some x -> load_dbl mem a l i log = Ok (x, log).
Proof. intros H. unfold load_dbl. now rewrite H. Qed.

Lemma aget_nth_error {A} (l : list A) (i : nat) (x : A) :
  nth_error l i = Some x -> aget l (Z.of_nat i) = Some x.
Proof.
  intros H. unfold aget.
  assert (Hi : (i < length l)%nat) by (apply nth_error_Some; congruence).
  rewrite (proj2 (in_bounds_true l (Z.of_nat i))) by lia.
  now rewrite Nat2Z.id.
Qed.

Lemma aget_zeros (n : nat) (i : nat) :
  (i < n)%nat -> aget (zeros n) (Z.of_nat i) = Some 0.
Proof.
  intros H. apply aget_nth_error. unfold zeros. now apply nth_error_repeat.
Qed.

(** A spike drawn in the first step writes the kernel from index
    [Tref_ind + 1] on, whatever the length of [eta_sum]. *)
Lemma simulate_first_spike_overrun (m : GIF) (mem : memory) (rnd : nat -> R)
    (i0 i1 : R) (I' : list R) (fuel : nat) (V0 : R) :
  let I := i0 :: i1 :: I' in
  let V1 := integrate m V0 i0 0 in
  p_eta m <> [] ->
  (Z.of_nat (length I + 2 * length (p_eta m)) <= Tref_ind m + 1)%Z ->
  rnd 0%nat
  > float (exp (- float (narrowed (lambda0 m)
                         * exp ((V1 - narrowed (Vt_star m) - 0) / narrowed (DV m)))
                * (narrowed (dt m) / 1000))) ->
  simulate m mem rnd I (S fuel) V0 = Raise (BufferOverrun a_eta_sum (Tref_ind m + 1)).
Proof.
  intros I V1 Hk Hlen Hr.
  unfold simulate, setitem. rewrite length_zeros.
  set (T := length I).
  assert (HT : (2 <= T)%nat) by (unfold T, I; simpl; lia).
  destruct (0 <? T)%nat eqn:E; [|apply Nat.ltb_ge in E; lia].
  unfold obind at 1.
  set (V := upd (zeros T) 0 V0).
  assert (HlV : length V = T) by (unfold V; now rewrite length_upd, length_zeros).
  cbn [simulate_loop s_t]. unfold T_ind. fold I T.
  destruct (0 <? Z.of_nat T - 1)%Z eqn:Hc; [|apply Z.ltb_ge in Hc; lia].
  cbn [negb s_V s_eta_sum s_gamma_sum s_spks s_draws]. unfold bind.
  rewrite (load_dbl_val mem a_V V 0 V0).
  2:{ apply (aget_nth_error V 0). unfold V. apply nth_error_upd_eq.
      rewrite length_zeros. lia. }
  rewrite (load_dbl_val mem a_I I 0 i0) by reflexivity.
  rewrite (load_dbl_val mem a_eta_sum _ 0 0) by (apply (aget_zeros _ 0); lia).
  rewrite store_in by lia. fold V1.
  rewrite (load_dbl_val mem a_V _ (0 + 1) V1).
  2:{ apply (aget_nth_error _ 1). apply nth_error_upd_eq. lia. }
  rewrite (load_dbl_val mem a_gamma_sum _ 0 0) by (apply (aget_zeros _ 0); lia).
  destruct (Rgt_dec _ _) as [_|Hn]; [|contradiction].
  assert (Hspk : exists s log',
             (if (0 + 1 <? Z.of_nat T - 1)%Z
              then store a_spks (zeros T) (0 + 1) 1 else ret (zeros T)) [] = Ok (s, log')).
  { destruct (0 + 1 <? Z.of_nat T - 1)%Z eqn:E1.
    - rewrite store_in by (rewrite length_zeros; lia). eauto.
    - unfold ret. eauto. }
  destruct Hspk as [s [log' Hs]]. rewrite Hs.
  destruct (0 + Tref_ind m + 1 <? Z.of_nat T - 1)%Z eqn:E2;
    [apply Z.ltb_lt in E2; lia|].
  unfold ret at 1.
  destruct (p_eta m) as [|k ks] eqn:Ek; [congruence|].
  cbn [superpose]. rewrite aget_None.
  - unfold fail. now rewrite Z.add_0_l.
  - rewrite length_zeros. fold T. unfold T. lia.
Qed.

Lemma Tref_ind_one_sample_model : Tref_ind one_sample_model = 4%Z.
Proof.
  unfold Tref_ind. cbn [Tref dt one_sample_model GIF_init].
  rewrite narrowed_4, narrowed_1.
  replace (4 / 1) with 4 by field. rewrite float_4. apply trunc_IZR. lia.
Qed.

Lemma exp_neg_bound (y : R) : 0 < y -> exp (- y) < / (1 + y).
Proof.
  intros Hy. rewrite exp_Ropp. apply Rinv_lt_contravar.
  - pose proof (exp_pos y). nra.
  - apply exp_ineq1. lra.
Qed.

Lemma exp_neg_below_half (y : R) : 1 <= y -> exp (- y) < 1 / 2.
Proof.
  intros Hy.
  assert (H1 : exp (- y) <= exp (- (1))).
  { destruct (Rle_lt_or_eq_dec 1 y Hy) as [Hlt|Heq].
    - left. apply exp_increasing. lra.
    - rewrite <- Heq. apply Rle_refl. }
  assert (H2 : 2 < exp 1).
  { pose proof (exp_ineq1 1). lra. }
  rewrite (exp_Ropp 1) in H1.
  assert (H3 : / exp 1 < / 2).
  { apply Rinv_lt_contravar; [|lra]. pose proof (exp_pos 1). nra. }
  lra.
Qed.

(** C6: a run in which the superposition of [eta] onto [eta_sum] leaves
    the array. One-sample kernels, [dt = 1] ms, [Tref = 4] ms, an input
    of two samples whose first one makes the neuron fire in the first
    step: the write goes to index 5 of an array of 4 entries. *)
Theorem simulate_superposition_overruns :
  simulate one_sample_model quiet_memory (fun _ => 1 / 2) [200; 0] 2 (-65)
  = Raise (BufferOverrun a_eta_sum 5).
Proof.
  rewrite (simulate_first_spike_overrun one_sample_model quiet_memory
             (fun _ => 1 / 2) 200 0 [] 1 (-65)).
  - now rewrite Tref_ind_one_sample_model.
  - discriminate.
  - rewrite Tref_ind_one_sample_model. simpl. lia.
  - unfold integrate.
    cbn [one_sample_model GIF_init dt C gl El Vt_star DV lambda0].
    rewrite narrowed_1, narrowed_m65, narrowed_m48, narrowed_half.
    apply Rlt_gt.
    set (c := narrowed (20 * (1 / 100))).
    assert (Hc : 19 / 100 <= c <= 21 / 100).
    { pose proof (narrowed_rel (20 * (1 / 100)) ltac:(lra)). unfold c. lra. }
    set (k := float (1 / c)).
    assert (Hk : 4 <= k).
    { assert (Hq : 100 / 21 <= 1 / c).
      { unfold Rdiv at 2. rewrite Rmult_1_l.
        replace (100 / 21) with (/ (21 / 100)) by field.
        apply Rinv_le_contravar; lra. }
      pose proof (float_rel (1 / c) ltac:(lra)). unfold k. lra. }
    set (x := (-65 + k * (- narrowed (1 / 100) * (-65 - -65) + 200 - 0) - -48 - 0)
              / (1 / 2)).
    assert (Hx : 1566 <= x) by (unfold x; lra).
    set (lam := float (1 * exp x)).
    assert (Hlam : 1500 <= lam).
    { pose proof (exp_ineq1_le x) as He. pose proof (exp_pos x) as Hp.
      pose proof (float_rel (1 * exp x) ltac:(lra)). unfold lam. lra. }
    replace (- lam * (1 / 1000)) with (- (lam / 1000)) by field.
    pose proof (exp_neg_bound (lam / 1000) ltac:(lra)) as Hb.
    pose proof (exp_pos (- (lam / 1000))) as Hp.
    pose proof (float_rel _ Hp) as Hf.
    assert (Hi : / (1 + lam / 1000) <= 2 / 5).
    { replace (2 / 5) with (/ (5 / 2)) by field.
      apply Rinv_le_contravar; lra. }
    lra.
Qed.

(** ** The forced-spike simulator *)

Lemma load_dbl_ok mem a l i log :
  exists x log', load_dbl mem a l i log = Ok (x, log')
                 /\ (log' = log \/ log' = StrayRead a i :: log).
Proof.
  unfold load_dbl. destruct (aget l i); eauto.
Qed.

Lemma store_ok a l i x log V' log' :
  store a l i x log = Ok (V', log') ->
  log' = log /\ V' = upd l (Z.to_nat i) x /\ (0 <= i < Z.of_nat (length l))%Z.
Proof.
  unfold store. destruct (in_bounds l i) eqn:E; unfold ret, fail; intros H.
  - inversion H; subst. apply in_bounds_true in E. auto.
  - discriminate.
Qed.

Lemma load_int_in mem a (l : list Z) (c : nat) log :
  (c < length l)%nat ->
  load_int mem a l (Z.of_nat c) log = Ok (nth c l 0%Z, log).
Proof.
  intros Hc. unfold load_int.
  rewrite (aget_nth_error l c (nth c l 0%Z)); auto.
  now apply nth_error_nth'.
Qed.

Lemma load_int_out mem a (l : list Z) (i : Z) log :
  ~ (0 <= i < Z.of_nat (length l))%Z ->
  load_int mem a l i log = Ok (stray_int mem a i, StrayRead a i :: log).
Proof.
  intros Hi. unfold load_int. now rewrite aget_None.
Qed.

Section ForceLoopFacts.

Variable m : GIF.
Variable mem : memory.
Variable I : list R.
Variable spks_i : list Z.
Variable eta_sum : list R.

(** Faults are only ever added to the log. *)
Lemma force_loop_log_grows (fuel : nat) :
  forall st log st' log',
    force_loop m mem I spks_i eta_sum fuel st log = Ok (st', log') ->
    forall f, In f log -> In f log'.
Proof.
  induction fuel as [|fuel IH]; intros st log st' log' H f Hf.
  - simpl in H.
    destruct (negb (f_t st <? Z.of_nat (length I) - 1)%Z);
      unfold ret, fail in H; [|discriminate].
    inversion H; subst; auto.
  - simpl in H.
    destruct (negb (f_t st <? Z.of_nat (length I) - 1)%Z).
    { unfold ret in H. inversion H; subst; auto. }
    unfold bind in H.
    destruct (load_dbl_ok mem a_V (f_V st) (f_t st) log) as [v [l1 [E1 H1]]].
    rewrite E1 in H.
    destruct (load_dbl_ok mem a_I I (f_t st) l1) as [i [l2 [E2 H2]]].
    rewrite E2 in H.
    destruct (load_dbl_ok mem a_eta_sum eta_sum (f_t st) l2) as [e [l3 [E3 H3]]].
    rewrite E3 in H.
    assert (Hf3 : In f l3).
    { destruct H1 as [->| ->], H2 as [->| ->], H3 as [->| ->]; simpl; auto. }
    destruct (store a_V (f_V st) (f_t st + 1) (integrate m v i e) l3)
      as [[V1 l4]|err] eqn:E4; [|discriminate].
    apply store_ok in E4. destruct E4 as [-> _].
    destruct (f_t st =? f_next_spike st)%Z.
    + unfold load_int in H.
      destruct (aget spks_i (f_spks_cnt st + 1)).
      * destruct (store a_V V1 (f_t st - 1) 0 l3) as [[V2 l5]|err] eqn:E5;
          [|discriminate].
        apply store_ok in E5. destruct E5 as [-> _].
        destruct (store a_V V2 (f_t st) (narrowed (Vr m)) l3) as [[V3 l6]|err] eqn:E6;
          [|discriminate].
        apply store_ok in E6. destruct E6 as [-> _].
        eapply IH; eauto.
      * destruct (store a_V V1 (f_t st - 1) 0 _) as [[V2 l5]|err] eqn:E5;
          [|discriminate].
        apply store_ok in E5. destruct E5 as [-> _].
        destruct (store a_V V2 (f_t st) (narrowed (Vr m)) _) as [[V3 l6]|err] eqn:E6;
          [|discriminate].
        apply store_ok in E6. destruct E6 as [-> _].
        eapply IH; eauto. simpl; auto.
    + eapply IH; eauto.
Qed.

(** Once the loop has reached the last scheduled reset, it reads the
    entry behind the end of [spks_i]. *)
Lemma force_loop_reads_past_end (fuel : nat) :
  ascending spks_i ->
  (forall k, (k < length spks_i)%nat ->
             (nth k spks_i 0 + Tref_ind m < Z.of_nat (length I) - 1)%Z) ->
  forall st log st' log' (c : nat),
    f_spks_cnt st = Z.of_nat c -> (c < length spks_i)%nat ->
    f_next_spike st = (nth c spks_i 0 + Tref_ind m)%Z ->
    (f_t st <= f_next_spike st)%Z ->
    force_loop m mem I spks_i eta_sum fuel st log = Ok (st', log') ->
    In (StrayRead a_spks_i (Z.of_nat (length spks_i))) log'.
Proof.
  intros Hasc Hwin.
  induction fuel as [|fuel IH]; intros st log st' log' c Hc Hlt Hn Ht H.
  - simpl in H. pose proof (Hwin c Hlt) as Hw.
    destruct (f_t st <? Z.of_nat (length I) - 1)%Z eqn:E;
      [discriminate | apply Z.ltb_ge in E; lia].
  - simpl in H. pose proof (Hwin c Hlt) as Hw.
    destruct (f_t st <? Z.of_nat (length I) - 1)%Z eqn:E;
      [|apply Z.ltb_ge in E; lia].
    cbn [negb] in H. unfold bind in H.
    destruct (load_dbl_ok mem a_V (f_V st) (f_t st) log) as [v [l1 [E1 _]]].
    rewrite E1 in H.
    destruct (load_dbl_ok mem a_I I (f_t st) l1) as [i [l2 [E2 _]]].
    rewrite E2 in H.
    destruct (load_dbl_ok mem a_eta_sum eta_sum (f_t st) l2) as [e [l3 [E3 _]]].
    rewrite E3 in H.
    destruct (store a_V (f_V st) (f_t st + 1) (integrate m v i e) l3)
      as [[V1 l4]|err] eqn:E4; [|discriminate].
    apply store_ok in E4. destruct E4 as [-> _].
    destruct (f_t st =? f_next_spike st)%Z eqn:Eq.
    + apply Z.eqb_eq in Eq. rewrite Hc in H.
      replace (Z.of_nat c + 1)%Z with (Z.of_nat (S c)) in H by lia.
      destruct (Nat.eq_dec (S c) (length spks_i)) as [Hlast|Hmore].
      * rewrite load_int_out in H by lia.
        destruct (store a_V V1 (f_t st - 1) 0 _) as [[V2 l5]|err] eqn:E5;
          [|discriminate].
        apply store_ok in E5. destruct E5 as [-> _].
        destruct (store a_V V2 (f_t st) (narrowed (Vr m)) _) as [[V3 l6]|err] eqn:E6;
          [|discriminate].
        apply store_ok in E6. destruct E6 as [-> _].
        eapply force_loop_log_grows; [exact H|].
        rewrite Hlast. simpl. auto.
      * rewrite load_int_in in H by lia.
        destruct (store a_V V1 (f_t st - 1) 0 _) as [[V2 l5]|err] eqn:E5;
          [|discriminate].
        apply store_ok in E5. destruct E5 as [-> _].
        destruct (store a_V V2 (f_t st) (narrowed (Vr m)) _) as [[V3 l6]|err] eqn:E6;
          [|discriminate].
        apply store_ok in E6. destruct E6 as [-> _].
        eapply (IH _ _ _ _ (S c)); [| | | |exact H]; cbn [f_spks_cnt f_next_spike f_t];
          try reflexivity; try lia.
        pose proof (Hasc c (S c)). lia.
    + apply Z.eqb_neq in Eq.
      eapply (IH _ _ _ _ c); [| | | |exact H]; cbn [f_spks_cnt f_next_spike f_t];
        auto; lia.
Qed.

End ForceLoopFacts.

Lemma aget_nth {A} (l : list A) (i : Z) (d : A) :
  (0 <= i < Z.of_nat (length l))%Z -> aget l i = Some (nth (Z.to_nat i) l d).
Proof.
  intros Hi. unfold aget. rewrite (proj2 (in_bounds_true l i) Hi).
  apply nth_error_nth'. lia.
Qed.

Section ForceLoopRuns.

Variable m : GIF.
Variable mem : memory.
Variable I : list R.
Variable spks_i : list Z.
Variable eta_sum : list R.

Let T : Z := Z.of_nat (length I).

Lemma length_next_V V t : length (next_voltages m I eta_sum V t) = length V.
Proof. apply length_upd. Qed.

(** An iteration inside the window that is not a scheduled reset. *)
Lemma force_loop_plain (fuel : nat) (st : force_state) (log : list fault) :
  (0 <= f_t st < T - 1)%Z ->
  length (f_V st) = length I -> (length I <= length eta_sum)%nat ->
  f_t st <> f_next_spike st ->
  force_loop m mem I spks_i eta_sum (S fuel) st log
  = force_loop m mem I spks_i eta_sum fuel
      {| f_t := f_t st + 1; f_V := next_voltages m I eta_sum (f_V st) (f_t st);
         f_spks_cnt := f_spks_cnt st; f_next_spike := f_next_spike st |} log.
Proof.
  unfold T. intros Ht HV He Hne. cbn [force_loop].
  destruct (f_t st <? Z.of_nat (length I) - 1)%Z eqn:E;
    [|apply Z.ltb_ge in E; lia].
  cbn [negb]. unfold bind.
  rewrite (load_dbl_val mem a_V _ _ _ log (aget_nth (f_V st) (f_t st) 0 ltac:(lia))).
  rewrite (load_dbl_val mem a_I _ _ _ log (aget_nth I (f_t st) 0 ltac:(lia))).
  rewrite (load_dbl_val mem a_eta_sum _ _ _ log (aget_nth eta_sum (f_t st) 0 ltac:(lia))).
  rewrite store_in by lia.
  apply Z.eqb_neq in Hne. rewrite Hne. reflexivity.
Qed.

(** The iteration at a scheduled reset, away from the first sample. *)
Lemma force_loop_reset (fuel : nat) (st : force_state) (log : list fault) :
  (1 <= f_t st < T - 1)%Z ->
  length (f_V st) = length I -> (length I <= length eta_sum)%nat ->
  f_t st = f_next_spike st ->
  force_loop m mem I spks_i eta_sum (S fuel) st log
  = (s <- load_int mem a_spks_i spks_i (f_spks_cnt st + 1) ;;
     force_loop m mem I spks_i eta_sum fuel
       {| f_t := f_t st - 1 + 1;
          f_V := upd (upd (next_voltages m I eta_sum (f_V st) (f_t st)) (Z.to_nat (f_t st - 1)) 0)
                     (Z.to_nat (f_t st)) (narrowed (Vr m));
          f_spks_cnt := f_spks_cnt st + 1;
          f_next_spike := s + Tref_ind m |}) log.
Proof.
  unfold T. intros Ht HV He Heq. cbn [force_loop].
  destruct (f_t st <? Z.of_nat (length I) - 1)%Z eqn:E;
    [|apply Z.ltb_ge in E; lia].
  cbn [negb]. unfold bind.
  rewrite (load_dbl_val mem a_V _ _ _ log (aget_nth (f_V st) (f_t st) 0 ltac:(lia))).
  rewrite (load_dbl_val mem a_I _ _ _ log (aget_nth I (f_t st) 0 ltac:(lia))).
  rewrite (load_dbl_val mem a_eta_sum _ _ _ log (aget_nth eta_sum (f_t st) 0 ltac:(lia))).
  rewrite store_in by lia.
  rewrite (proj2 (Z.eqb_eq _ _) Heq).
  unfold load_int.
  destruct (aget spks_i (f_spks_cnt st + 1)) as [s|].
  - rewrite store_in by (rewrite length_upd; lia).
    rewrite store_in by (rewrite !length_upd; lia). reflexivity.
  - rewrite store_in by (rewrite length_upd; lia).
    rewrite store_in by (rewrite !length_upd; lia). reflexivity.
Qed.

(** With no reset scheduled in what is left of the window, the loop runs
    to the end and leaves the samples up to the current one as they are. *)
Lemma force_loop_quiet (fuel : nat) :
  forall st log,
    (0 <= f_t st)%Z ->
    (f_next_spike st < f_t st \/ T - 1 <= f_next_spike st)%Z ->
    length (f_V st) = length I -> (length I <= length eta_sum)%nat ->
    (T - 1 - f_t st <= Z.of_nat fuel)%Z ->
    exists st',
      force_loop m mem I spks_i eta_sum fuel st log = Ok (st', log)
      /\ length (f_V st') = length I
      /\ forall k, (Z.of_nat k <= f_t st)%Z ->
                   nth_error (f_V st') k = nth_error (f_V st) k.
Proof.
  unfold T.
  induction fuel as [|fuel IH]; intros st log Ht Hn HV He Hf.
  - exists st. cbn [force_loop].
    destruct (f_t st <? Z.of_nat (length I) - 1)%Z eqn:E;
      [apply Z.ltb_lt in E; lia|].
    cbn [negb]. auto.
  - destruct (Z_lt_dec (f_t st) (Z.of_nat (length I) - 1)) as [Hin|Hout].
    + rewrite force_loop_plain by (unfold T; auto; lia).
      destruct (IH {| f_t := f_t st + 1; f_V := next_voltages m I eta_sum (f_V st) (f_t st);
                      f_spks_cnt := f_spks_cnt st;
                      f_next_spike := f_next_spike st |} log)
        as [st' [Hrun [Hl Hk]]]; cbn [f_t f_V f_next_spike];
        try rewrite length_next_V; auto; try lia.
      exists st'. split; [exact Hrun|]. split; [exact Hl|].
      intros k Hle. cbn [f_t f_V] in Hk. rewrite Hk by lia.
      unfold next_voltages.
      apply nth_error_upd_ne. lia.
    + exists st. cbn [force_loop].
      destruct (f_t st <? Z.of_nat (length I) - 1)%Z eqn:E;
        [apply Z.ltb_lt in E; lia|].
      cbn [negb]. auto.
Qed.

(** The loop advances to the next scheduled reset. *)
Lemma force_loop_approach (n : nat) :
  forall fuel st log,
    (0 <= f_t st)%Z -> (f_next_spike st < T - 1)%Z ->
    (f_next_spike st - f_t st = Z.of_nat n)%Z ->
    length (f_V st) = length I -> (length I <= length eta_sum)%nat ->
    exists V',
      length V' = length I
      /\ force_loop m mem I spks_i eta_sum (n + fuel) st log
         = force_loop m mem I spks_i eta_sum fuel
             {| f_t := f_next_spike st; f_V := V';
                f_spks_cnt := f_spks_cnt st;
                f_next_spike := f_next_spike st |} log.
Proof.
  unfold T.
  induction n as [|n IH]; intros fuel st log Ht Hw Hd HV He.
  - exists (f_V st). split; [exact HV|]. cbn [Nat.add].
    assert (E : f_next_spike st = f_t st) by lia.
    destruct st as [t V c nx]; cbn [f_t f_V f_spks_cnt f_next_spike] in *.
    subst nx. reflexivity.
  - cbn [Nat.add]. rewrite force_loop_plain by (unfold T; auto; lia).
    destruct (IH fuel {| f_t := f_t st + 1; f_V := next_voltages m I eta_sum (f_V st) (f_t st);
                         f_spks_cnt := f_spks_cnt st;
                         f_next_spike := f_next_spike st |} log)
      as [V' [Hl Hrun]]; cbn [f_t f_V f_next_spike];
      try rewrite length_next_V; auto; try lia.
    exists V'. split; [exact Hl|]. exact Hrun.
Qed.

End ForceLoopRuns.

(** A single forced spike at sample [s]: the reset lands on sample
    [s + Tref_ind], one stray read is made behind the spike list, and
    the next sample is integrated from the reset voltage. *)
Lemma force_code_single (m : GIF) (mem : memory) (I eta_sum : list R)
    (s : Z) (fuel : nat) (V : list R) (log : list fault) :
  let T := Z.of_nat (length I) in
  let idx := (s + Tref_ind m)%Z in
  let g := (stray_int mem a_spks_i 1 + Tref_ind m)%Z in
  (1 <= idx < T - 1)%Z -> (g < idx \/ T - 1 <= g)%Z ->
  length V = length I -> (length I <= length eta_sum)%nat ->
  (length I <= fuel)%nat ->
  exists st',
    force_code m mem I [s] eta_sum fuel V log
    = Ok (st', StrayRead a_spks_i 1 :: log)
    /\ length (f_V st') = length I
    /\ nth_error (f_V st') (Z.to_nat idx) = Some (narrowed (Vr m))
    /\ nth_error (f_V st') (Z.to_nat (idx + 1))
       = Some (integrate m (narrowed (Vr m)) (nth (Z.to_nat idx) I 0)
                         (nth (Z.to_nat idx) eta_sum 0)).
Proof.
  intros T idx g Hidx Hg HV He Hfuel.
  unfold force_code, bind.
  change (load_int mem a_spks_i [s] 0 log) with (Ok (s, log)).
  fold idx.
  assert (Hsplit : exists f3, fuel = (Z.to_nat idx + S (S f3))%nat
                              /\ (T - 1 - (idx + 1) <= Z.of_nat f3)%Z).
  { exists (fuel - Z.to_nat idx - 2)%nat. unfold T in *. split; lia. }
  destruct Hsplit as [f3 [-> Hf3]].
  destruct (force_loop_approach m mem I [s] eta_sum (Z.to_nat idx) (S (S f3))
              {| f_t := 0; f_V := V; f_spks_cnt := 0; f_next_spike := idx |} log)
    as [V' [HV' Hrun]]; cbn [f_t f_V f_next_spike]; auto; try (unfold T in *; lia).
  cbn [f_spks_cnt f_next_spike] in Hrun. fold idx. rewrite Hrun.
  rewrite force_loop_reset; cbn [f_t f_V f_next_spike f_spks_cnt]; auto;
    try (unfold T in *; lia).
  unfold bind. rewrite load_int_out by (simpl; lia).
  change (0 + 1)%Z with 1%Z. fold g. replace (idx - 1 + 1)%Z with idx by lia.
  set (V3 := upd (upd (next_voltages m I eta_sum V' idx) (Z.to_nat (idx - 1)) 0)
                 (Z.to_nat idx) (narrowed (Vr m))).
  assert (HV3 : length V3 = length I).
  { unfold V3. now rewrite !length_upd, length_next_V. }
  rewrite force_loop_plain; cbn [f_t f_V f_next_spike f_spks_cnt]; auto;
    try (unfold T in *; lia).
  destruct (force_loop_quiet m mem I [s] eta_sum f3
              {| f_t := idx + 1; f_V := next_voltages m I eta_sum V3 idx;
                 f_spks_cnt := 1; f_next_spike := g |}
              (StrayRead a_spks_i 1 :: log))
    as [st' [Hq [Hl Hk]]]; cbn [f_t f_V f_next_spike];
    try rewrite length_next_V; auto; try (unfold T in *; lia).
  exists st'. split; [exact Hq|]. split; [exact Hl|].
  cbn [f_t f_V] in Hk.
  assert (Hvr : nth_error V3 (Z.to_nat idx) = Some (narrowed (Vr m))).
  { unfold V3. apply nth_error_upd_eq.
    rewrite length_upd, length_next_V. unfold T in *. lia. }
  split.
  - rewrite Hk by lia. unfold next_voltages.
    rewrite nth_error_upd_ne by lia. exact Hvr.
  - rewrite Hk by lia. unfold next_voltages.
    rewrite nth_error_upd_eq by (unfold T in *; lia).
    now rewrite (nth_error_nth _ _ 0 Hvr).
Qed.

Lemma Int_part_nonneg (x : R) : 0 <= x -> (0 <= Int_part x)%Z.
Proof.
  intros Hx. destruct (base_Int_part x) as [H1 H2].
  assert (H : (-1 < Int_part x)%Z) by (apply lt_IZR; lra). lia.
Qed.

Lemma trunc_lower (z : Z) (x : R) :
  (0 <= z)%Z -> IZR z <= x -> (z <= trunc x)%Z.
Proof.
  intros Hz Hx. unfold trunc.
  assert (H0 : 0 <= IZR z) by now apply IZR_le.
  destruct (Rle_dec 0 x) as [_|Hn]; [|lra].
  destruct (base_Int_part x) as [H1 H2].
  assert (H : (z < Int_part x + 1)%Z).
  { apply lt_IZR. rewrite plus_IZR. lra. }
  lia.
Qed.

Lemma trunc_nonneg (x : R) : 0 <= x -> (0 <= trunc x)%Z.
Proof. intros Hx. now apply (trunc_lower 0). Qed.

Lemma np_round_nonneg (x : R) : 0 <= x -> (0 <= np_round x)%Z.
Proof.
  intros Hx. pose proof (Int_part_nonneg x Hx) as H. unfold np_round.
  destruct (Rlt_dec _ _); [lia|].
  destruct (Rlt_dec _ _); [lia|].
  destruct (Z.even _); lia.
Qed.

Lemma Rdiv_nonneg (x y : R) : 0 <= x -> 0 < y -> 0 <= x / y.
Proof.
  intros Hx Hy. unfold Rdiv.
  apply Rmult_le_pos; [exact Hx|]. left. now apply Rinv_0_lt_compat.
Qed.

Lemma length_add_at (arr : list R) (lo : nat) (k : list R) :
  length (add_at arr lo k) = length arr.
Proof.
  revert lo k; induction arr as [|x tl IH]; intros lo k; [destruct lo; reflexivity|].
  destruct lo as [|lo]; simpl.
  - destruct k; simpl; auto.
  - now rewrite IH.
Qed.

Lemma nth_add_at_below (arr : list R) (lo i : nat) (k : list R) (d : R) :
  (i < lo)%nat -> nth i (add_at arr lo k) d = nth i arr d.
Proof.
  revert lo i; induction arr as [|x tl IH]; intros lo i Hi.
  - destruct lo; reflexivity.
  - destruct lo as [|lo]; [lia|]. destruct i as [|i]; simpl; auto.
    apply IH. lia.
Qed.

Lemma nth_zeros (n i : nat) : nth i (zeros n) 0 = 0.
Proof.
  unfold zeros. destruct (Nat.lt_ge_cases i n) as [H|H].
  - now apply nth_repeat_lt.
  - apply nth_overflow. now rewrite repeat_length.
Qed.

Lemma Tref_ind_nonneg (m : GIF) : 0 < dt m -> 0 <= Tref m -> (0 <= Tref_ind m)%Z.
Proof.
  intros Hdt Hr. unfold Tref_ind. apply trunc_nonneg, float_nonneg, Rdiv_nonneg.
  - now apply narrowed_nonneg.
  - now apply narrowed_pos.
Qed.

Lemma p_Tref_i_nonneg (m : GIF) : 0 < dt m -> 0 <= Tref m -> (0 <= p_Tref_i m)%Z.
Proof.
  intros Hdt Hr. unfold p_Tref_i. apply trunc_nonneg, double_nonneg, Rdiv_nonneg.
  - now apply double_nonneg.
  - now apply double_pos.
Qed.

(** The adaptation current precomputed for a single spike at sample [s]
    inside a trace of [T] samples, with the kernel laid [k] samples
    behind the spike: long enough for the whole trace, and zero up to
    sample [s + k]. *)
Lemma force_eta_sum_single (m : GIF) (T : nat) (s k : Z) :
  (0 <= k)%Z -> (0 <= s < Z.of_nat T)%Z ->
  exists eta_sum,
    (let? z := zeros_of_float (INR T + 11 / 10 * INR (length (p_eta m))
                               + IZR k) in
     force_eta_sum z k (p_eta m) [s]) = Ok eta_sum
    /\ (T <= length eta_sum)%nat
    /\ forall i, (Z.of_nat i <= s + k)%Z -> nth i eta_sum 0 = 0.
Proof.
  intros Hr Hs.
  set (l := length (p_eta m)).
  set (x := INR T + 11 / 10 * INR l + IZR k).
  assert (Hx : (Z.of_nat T + Z.of_nat l + k <= trunc x)%Z).
  { apply trunc_lower; [lia|]. unfold x.
    rewrite !plus_IZR, <- !INR_IZR_INZ.
    pose proof (pos_INR l). lra. }
  unfold zeros_of_float.
  destruct (trunc x <? 0)%Z eqn:E; [apply Z.ltb_lt in E; lia|].
  unfold obind at 1. cbn [force_eta_sum]. unfold slice_iadd.
  rewrite length_zeros. fold l.
  set (n := Z.to_nat (trunc x)).
  assert (Ha : slice_bound n (s + 1 + k) = (s + 1 + k)%Z).
  { unfold slice_bound.
    destruct (s + 1 + k <? 0)%Z eqn:E1; [apply Z.ltb_lt in E1; lia|].
    unfold n. lia. }
  assert (Hb : slice_bound n (s + 1 + k + Z.of_nat l)
               = (s + 1 + k + Z.of_nat l)%Z).
  { unfold slice_bound.
    destruct (s + 1 + k + Z.of_nat l <? 0)%Z eqn:E1;
      [apply Z.ltb_lt in E1; lia|].
    unfold n. lia. }
  rewrite Ha, Hb.
  replace (Z.to_nat (s + 1 + k + Z.of_nat l - (s + 1 + k)))
    with l by lia.
  rewrite Nat.eqb_refl. unfold obind.
  eexists. split; [reflexivity|]. split.
  - rewrite length_add_at, length_zeros. unfold n. lia.
  - intros i Hi. rewrite nth_add_at_below by lia. apply nth_zeros.
Qed.

(** A run of [simulateDeterministic_forceSpikes] on a single spike at
    time [t_spk], when the stray read behind the spike list schedules no
    further reset inside the trace. *)
Lemma forced_single_spike_run (m : GIF) (mem : memory) (fuel : nat)
    (I : list R) (V0 t_spk : R) :
  0 < dt m -> 0 <= Tref m -> 0 <= t_spk ->
  let idx := (np_round (t_spk / dt m) + Tref_ind m)%Z in
  let g := (stray_int mem a_spks_i 1 + Tref_ind m)%Z in
  (1 <= idx < Z.of_nat (length I) - 1)%Z ->
  (g < idx \/ Z.of_nat (length I) - 1 <= g)%Z ->
  (length I <= fuel)%nat ->
  exists res,
    simulateDeterministic_forceSpikes m mem fuel I V0 [t_spk] = Ok res
    /\ length (fr_V res) = length I
    /\ nth_error (fr_V res) (Z.to_nat idx) = Some (narrowed (Vr m))
    /\ nth_error (fr_V res) (Z.to_nat (idx + 1))
       = Some (integrate m (narrowed (Vr m)) (nth (Z.to_nat idx) I 0)
                         (nth (Z.to_nat idx) (fr_eta_sum res) 0))
    /\ fr_faults res = [StrayRead a_spks_i 1]
    /\ (forall i, (Z.of_nat i <= np_round (t_spk / dt m) + p_Tref_i m)%Z ->
                  nth i (fr_eta_sum res) 0 = 0).
Proof.
  intros Hdt HTref Hspk idx g Hidx Hg Hfuel. subst idx g.
  set (s := np_round (t_spk / dt m)) in *.
  assert (Hs : (0 <= s)%Z) by (apply np_round_nonneg, Rdiv_nonneg; assumption).
  assert (Hr : (0 <= Tref_ind m)%Z) by now apply Tref_ind_nonneg.
  assert (Hp : (0 <= p_Tref_i m)%Z) by now apply p_Tref_i_nonneg.
  destruct (force_eta_sum_single m (length I) s (p_Tref_i m) Hp)
    as [es [Hes [Hlen Hzero]]]; [lia|].
  unfold simulateDeterministic_forceSpikes.
  cbn [timeToIndex map]. fold s.
  destruct (zeros_of_float _) as [z|e]; [|discriminate Hes].
  cbn [obind] in Hes |- *. rewrite Hes. cbn [obind].
  unfold setitem. rewrite length_zeros.
  destruct (0 <? length I)%nat eqn:E; [|apply Nat.ltb_ge in E; lia].
  cbn [obind].
  destruct (force_code_single m mem I (firstn (length I) es) s fuel
              (upd (zeros (length I)) 0 V0) [])
    as [st' [Hrun [Hl [Hvr Hnext]]]]; auto.
  - now rewrite length_upd, length_zeros.
  - rewrite length_firstn. lia.
  - rewrite Hrun. cbn [obind]. eexists. split; [reflexivity|].
    cbn [fr_V fr_faults fr_eta_sum]. split; [exact Hl|]. split; [exact Hvr|].
    rewrite firstn_firstn, Nat.min_id.
    split; [exact Hnext|]. split; [reflexivity|].
    intros i Hi. rewrite nth_firstn.
    destruct (i <? length I)%nat; [now apply Hzero|reflexivity].
Qed.

Lemma coarse_spike_index : np_round (50 / dt coarse_model) = 10%Z.
Proof.
  cbn [dt coarse_model GIF_init]. apply np_round_near. lra.
Qed.

Lemma coarse_Tref_ind : Tref_ind coarse_model = 0%Z.
Proof.
  unfold Tref_ind. cbn [dt Tref coarse_model GIF_init].
  rewrite narrowed_4, narrowed_5.
  pose proof (float_rel (4 / 5) ltac:(lra)).
  apply trunc_between; lra.
Qed.

Lemma coarse_p_Tref_i : p_Tref_i coarse_model = 0%Z.
Proof.
  unfold p_Tref_i. cbn [dt Tref coarse_model GIF_init].
  rewrite double_4, double_5.
  pose proof (double_rel (4 / 5) ltac:(lra)).
  apply trunc_between; lra.
Qed.

Lemma coarse_Tref_rounded : np_round (Tref coarse_model / dt coarse_model) = 1%Z.
Proof.
  cbn [dt Tref coarse_model GIF_init]. apply np_round_near. lra.
Qed.

(** C1, as amended. In forced-spike mode a single supplied spike at time
    [t_spk] (50 ms in the scenario, with [Tref] = 4 ms) pins [V] to the
    single-precision value of [Vr] at sample
    [round(t_spk/dt) + int(float(Tref)/float(dt))]: the spike time is
    rounded to the nearest sample, the refractory offset is the
    quotient in single precision, truncated. The stray read behind the
    spike list is assumed to schedule no further reset inside the
    trace. *)
Theorem forced_reset_sample_index (m : GIF) (mem : memory) (fuel : nat)
    (I : list R) (V0 t_spk : R) :
  0 < dt m -> 0 <= Tref m -> 0 <= t_spk ->
  let idx := (np_round (t_spk / dt m) + Tref_ind m)%Z in
  let g := (stray_int mem a_spks_i 1 + Tref_ind m)%Z in
  (1 <= idx < Z.of_nat (length I) - 1)%Z ->
  (g < idx \/ Z.of_nat (length I) - 1 <= g)%Z ->
  (length I <= fuel)%nat ->
  exists res,
    simulateDeterministic_forceSpikes m mem fuel I V0 [t_spk] = Ok res
    /\ length (fr_V res) = length I
    /\ nth_error (fr_V res) (Z.to_nat idx) = Some (narrowed (Vr m)).
Proof.
  intros Hdt HTref Hspk idx g Hidx Hg Hfuel.
  destruct (forced_single_spike_run m mem fuel I V0 t_spk Hdt HTref Hspk Hidx Hg Hfuel)
    as [res [H1 [H2 [H3 _]]]].
  exists res. auto.
Qed.

Lemma forced_reset_sample_index_witness :
  exists res,
    simulateDeterministic_forceSpikes coarse_model quiet_memory 13
      (repeat 0 13) (-65) [50] = Ok res
    /\ length (fr_V res) = length (repeat 0 13)
    /\ nth_error (fr_V res)
         (Z.to_nat (np_round (50 / dt coarse_model) + Tref_ind coarse_model))
       = Some (narrowed (Vr coarse_model)).
Proof.
  apply (forced_reset_sample_index coarse_model quiet_memory 13
           (repeat 0 13) (-65) 50).
  - cbn [dt coarse_model GIF_init]. lra.
  - cbn [Tref coarse_model GIF_init]. lra.
  - lra.
  - rewrite coarse_spike_index, coarse_Tref_ind. simpl. lia.
  - rewrite coarse_spike_index, coarse_Tref_ind. simpl. lia.
  - simpl. lia.
Defined.

(** C1, refuted as stated. At [dt] = 5 ms the claimed sample
    [round(50/dt) + round(4/dt)] is 11, and [V] there is not [Vr]: the
    reset was applied at sample 10. *)
Lemma forced_reset_rounding_counterexample :
  (np_round (50 / dt coarse_model)
   + np_round (Tref coarse_model / dt coarse_model) = 11)%Z
  /\ exists res,
       simulateDeterministic_forceSpikes coarse_model quiet_memory 13
         (repeat 0 13) (-65) [50] = Ok res
       /\ nth_error (fr_V res) 10 = Some (Vr coarse_model)
       /\ nth_error (fr_V res) 11 <> Some (Vr coarse_model).
Proof.
  split.
  - rewrite coarse_spike_index, coarse_Tref_rounded. reflexivity.
  - destruct (forced_single_spike_run coarse_model quiet_memory 13
                (repeat 0 13) (-65) 50) as [res [H1 [_ [H3 [H4 [_ H5]]]]]].
    + cbn [dt coarse_model GIF_init]. lra.
    + cbn [Tref coarse_model GIF_init]. lra.
    + lra.
    + rewrite coarse_spike_index, coarse_Tref_ind. simpl. lia.
    + rewrite coarse_spike_index, coarse_Tref_ind. simpl. lia.
    + simpl. lia.
    + rewrite coarse_spike_index, coarse_Tref_ind in H3, H4.
      rewrite coarse_spike_index, coarse_p_Tref_i in H5.
      exists res. split; [exact H1|].
      cbn [Vr coarse_model GIF_init] in H3 |- *. rewrite narrowed_m50 in H3.
      split; [exact H3|].
      change (Z.to_nat (10 + 0 + 1)) with 11%nat in H4. rewrite H4.
      rewrite (H5 (Z.to_nat (10 + 0))) by (simpl; lia).
      intros E. injection E as E. revert E.
      unfold integrate.
      cbn [dt C gl El Vr coarse_model GIF_init nth repeat Z.to_nat Z.add
           Pos.to_nat Pos.iter_op Nat.add].
      rewrite narrowed_m50, narrowed_m65, narrowed_5.
      pose proof (narrowed_pos (20 * (1 / 100)) ltac:(lra)) as Hc.
      pose proof (narrowed_pos (1 / 100) ltac:(lra)) as Hg.
      assert (Hq : 0 < 5 / narrowed (20 * (1 / 100))).
      { apply Rdiv_lt_0_compat; lra. }
      pose proof (float_pos _ Hq) as Hk.
      set (k := float (5 / narrowed (20 * (1 / 100)))) in *.
      set (g := narrowed (1 / 100)) in *.
      nra.
Qed.

(** C10. The forced-spike engine reads [spks_i] out of bounds: entry 0
    of an empty spike list before the loop, and, once the last supplied
    spike has been processed inside the simulated window, the entry at
    the index equal to the length of the list. Every run that returns
    has the stray read in its log. *)
Theorem forced_spikes_read_past_spike_list (m : GIF) (mem : memory)
    (fuel : nat) (I : list R) (V0 : R) :
  (forall res,
     simulateDeterministic_forceSpikes m mem fuel I V0 [] = Ok res ->
     aget (timeToIndex [] (dt m)) 0 = None
     /\ In (StrayRead a_spks_i 0) (fr_faults res))
  /\ (forall spks res,
        let spks_i := timeToIndex spks (dt m) in
        spks <> [] -> ascending spks_i ->
        (0 <= nth 0 spks_i 0 + Tref_ind m)%Z ->
        (nth (length spks - 1) spks_i 0 + Tref_ind m < Z.of_nat (length I) - 1)%Z ->
        simulateDeterministic_forceSpikes m mem fuel I V0 spks = Ok res ->
        aget spks_i (Z.of_nat (length spks)) = None
        /\ In (StrayRead a_spks_i (Z.of_nat (length spks))) (fr_faults res)).
Proof.
  split.
  - intros res H. split; [reflexivity|].
    unfold simulateDeterministic_forceSpikes in H.
    destruct (zeros_of_float _) as [z|e]; [|discriminate H].
    cbn [obind timeToIndex map force_eta_sum] in H.
    destruct (setitem _ _ _) as [V|e]; [|discriminate H].
    cbn [obind] in H. unfold force_code, bind in H.
    rewrite load_int_out in H by (simpl; lia).
    destruct (force_loop _ _ _ _ _ _ _ _) as [[st log]|e] eqn:E; [|discriminate H].
    cbn [obind] in H. injection H as <-. cbn [fr_faults].
    eapply force_loop_log_grows; [exact E|]. simpl. auto.
  - intros spks res spks_i Hne Hasc H0 Hlast H.
    assert (Hlen : length spks_i = length spks) by apply length_map.
    split; [apply aget_None; lia|].
    unfold simulateDeterministic_forceSpikes in H. fold spks_i in H.
    destruct (zeros_of_float _) as [z|e]; [|discriminate H].
    cbn [obind] in H.
    destruct (force_eta_sum _ _ _ _) as [es|e]; [|discriminate H].
    cbn [obind] in H.
    destruct (setitem _ _ _) as [V|e]; [|discriminate H].
    cbn [obind] in H. unfold force_code, bind in H.
    assert (Hpos : (0 < length spks_i)%nat).
    { rewrite Hlen. destruct spks; [congruence|simpl; lia]. }
    pose proof (load_int_in mem a_spks_i spks_i 0 [] Hpos) as Hl.
    change (Z.of_nat 0) with 0%Z in Hl. rewrite Hl in H.
    destruct (force_loop _ _ _ _ _ _ _ _) as [[st log]|e] eqn:E; [|discriminate H].
    cbn [obind] in H. injection H as <-. cbn [fr_faults].
    rewrite <- Hlen.
    eapply (force_loop_reads_past_end m mem I spks_i _ fuel Hasc); [| | | | |exact E];
      cbn [f_spks_cnt f_next_spike f_t]; try reflexivity; auto.
    intros k Hk. pose proof (Hasc k (length spks - 1)%nat). lia.
Qed.

Lemma forced_spikes_read_past_spike_list_witness :
  exists res,
    simulateDeterministic_forceSpikes coarse_model quiet_memory 13
      (repeat 0 13) (-65) [50] = Ok res
    /\ aget (timeToIndex [50] (dt coarse_model)) (Z.of_nat (length [50])) = None
    /\ In (StrayRead a_spks_i (Z.of_nat (length [50]))) (fr_faults res).
Proof.
  destruct (forced_single_spike_run coarse_model quiet_memory 13
              (repeat 0 13) (-65) 50) as [res [Hrun _]].
  - cbn [dt coarse_model GIF_init]. lra.
  - cbn [Tref coarse_model GIF_init]. lra.
  - lra.
  - rewrite coarse_spike_index, coarse_Tref_ind. simpl. lia.
  - rewrite coarse_spike_index, coarse_Tref_ind. simpl. lia.
  - simpl. lia.
  - exists res. split; [exact Hrun|].
    apply (proj2 (forced_spikes_read_past_spike_list coarse_model quiet_memory
                    13 (repeat 0 13) (-65)) [50] res).
    + discriminate.
    + cbn [timeToIndex map]. rewrite coarse_spike_index.
      intros i j [Hij Hj]. simpl in Hj.
      assert (Hi : i = 0%nat) by lia. assert (Hj0 : j = 0%nat) by lia.
      subst i j. simpl. lia.
    + cbn [timeToIndex map nth].
      rewrite coarse_spike_index, coarse_Tref_ind. lia.
    + cbn [timeToIndex map nth length Nat.sub].
      rewrite coarse_spike_index, coarse_Tref_ind. simpl. lia.
    + exact Hrun.
Defined.

(** ** The Newton loop of [maximizeLikelihood] *)




(** C3, as amended. Iteration [i] of the Newton loop, counted from 0,
    replaces [beta] by [beta - learning_rate * H^-1 * G] with
    [learning_rate = 0.1] in the first 11 iterations, those of index 0
    to 10 (the test is [i<=10]), and [1.0] in every later one; [H] and
    [G] are the Hessian and the gradient summed over the traces. With
    the new [beta] the loop either ends or goes on to iteration [i+1];
    when [inv] raises on [H], so does the loop. *)
Theorem newton_iteration_update (la : lapack) (m : GIF)
    (all : list (list (list R) * list (list R) * list R))
    (logL : option R) (N_spikes_tot stopCond : R)
    (n i : nat) (beta : list R) (old_L : R) :
  let a := likelihood_over_traces m beta all in
  let rate := if (i <? 11)%nat then 1 / 10 else 1 in
  let run := newton_loop la m all logL N_spikes_tot stopCond in
  match acc_H a, acc_G a with
  | Some H, Some G =>
      match inv la H with
      | Ok H_inv =>
          let beta' := vsub beta (vscale rate (matvec H_inv G)) in
          run (S n) i beta old_L = Ok (beta', S i)
          \/ run (S n) i beta old_L = run n (S i) beta' (acc_L a)
      | Raise e => run (S n) i beta old_L = Raise e
      end
  | _, _ => run (S n) i beta old_L = Raise LinAlgError
  end.
Proof.
  intros a rate run. unfold run. cbn [newton_loop]. fold a.
  assert (Hrate : learning_rate i = rate).
  { unfold learning_rate, rate.
    destruct (i <=? 10)%nat eqn:E1, (i <? 11)%nat eqn:E2; auto.
    - apply Nat.leb_le in E1. apply Nat.ltb_ge in E2. lia.
    - apply Nat.leb_gt in E1. apply Nat.ltb_lt in E2. lia. }
  rewrite Hrate. unfold newton_update.
  destruct (acc_H a) as [H|]; [|reflexivity].
  destruct (acc_G a) as [G|]; [|reflexivity].
  destruct (inv la H) as [H_inv|e]; cbn [obind]; [|reflexivity].
  destruct (_ && _); [now left|].
  destruct (isnan_L_norm _ _ _); [now left|now right].
Qed.

Lemma one_parameter_step (lr : R) :
  newton_update rounding_lapack [0] lr
    (likelihood_over_traces coarse_model [0] one_parameter_design)
  = Ok [199 * lr].
Proof.
  assert (E : exp (1 * 0 + 0) = 1).
  { replace (1 * 0 + 0) with 0 by ring. apply exp_0. }
  unfold newton_update, likelihood_over_traces, one_parameter_design.
  cbn [fold_left lgh_add computeLikelihoodGradientHessian acc_H acc_G acc_L].
  cbn [mscale vscale map matmul transpose seq column nth dotp vmul matvec length
       vsub lambda0 dt coarse_model GIF_init].
  rewrite E. unfold inv.
  cbn [is_square forallb length Nat.eqb andb negb].
  cbn [det total map seq fold_right nth remove_nth pow Nat.sub Nat.add minor].
  destruct (Req_dec_T _ _) as [E0|_]; [exfalso; lra|].
  cbn [obind matvec map dotp vscale vsub]. f_equal. f_equal. field.
Qed.

(** C3, refuted as stated: the eleventh iteration, of index 10, comes
    after the first 10 and still moves [beta] at the rate 0.1, here from
    0 to 19.9; at the rate 1.0 the update would be 199. *)
Lemma newton_eleventh_iteration_counterexample :
  newton_loop rounding_lapack coarse_model one_parameter_design (Some 0) 1
    default_stopCond 1 10 [0] 1
  = Ok ([199 * (1 / 10)], 11%nat)
  /\ newton_update rounding_lapack [0] 1
       (likelihood_over_traces coarse_model [0] one_parameter_design)
     = Ok [199 * 1]
  /\ 199 * (1 / 10) <> 199 * 1.
Proof.
  split; [|split; [apply one_parameter_step|lra]].
  cbn [newton_loop]. change (learning_rate 10) with (1 / 10).
  rewrite one_parameter_step. cbn [obind].
  destruct (_ && _); [reflexivity|].
  destruct (isnan_L_norm _ _ _); reflexivity.
Qed.






(** ** The regression design of a trace *)

Lemma take_all {A} (a : list A) (sel : list nat) (d : A) :
  Forall (fun t => (t < length a)%nat) sel ->
  take a sel = Ok (map (fun t => nth t a d) sel).
Proof.
  induction sel as [|t sel IH]; intros H; [reflexivity|].
  inversion H as [|? ? Ht Hrest]; subst. cbn [take map].
  rewrite (nth_error_nth' a d Ht), (IH Hrest). reflexivity.
Qed.

Lemma length_diff (V : list R) : length (diff V) = (length V - 1)%nat.
Proof.
  induction V as [|x [|y tl] IH]; try reflexivity.
  change (diff (x :: y :: tl)) with ((y - x) :: diff (y :: tl)).
  cbn [length] in *. lia.
Qed.

Lemma nth_diff (V : list R) (t : nat) :
  (S t < length V)%nat -> nth t (diff V) 0 = nth (S t) V 0 - nth t V 0.
Proof.
  revert t; induction V as [|x [|y tl] IH]; intros t Ht; cbn [length] in Ht;
    try lia.
  change (diff (x :: y :: tl)) with ((y - x) :: diff (y :: tl)).
  destruct t as [|t]; [reflexivity|].
  cbn [nth]. rewrite IH by (cbn [length]; lia). reflexivity.
Qed.

(** The padded derivative [np.concatenate((np.diff(V)/dt, [0]))]. *)
Lemma nth_padded_derivative (V : list R) (h : R) (t : nat) :
  (t < length V)%nat ->
  nth t (map (fun d => d / h) (diff V) ++ [0]) 0
  = if (S t <? length V)%nat then (nth (S t) V 0 - nth t V 0) / h else 0.
Proof.
  intros Ht. destruct (S t <? length V)%nat eqn:E.
  - apply Nat.ltb_lt in E.
    rewrite app_nth1 by (rewrite length_map, length_diff; lia).
    rewrite (nth_indep _ 0 (0 / h)) by (rewrite length_map, length_diff; lia).
    rewrite <- (nth_diff V t E).
    exact (map_nth (fun d => d / h) (diff V) 0 t).
  - apply Nat.ltb_ge in E.
    rewrite app_nth2 by (rewrite length_map, length_diff; lia).
    rewrite length_map, length_diff.
    replace (t - (length V - 1))%nat with 0%nat by lia. reflexivity.
Qed.

Lemma length_padded_derivative (V : list R) (h : R) :
  V <> [] -> length (map (fun d => d / h) (diff V) ++ [0]) = length V.
Proof.
  intros HV. rewrite length_app, length_map, length_diff. cbn [length].
  destruct V; [congruence|]. cbn [length]. lia.
Qed.

Lemma build_target (m : GIF) (trace : Trace) (DT_beforeSpike : R) :
  let selection := getROI_FarFromSpikes trace DT_beforeSpike (Tref m) in
  let X_eta :=
    convolution_Spiketrain_basisfunctions (eta m)
      (map (fun s => s + Tref m) (getSpikeTimes trace))
      (tr_T trace) (tr_dt trace) in
  Forall (fun t => (t < length (tr_V trace))%nat) selection ->
  Forall (fun t => (t < length (tr_I trace))%nat) selection ->
  Forall (fun t => (t < length X_eta)%nat) selection ->
  exists X,
    fitSubthresholdDynamics_Build_Xmatrix_Yvector m trace DT_beforeSpike
    = Ok (X, map (fun t => if (S t <? length (tr_V trace))%nat
                           then (nth (S t) (tr_V trace) 0 - nth t (tr_V trace) 0)
                                / tr_dt trace
                           else 0) selection).
Proof.
  intros selection X_eta HV HI He.
  unfold fitSubthresholdDynamics_Build_Xmatrix_Yvector.
  fold selection. fold X_eta.
  rewrite (take_all (tr_V trace) selection 0 HV). cbn [obind].
  rewrite (take_all (tr_I trace) selection 0 HI). cbn [obind].
  rewrite (take_all X_eta selection [] He). cbn [obind].
  destruct selection as [|t0 sel'] eqn:Esel.
  - cbn [take obind map]. eexists. reflexivity.
  - assert (HVne : tr_V trace <> []).
    { inversion HV; subst. destruct (tr_V trace); cbn [length] in *; [lia|congruence]. }
    rewrite (take_all _ (t0 :: sel') 0).
    2:{ rewrite length_padded_derivative by exact HVne. exact HV. }
    cbn [obind]. eexists. f_equal. f_equal.
    apply map_ext_in. intros t Hin.
    apply nth_padded_derivative.
    now apply (proj1 (Forall_forall _ _) HV).
Qed.

(** C5, as amended. For a single trace the target [Y] has one entry per
    selected sample [t]: the discrete voltage derivative
    [(V[t+1]-V[t])/dt] when [t] is not the final sample of the trace,
    and the padding value 0 when it is. The final sample is not dropped
    from the regression: if it is selected it enters with target 0. *)
Theorem regression_target_padded_derivative (m : GIF) (trace : Trace)
    (DT_beforeSpike : R) :
  let selection := getROI_FarFromSpikes trace DT_beforeSpike (Tref m) in
  let X_eta :=
    convolution_Spiketrain_basisfunctions (eta m)
      (map (fun s => s + Tref m) (getSpikeTimes trace))
      (tr_T trace) (tr_dt trace) in
  let V := tr_V trace in
  Forall (fun t => (t < length V)%nat) selection ->
  Forall (fun t => (t < length (tr_I trace))%nat) selection ->
  Forall (fun t => (t < length X_eta)%nat) selection ->
  exists X Y,
    fitSubthresholdDynamics_Build_Xmatrix_Yvector m trace DT_beforeSpike
    = Ok (X, Y)
    /\ length Y = length selection
    /\ forall k t,
         nth_error selection k = Some t ->
         nth_error Y k
         = Some (if (S t <? length V)%nat
                 then (nth (S t) V 0 - nth t V 0) / tr_dt trace
                 else 0).
Proof.
  intros selection X_eta V HV HI He.
  destruct (build_target m trace DT_beforeSpike HV HI He) as [X HX].
  eexists. eexists. split; [exact HX|]. split; [apply length_map|].
  intros k t Hk. rewrite nth_error_map. fold selection. rewrite Hk. reflexivity.
Qed.

Lemma regression_target_padded_derivative_witness :
  exists X Y,
    fitSubthresholdDynamics_Build_Xmatrix_Yvector (bare_model 2)
      two_sample_trace 5 = Ok (X, Y)
    /\ length Y = length (getROI_FarFromSpikes two_sample_trace 5
                            (Tref (bare_model 2)))
    /\ forall k t,
         nth_error (getROI_FarFromSpikes two_sample_trace 5
                      (Tref (bare_model 2))) k = Some t ->
         nth_error Y k
         = Some (if (S t <? length (tr_V two_sample_trace))%nat
                 then (nth (S t) (tr_V two_sample_trace) 0
                       - nth t (tr_V two_sample_trace) 0)
                      / tr_dt two_sample_trace
                 else 0).
Proof.
  apply (regression_target_padded_derivative (bare_model 2) two_sample_trace 5).
  - cbn [getROI_FarFromSpikes two_sample_trace tr_V length]. repeat constructor.
  - cbn [getROI_FarFromSpikes two_sample_trace tr_I length]. repeat constructor.
  - cbn [getROI_FarFromSpikes two_sample_trace convolution_Spiketrain_basisfunctions
         bare_model GIF_init eta sampled_filter filter_convolve repeat length].
    repeat constructor.
Defined.

(** C5, refuted as stated: on a trace of two samples, both selected, the
    target keeps the final sample, with value 0, where the specification
    has it dropped. *)
Lemma regression_target_keeps_last_counterexample :
  exists X Y,
    fitSubthresholdDynamics_Build_Xmatrix_Yvector (bare_model 2)
      two_sample_trace 5 = Ok (X, Y)
    /\ Y = [(2 - 1) / 1; 0]
    /\ Y <> derivative_target_dropping_last (tr_V two_sample_trace)
              (tr_dt two_sample_trace)
              (getROI_FarFromSpikes two_sample_trace 5 (Tref (bare_model 2))).
Proof.
  destruct (build_target (bare_model 2) two_sample_trace 5) as [X HX].
  - cbn [getROI_FarFromSpikes two_sample_trace tr_V length]. repeat constructor.
  - cbn [getROI_FarFromSpikes two_sample_trace tr_I length]. repeat constructor.
  - cbn [getROI_FarFromSpikes two_sample_trace convolution_Spiketrain_basisfunctions
         bare_model GIF_init eta sampled_filter filter_convolve repeat length].
    repeat constructor.
  - eexists. eexists. split; [exact HX|].
    cbn [getROI_FarFromSpikes two_sample_trace tr_V tr_dt map length nth
         Nat.ltb Nat.leb derivative_target_dropping_last filter].
    split; [reflexivity|]. discriminate.
Qed.

(** ** The reset voltage *)

Lemma reset_visit_fold (traces : list Trace) :
  forall acc,
    fold_left reset_visit traces acc
    = {| ra_support :=
           fold_left (fun _ tr => Some (spike_support tr))
                     (filter contributes traces) (ra_support acc);
         all_spike_average :=
           all_spike_average acc ++ map spike_shape (filter contributes traces);
         all_spike_nb :=
           fold_left (fun n tr => (n + spike_count tr)%nat)
                     (filter contributes traces) (all_spike_nb acc) |}.
Proof.
  induction traces as [|tr traces IH]; intros acc.
  - cbn [fold_left filter map]. rewrite app_nil_r. destruct acc; reflexivity.
  - cbn [fold_left filter]. rewrite IH. unfold reset_visit, contributes.
    destruct (useTrace tr); cbn [andb]; [|reflexivity].
    destruct (0 <? length (tr_spks tr))%nat; [|reflexivity].
    unfold spike_support, spike_shape, spike_count.
    cbn [fold_left map].
    destruct (computeAverageSpikeShape tr) as [[support average] nb].
    cbn [fst snd ra_support all_spike_average all_spike_nb].
    rewrite <- app_assoc. reflexivity.
Qed.

Lemma length_vadd (u v : list R) :
  length u = length v -> length (vadd u v) = length u.
Proof.
  revert v; induction u as [|x u IH]; intros [|y v] H; cbn [length] in *;
    try lia; auto.
  cbn [vadd length]. rewrite IH; lia.
Qed.

Lemma nth_vadd (u v : list R) (j : nat) :
  length u = length v ->
  nth j (vadd u v) 0 = nth j u 0 + nth j v 0.
Proof.
  revert v j; induction u as [|x u IH]; intros [|y v] j H; cbn [length] in *;
    try lia.
  - destruct j; cbn; lra.
  - destruct j as [|j]; cbn [vadd nth]; [reflexivity|]. apply IH. lia.
Qed.

Lemma fold_vadd (rest : list (list R)) (n : nat) :
  forall r,
    length r = n -> Forall (fun r' => length r' = n) rest ->
    length (fold_left vadd rest r) = n
    /\ forall j, nth j (fold_left vadd rest r) 0
                 = nth j r 0 + total (map (fun r' => nth j r' 0) rest).
Proof.
  induction rest as [|r' rest IH]; intros r Hr Hall.
  - cbn [fold_left map total fold_right]. split; [exact Hr|]. intros j. lra.
  - inversion Hall as [|? ? Hr' Hrest]; subst.
    cbn [fold_left map total fold_right].
    destruct (IH (vadd r r')) as [Hl Hn]; auto.
    { rewrite length_vadd; congruence. }
    split; [exact Hl|]. intros j. rewrite Hn, nth_vadd by congruence.
    unfold total. lra.
Qed.

Lemma first_ge_from_spec (v : list R) (x : R) (j : nat) :
  forall k,
    (j < length v)%nat -> x <= nth j v 0 ->
    (forall i, (i < j)%nat -> nth i v 0 < x) ->
    first_ge_from k v x = Ok (k + j)%nat.
Proof.
  revert j; induction v as [|y v IH]; intros j k Hj Hge Hlt;
    cbn [length] in Hj; [lia|].
  cbn [first_ge_from]. destruct j as [|j].
  - cbn [nth] in Hge. destruct (Rle_dec x y); [f_equal; lia|contradiction].
  - pose proof (Hlt 0%nat ltac:(lia)) as H0. cbn [nth] in H0.
    destruct (Rle_dec x y); [lra|].
    rewrite (IH j (S k)); [f_equal; lia|lia|exact Hge|].
    intros i Hi. apply (Hlt (S i)). lia.
Qed.

Lemma list_as_map_seq (l : list R) (n : nat) (f : nat -> R) :
  length l = n -> (forall j, (j < n)%nat -> nth j l 0 = f j) ->
  l = map f (seq 0 n).
Proof.
  intros Hl Hf. apply (nth_ext l (map f (seq 0 n)) 0 (f 0%nat)).
  - now rewrite length_map, length_seq.
  - intros j Hj. rewrite Hl in Hj.
    rewrite (map_nth f (seq 0 n) 0%nat j), seq_nth by exact Hj.
    now apply Hf.
Qed.

Lemma mean_axis0_unweighted (trs : list Trace) (n : nat) :
  trs <> [] -> Forall (fun tr => length (spike_shape tr) = n) trs ->
  exists avg,
    mean_axis0 (map spike_shape trs) = Ok avg
    /\ length avg = n
    /\ forall j, (j < n)%nat -> nth j avg 0 = unweighted_mean_at trs j.
Proof.
  intros Hne Hall. destruct trs as [|tr0 trs']; [congruence|].
  inversion Hall as [|? ? H0 Hrest]; subst.
  assert (Hrows : Forall (fun r' => length r' = length (spike_shape tr0))
                         (map spike_shape trs')).
  { apply Forall_map. exact Hrest. }
  destruct (fold_vadd (map spike_shape trs') (length (spike_shape tr0))
              (spike_shape tr0) eq_refl Hrows) as [Hl Hn].
  cbn [map mean_axis0].
  replace (forallb _ (map spike_shape trs')) with true.
  2:{ symmetry. apply forallb_forall. intros r Hr.
      apply Nat.eqb_eq. now apply (proj1 (Forall_forall _ _) Hrows). }
  eexists. split; [reflexivity|]. split.
  - now rewrite length_map.
  - intros j Hj. unfold unweighted_mean_at.
    set (k := INR (length (spike_shape tr0 :: map spike_shape trs'))).
    rewrite (nth_indep _ 0 ((fun x => x / k) 0)) by (rewrite length_map; lia).
    rewrite (map_nth (fun x => x / k)). unfold k.
    rewrite Hn, map_map. cbn [map total fold_right length].
    rewrite length_map. reflexivity.
Qed.

Lemma fit_voltage_reset_run (m : GIF) (experiment : Experiment) (Tref0 : R)
    (front : list Trace) (last_tr : Trace) (n j : nat) :
  let trs := contributing experiment in
  let support := spike_support last_tr in
  trs = front ++ [last_tr] ->
  Forall (fun tr => length (spike_shape tr) = n) trs ->
  (j < length support)%nat -> (j < n)%nat ->
  Tref0 <= nth j support 0 ->
  (forall i, (i < j)%nat -> nth i support 0 < Tref0) ->
  exists m',
    fitVoltageReset m experiment Tref0 = Ok m'
    /\ Vr m' = unweighted_mean_at trs j
    /\ avg_spike_shape m' = map (unweighted_mean_at trs) (seq 0 n)
    /\ avg_spike_shape_support m' = support
    /\ Tref m' = Tref0 /\ dt m' = exp_dt experiment.
Proof.
  intros trs support Htrs Hall Hj Hjn Hge Hlt.
  assert (Hne : trs <> []).
  { rewrite Htrs. destruct front; discriminate. }
  destruct (mean_axis0_unweighted trs n Hne Hall) as [avg [Hmean [Hlen Hnth]]].
  unfold fitVoltageReset. rewrite reset_visit_fold.
  cbn [ra_support all_spike_average app].
  fold (contributing experiment). fold trs.
  rewrite Hmean. cbn [obind].
  replace (fold_left (fun _ tr => Some (spike_support tr)) trs None)
    with (Some support).
  2:{ rewrite Htrs, fold_left_app. reflexivity. }
  cbn [Tref set_Tref]. unfold first_ge.
  rewrite (first_ge_from_spec support Tref0 j 0 Hj Hge Hlt).
  cbn [Nat.add obind]. unfold getitem.
  rewrite (nth_error_nth' avg 0) by lia. cbn [obind].
  eexists. split; [reflexivity|].
  cbn [Vr avg_spike_shape avg_spike_shape_support Tref dt set_reset set_Tref set_dt].
  split; [now apply Hnth|]. split; [|auto].
  now apply list_as_map_seq.
Qed.

(** C8. The reset-voltage stage averages, with equal weight per trace,
    the spike-triggered average waveforms of the training traces that
    are in use and have at least one spike, sets [Vr] to the value of
    that average at the first support sample whose time is at least
    [Tref], and stores the averaged waveform and its support. *)
Theorem voltage_reset_is_unweighted_mean (m : GIF) (experiment : Experiment)
    (Tref0 : R) (front : list Trace) (last_tr : Trace) (n j : nat) :
  let trs := contributing experiment in
  let support := spike_support last_tr in
  trs = front ++ [last_tr] ->
  Forall (fun tr => length (spike_shape tr) = n) trs ->
  (j < length support)%nat -> (j < n)%nat ->
  Tref0 <= nth j support 0 ->
  (forall i, (i < j)%nat -> nth i support 0 < Tref0) ->
  exists m',
    fitVoltageReset m experiment Tref0 = Ok m'
    /\ Vr m' = unweighted_mean_at trs j
    /\ avg_spike_shape m' = map (unweighted_mean_at trs) (seq 0 n)
    /\ avg_spike_shape_support m' = support
    /\ Tref m' = Tref0 /\ dt m' = exp_dt experiment.
Proof.
  exact (fit_voltage_reset_run m experiment Tref0 front last_tr n j).
Qed.

Lemma voltage_reset_is_unweighted_mean_witness :
  exists m',
    fitVoltageReset coarse_model reset_experiment 4 = Ok m'
    /\ Vr m' = unweighted_mean_at (contributing reset_experiment) 1
    /\ avg_spike_shape m'
       = map (unweighted_mean_at (contributing reset_experiment)) (seq 0 2)
    /\ avg_spike_shape_support m'
       = spike_support (shape_trace true [2%Z; 5%Z; 8%Z] [0; 4] [3; 5] 3)
    /\ Tref m' = 4 /\ dt m' = exp_dt reset_experiment.
Proof.
  apply (voltage_reset_is_unweighted_mean coarse_model reset_experiment 4
           [shape_trace true [5%Z] [0; 4] [1; 3] 1]
           (shape_trace true [2%Z; 5%Z; 8%Z] [0; 4] [3; 5] 3) 2 1).
  - reflexivity.
  - repeat constructor.
  - simpl. lia.
  - lia.
  - simpl. lra.
  - intros i Hi. assert (E : i = 0%nat) by lia. subst i. simpl. lra.
Defined.

(** The reset voltage fitted on [reset_experiment] is the plain mean, 4,
    of the values 3 and 5 of its two contributing traces, although one
    has a single spike and the other three. *)
Lemma reset_experiment_Vr :
  unweighted_mean_at (contributing reset_experiment) 1 = 4.
Proof.
  unfold unweighted_mean_at.
  cbn [contributing reset_experiment trainingset_traces filter contributes
       shape_trace useTrace tr_spks andb length Nat.ltb Nat.leb map
       spike_shape computeAverageSpikeShape fst snd nth total fold_right INR].
  lra.
Qed.

(** ** The sub-threshold regression *)

Lemma fit_subthreshold_run (la : lapack) (m : GIF) (experiment : Experiment)
    (DT_beforeSpike : R) (X : list (list R)) (Y : list R) (cnt : nat)
    (b0 b1 b2 : R) (rest : list R) :
  subthreshold_design (set_dt m (exp_dt experiment))
    (trainingset_traces experiment) DT_beforeSpike = Ok (X, Y, cnt) ->
  regression la X Y cnt = Ok (b0 :: b1 :: b2 :: rest) ->
  exists m',
    fitSubthresholdDynamics la m experiment DT_beforeSpike = Ok m'
    /\ C m' = 1 / b1
    /\ gl m' = - b0 * C m'
    /\ El m' = b2 * C m' / gl m'
    /\ getCoefficients (eta m') = map (fun x => - x * C m') rest.
Proof.
  intros Hdesign Hreg. unfold fitSubthresholdDynamics.
  rewrite Hdesign. cbn [obind]. rewrite Hreg. cbn [obind].
  unfold extract_parameters, getitem. cbn [nth_error obind skipn].
  eexists. split; [reflexivity|].
  cbn [C gl El eta set_subthreshold getCoefficients setFilter_Coefficients
       filter_coeff].
  auto.
Qed.

Lemma membrane_design :
  subthreshold_design (set_dt (bare_model 4) (exp_dt membrane_experiment))
    (trainingset_traces membrane_experiment) 5
  = Ok ([[0; 0; 1]; [1; 0; 1]; [1; 1; 1]],
        [(1 - 0) / 1; (1 - 1) / 1; (2 - 1) / 1], 1%nat).
Proof. reflexivity. Qed.

Lemma membrane_regression (la : lapack) :
  regression la [[0; 0; 1]; [1; 0; 1]; [1; 1; 1]]
             [(1 - 0) / 1; (1 - 1) / 1; (2 - 1) / 1] 1
  = Ok [-1; 1; 1].
Proof.
  unfold regression. cbn [length].
  cbn [matmul transpose map seq column nth dotp].
  unfold inv. cbn [is_square forallb length Nat.eqb andb negb].
  cbn [det total map seq fold_right nth remove_nth pow Nat.sub Nat.add minor].
  destruct (Req_dec_T _ _) as [E|_]; [exfalso; lra|].
  cbn [obind matvec map dotp transpose seq column nth].
  repeat f_equal; lra.
Qed.

(** C9. Once the linear regression has solved for the coefficient vector
    [b], the parameters of the model are [C = 1/b[1]], [gl = -b[0]*C],
    [El = b[2]*C/gl], and the coefficients of [eta] are [-b[3:]*C]. *)
Theorem subthreshold_parameter_recovery (la : lapack) (m : GIF)
    (experiment : Experiment)
    (DT_beforeSpike : R) (X : list (list R)) (Y : list R) (cnt : nat)
    (b0 b1 b2 : R) (rest : list R) :
  subthreshold_design (set_dt m (exp_dt experiment))
    (trainingset_traces experiment) DT_beforeSpike = Ok (X, Y, cnt) ->
  regression la X Y cnt = Ok (b0 :: b1 :: b2 :: rest) ->
  exists m',
    fitSubthresholdDynamics la m experiment DT_beforeSpike = Ok m'
    /\ C m' = 1 / b1
    /\ gl m' = - b0 * C m'
    /\ El m' = b2 * C m' / gl m'
    /\ getCoefficients (eta m') = map (fun x => - x * C m') rest.
Proof.
  exact (fit_subthreshold_run la m experiment DT_beforeSpike X Y cnt b0 b1 b2 rest).
Qed.

Lemma subthreshold_parameter_recovery_witness :
  exists m',
    fitSubthresholdDynamics rounding_lapack (bare_model 4) membrane_experiment 5
    = Ok m'
    /\ C m' = 1 / 1
    /\ gl m' = - (-1) * C m'
    /\ El m' = 1 * C m' / gl m'
    /\ getCoefficients (eta m') = map (fun x => - x * C m') [].
Proof.
  apply (subthreshold_parameter_recovery rounding_lapack (bare_model 4)
           membrane_experiment 5
           [[0; 0; 1]; [1; 0; 1]; [1; 1; 1]]
           [(1 - 0) / 1; (1 - 1) / 1; (2 - 1) / 1] 1 (-1) 1 1 []).
  - reflexivity.
  - exact (membrane_regression rounding_lapack).
Defined.

(** * Further properties of the code *)

(** ** Invariants of the stochastic simulator *)

Lemma nth_upd {A} (l : list A) (n k : nat) (x d : A) :
  nth k (upd l n x) d
  = if ((k =? n) && (n <? length l))%nat then x else nth k l d.
Proof.
  revert n k; induction l as [|h tl IH]; intros n k.
  - cbn [upd length].
    replace (n <? 0)%nat with false by (destruct n; reflexivity).
    rewrite andb_false_r. reflexivity.
  - destruct n as [|n], k as [|k]; cbn [upd nth length]; try reflexivity.
    rewrite IH. reflexivity.
Qed.

Lemma superpose_ok (a : array) (kernel : list R) :
  forall sum base log sum' log',
    superpose a sum base kernel log = Ok (sum', log') ->
    length sum' = length sum /\ log' = log.
Proof.
  induction kernel as [|k kernel IH]; intros sum base log sum' log' H.
  - cbn [superpose] in H. unfold ret in H. inversion H; subst; auto.
  - cbn [superpose] in H. destruct (aget sum base) as [old|]; [|discriminate].
    unfold bind in H.
    destruct (store a sum base (old + k) log) as [[s1 l1]|e] eqn:E; [|discriminate].
    apply store_ok in E. destruct E as [-> [-> _]].
    apply IH in H. rewrite length_upd in H. exact H.
Qed.

Lemma superpose_in (a : array) (kernel : list R) :
  forall sum base log,
    (0 <= base)%Z ->
    (base + Z.of_nat (length kernel) <= Z.of_nat (length sum))%Z ->
    exists sum', superpose a sum base kernel log = Ok (sum', log).
Proof.
  induction kernel as [|k kernel IH]; intros sum base log Hb Hfit.
  - exists sum. reflexivity.
  - cbn [length] in Hfit. cbn [superpose].
    destruct (aget_Some sum base) as [old Hold]; [lia|]. rewrite Hold.
    unfold bind. rewrite store_in by lia.
    apply IH; [lia|]. rewrite length_upd. lia.
Qed.

Lemma where_eq_from_In (l : list R) (x : R) :
  forall b k, In k (where_eq_from b l x) ->
              (b <= k)%nat /\ nth (k - b) l 0 = x /\ (k - b < length l)%nat.
Proof.
  induction l as [|y tl IH]; intros b k Hin; cbn [where_eq_from] in Hin.
  - destruct Hin.
  - assert (Htl : In k (where_eq_from (S b) tl x) ->
                  (b <= k)%nat /\ nth (k - b) (y :: tl) 0 = x
                  /\ (k - b < length (y :: tl))%nat).
    { intros H. destruct (IH _ _ H) as [H1 [H2 H3]].
      replace (k - b)%nat with (S (k - S b)) by lia.
      cbn [nth length]. repeat split; auto; lia. }
    destruct (Req_dec_T y x) as [E|_]; [|auto].
    destruct Hin as [<-|Hin]; [|auto].
    rewrite Nat.sub_diag. cbn [nth length]. repeat split; auto; lia.
Qed.

Lemma markers_later (T : nat) (Tref_i t t' : Z) (spks : list R) :
  (t <= t')%Z -> spike_markers_ok T Tref_i t spks ->
  spike_markers_ok T Tref_i t' spks.
Proof.
  intros Ht [H1 H2]. split; [|exact H2].
  intros k Hk. destruct (H1 k Hk) as [Ha [Hb Hc]]. repeat split; auto; lia.
Qed.

Lemma markers_after_spike (T : nat) (Tref_i t : Z) (spks : list R) :
  (0 <= Tref_i)%Z -> (0 <= t)%Z -> length spks = T ->
  (t + 1 < Z.of_nat T - 1)%Z ->
  spike_markers_ok T Tref_i t spks ->
  spike_markers_ok T Tref_i (t + Tref_i + 1) (upd spks (Z.to_nat (t + 1)) 1).
Proof.
  intros Hr Ht Hl Hin [H1 H2].
  assert (Hnth : forall k, nth k (upd spks (Z.to_nat (t + 1)) 1) 0 = 1 ->
                           k = Z.to_nat (t + 1) \/ nth k spks 0 = 1).
  { intros k. rewrite nth_upd.
    destruct (k =? Z.to_nat (t + 1))%nat eqn:E; cbn [andb].
    - apply Nat.eqb_eq in E. auto.
    - auto. }
  split.
  - intros k Hk. destruct (Hnth k Hk) as [->|Hold].
    + repeat split; lia.
    + destruct (H1 k Hold) as [Ha [Hb Hc]]. repeat split; auto; lia.
  - intros j k Hjk Hj Hk.
    destruct (Hnth j Hj) as [->|Hjold], (Hnth k Hk) as [->|Hkold].
    + lia.
    + destruct (H1 k Hkold) as [_ [_ Hc]]. lia.
    + destruct (H1 j Hjold) as [_ [_ Hc]]. lia.
    + now apply H2.
Qed.

Lemma nth_error_upd_head {A} (l : list A) (n : nat) (x v : A) :
  (0 < n)%nat -> nth_error l 0 = Some v -> nth_error (upd l n x) 0 = Some v.
Proof.
  intros Hn H. rewrite nth_error_upd_ne by lia. exact H.
Qed.

(** A returning run of the loop keeps the invariant and makes no stray
    read. *)
Lemma simulate_loop_keeps_inv (m : GIF) (mem : memory) (rnd : nat -> R)
    (I : list R) (V0 : R) :
  (0 <= Tref_ind m)%Z ->
  forall fuel st log st' log',
    sim_inv m I V0 st ->
    simulate_loop m mem rnd I fuel st log = Ok (st', log') ->
    sim_inv m I V0 st' /\ log' = log.
Proof.
  intros Hr. induction fuel as [|fuel IH]; intros st log st' log' Hinv H.
  - cbn [simulate_loop] in H.
    destruct (negb (s_t st <? T_ind I - 1)%Z); [|discriminate].
    unfold ret in H. inversion H; subst. auto.
  - cbn [simulate_loop] in H. unfold T_ind in H.
    destruct (s_t st <? Z.of_nat (length I) - 1)%Z eqn:Hc; cbn [negb] in H.
    2:{ unfold ret in H. inversion H; subst. auto. }
    apply Z.ltb_lt in Hc.
    destruct Hinv as [Ht [HV [Hs [He [Hg [H0 Hm]]]]]].
    unfold bind in H.
    rewrite (load_dbl_val mem a_V _ _ _ log (aget_nth (s_V st) (s_t st) 0 ltac:(lia))) in H.
    rewrite (load_dbl_val mem a_I _ _ _ log (aget_nth I (s_t st) 0 ltac:(lia))) in H.
    rewrite (load_dbl_val mem a_eta_sum _ _ _ log
               (aget_nth (s_eta_sum st) (s_t st) 0 ltac:(lia))) in H.
    rewrite store_in in H by lia.
    set (V1 := upd (s_V st) (Z.to_nat (s_t st + 1)) _) in H.
    assert (HV1 : length V1 = length I) by (unfold V1; now rewrite length_upd).
    assert (H01 : nth_error V1 0 = Some V0).
    { unfold V1. apply nth_error_upd_head; [lia|exact H0]. }
    rewrite (load_dbl_val mem a_V _ _ _ log (aget_nth V1 (s_t st + 1) 0 ltac:(lia))) in H.
    rewrite (load_dbl_val mem a_gamma_sum _ _ _ log
               (aget_nth (s_gamma_sum st) (s_t st) 0 ltac:(lia))) in H.
    destruct (Rgt_dec _ _) as [_|_].
    + (* a spike *)
      assert (Hspk : exists spks',
                 (if (s_t st + 1 <? Z.of_nat (length I) - 1)%Z
                  then store a_spks (s_spks st) (s_t st + 1) 1
                  else ret (s_spks st)) log = Ok (spks', log)
                 /\ length spks' = length I
                 /\ spike_markers_ok (length I) (Tref_ind m)
                      (s_t st + Tref_ind m + 1) spks').
      { destruct (s_t st + 1 <? Z.of_nat (length I) - 1)%Z eqn:E1.
        - apply Z.ltb_lt in E1. rewrite store_in by lia.
          eexists. split; [reflexivity|]. split; [now rewrite length_upd|].
          apply markers_after_spike; auto.
        - exists (s_spks st). split; [reflexivity|]. split; [exact Hs|].
          apply (markers_later _ _ (s_t st)); [lia|exact Hm]. }
      destruct Hspk as [spks' [Es [Hs' Hm']]]. rewrite Es in H.
      assert (HV2 : exists V2,
                 (if (s_t st + Tref_ind m + 1 <? Z.of_nat (length I) - 1)%Z
                  then store a_V V1 (s_t st + Tref_ind m + 1) (narrowed (Vr m))
                  else ret V1) log = Ok (V2, log)
                 /\ length V2 = length I /\ nth_error V2 0 = Some V0).
      { destruct (s_t st + Tref_ind m + 1 <? Z.of_nat (length I) - 1)%Z eqn:E2.
        - apply Z.ltb_lt in E2. rewrite store_in by lia.
          eexists. split; [reflexivity|]. split; [now rewrite length_upd|].
          apply nth_error_upd_head; [lia|exact H01].
        - exists V1. split; [reflexivity|]. auto. }
      destruct HV2 as [V2 [EV2 [HlV2 H02]]]. rewrite EV2 in H.
      destruct (superpose a_eta_sum _ _ _ log) as [[eta' l1]|e] eqn:Ee; [|discriminate].
      apply superpose_ok in Ee. destruct Ee as [Hle ->].
      destruct (superpose a_gamma_sum _ _ _ log) as [[gam' l2]|e] eqn:Eg; [|discriminate].
      apply superpose_ok in Eg. destruct Eg as [Hlg ->].
      apply IH in H; [exact H|].
      unfold sim_inv. cbn [s_t s_V s_spks s_eta_sum s_gamma_sum].
      repeat split; auto; try lia; try (apply Hm'; assumption).
    + (* no spike *)
      apply IH in H; [exact H|].
      unfold sim_inv. cbn [s_t s_V s_spks s_eta_sum s_gamma_sum].
      repeat split; auto; try lia;
        try (apply (markers_later _ _ (s_t st) (s_t st + 1)) in Hm; [apply Hm; assumption|lia]).
Qed.

Lemma markers_zeros (T : nat) (Tref_i : Z) : spike_markers_ok T Tref_i 0 (zeros T).
Proof.
  split.
  - intros k Hk. rewrite nth_zeros in Hk. lra.
  - intros j k _ Hj _. rewrite nth_zeros in Hj. lra.
Qed.

(** A returning call of [simulate] ends in a state that satisfies the
    invariant, and its log is empty. *)
Lemma simulate_final_state (m : GIF) (mem : memory) (rnd : nat -> R)
    (I : list R) (fuel : nat) (V0 : R) (res : sim_result) :
  (0 <= Tref_ind m)%Z ->
  simulate m mem rnd I fuel V0 = Ok res ->
  exists st,
    sim_inv m I V0 st
    /\ res = {| r_time := arange_times (length I) (dt m);
                r_V := s_V st;
                r_eta_sum := firstn (length I) (s_eta_sum st);
                r_V_T := map (fun g => g + Vt_star m)
                             (firstn (length I) (s_gamma_sum st));
                r_spks := map (fun k => INR k * dt m) (where_eq (s_spks st) 1);
                r_faults := [] |}.
Proof.
  intros Hr H. unfold simulate, setitem in H. rewrite length_zeros in H.
  destruct (0 <? length I)%nat eqn:E; [|discriminate]. apply Nat.ltb_lt in E.
  unfold obind at 1 in H.
  destruct (simulate_loop m mem rnd I fuel _ []) as [[st log]|e] eqn:Hrun;
    [|discriminate].
  apply simulate_loop_keeps_inv with (V0 := V0) in Hrun; [|exact Hr|].
  - destruct Hrun as [Hinv ->]. cbn [obind] in H. inversion H; subst.
    exists st. split; [exact Hinv|reflexivity].
  - unfold sim_inv. cbn [s_t s_V s_spks s_eta_sum s_gamma_sum].
    rewrite length_upd, !length_zeros.
    split; [lia|]. split; [reflexivity|]. split; [reflexivity|].
    split; [lia|]. split; [lia|]. split; [|apply markers_zeros].
    apply nth_error_upd_eq. rewrite length_zeros. exact E.
Qed.

Lemma simulate_shape (m : GIF) (mem : memory) (rnd : nat -> R)
    (I : list R) (fuel : nat) (V0 : R) (res : sim_result) :
  0 < dt m -> 0 <= Tref m ->
  simulate m mem rnd I fuel V0 = Ok res ->
  length (r_time res) = length I
  /\ length (r_V res) = length I
  /\ length (r_eta_sum res) = length I
  /\ length (r_V_T res) = length I
  /\ nth_error (r_V res) 0 = Some V0
  /\ r_faults res = [].
Proof.
  intros Hdt Hr H.
  destruct (simulate_final_state m mem rnd I fuel V0 res
              (Tref_ind_nonneg m Hdt Hr) H) as [st [Hinv ->]].
  destruct Hinv as [_ [HV [_ [He [Hg [H0 _]]]]]].
  cbn [r_time r_V r_eta_sum r_V_T r_faults].
  unfold arange_times. rewrite !length_map, length_seq, !length_firstn.
  repeat split; auto; lia.
Qed.

Lemma trunc_above (x : R) : 0 <= x -> x < IZR (trunc x) + 1.
Proof.
  intros Hx. unfold trunc. destruct (Rle_dec 0 x) as [_|n]; [|contradiction].
  destruct (base_Int_part x) as [_ H]. lra.
Qed.

Lemma simulate_spike_times (m : GIF) (mem : memory) (rnd : nat -> R)
    (I : list R) (fuel : nat) (V0 : R) (res : sim_result) :
  0 < dt m -> 0 <= Tref m ->
  simulate m mem rnd I fuel V0 = Ok res ->
  (forall s, In s (r_spks res) -> dt m <= s <= (INR (length I) - 2) * dt m)
  /\ (forall s s', In s (r_spks res) -> In s' (r_spks res) -> s < s' ->
                   (IZR (Tref_ind m) + 1) * dt m <= s' - s).
Proof.
  intros Hdt Hr H.
  destruct (simulate_final_state m mem rnd I fuel V0 res
              (Tref_ind_nonneg m Hdt Hr) H) as [st [Hinv ->]].
  destruct Hinv as [_ [_ [_ [_ [_ [_ [H1 H2]]]]]]].
  cbn [r_spks].
  assert (Hmark : forall s, In s (map (fun k => INR k * dt m) (where_eq (s_spks st) 1)) ->
                            exists k, s = INR k * dt m /\ nth k (s_spks st) 0 = 1).
  { intros s Hs. apply in_map_iff in Hs. destruct Hs as [k [<- Hk]].
    exists k. split; [reflexivity|].
    apply where_eq_from_In in Hk. destruct Hk as [_ [Hk _]].
    now rewrite Nat.sub_0_r in Hk. }
  split.
  - intros s Hs. destruct (Hmark s Hs) as [k [-> Hk]].
    destruct (H1 k Hk) as [Ha [Hb _]].
    apply le_INR in Ha, Hb. rewrite plus_INR in Hb. cbn [INR] in Ha, Hb.
    split; nra.
  - intros s s' Hs Hs' Hlt.
    destruct (Hmark s Hs) as [j [-> Hj]]. destruct (Hmark s' Hs') as [k [-> Hk]].
    assert (Hjk : (j < k)%nat).
    { destruct (Nat.lt_ge_cases j k) as [L|G]; [exact L|].
      apply le_INR in G. nra. }
    pose proof (H2 j k Hjk Hj Hk) as Hsep.
    assert (Hz : (Z.of_nat j + (Tref_ind m + 1) <= Z.of_nat k)%Z) by lia.
    apply IZR_le in Hz. rewrite !plus_IZR, <- !INR_IZR_INZ in Hz.
    nra.
Qed.

(** The loop returns, without overrun and within [fuel] iterations, when
    the padding of both accumulators covers the refractory shift. *)
Lemma simulate_loop_returns (m : GIF) (mem : memory) (rnd : nat -> R)
    (I : list R) :
  (0 <= Tref_ind m)%Z ->
  padding_covers (Tref_ind m) (p_eta m) ->
  padding_covers (Tref_ind m) (p_gamma m) ->
  forall fuel st log,
    (0 <= s_t st)%Z ->
    (Z.of_nat (length I) - 1 - s_t st <= Z.of_nat fuel)%Z ->
    length (s_V st) = length I ->
    length (s_spks st) = length I ->
    (length I + 2 * length (p_eta m) <= length (s_eta_sum st))%nat ->
    (length I + 2 * length (p_gamma m) <= length (s_gamma_sum st))%nat ->
    exists st', simulate_loop m mem rnd I fuel st log = Ok (st', log).
Proof.
  intros Hr Pe Pg. induction fuel as [|fuel IH]; intros st log Ht Hfuel HV Hs He Hg.
  - exists st. cbn [simulate_loop]. unfold T_ind.
    replace (s_t st <? Z.of_nat (length I) - 1)%Z with false
      by (symmetry; apply Z.ltb_ge; lia).
    reflexivity.
  - cbn [simulate_loop]. unfold T_ind.
    destruct (s_t st <? Z.of_nat (length I) - 1)%Z eqn:Hc; cbn [negb].
    2:{ exists st. reflexivity. }
    apply Z.ltb_lt in Hc. unfold bind.
    rewrite (load_dbl_val mem a_V _ _ _ log (aget_nth (s_V st) (s_t st) 0 ltac:(lia))).
    rewrite (load_dbl_val mem a_I _ _ _ log (aget_nth I (s_t st) 0 ltac:(lia))).
    rewrite (load_dbl_val mem a_eta_sum _ _ _ log
               (aget_nth (s_eta_sum st) (s_t st) 0 ltac:(lia))).
    rewrite store_in by lia.
    set (V1 := upd (s_V st) (Z.to_nat (s_t st + 1)) _).
    assert (HV1 : length V1 = length I) by (unfold V1; now rewrite length_upd).
    rewrite (load_dbl_val mem a_V _ _ _ log (aget_nth V1 (s_t st + 1) 0 ltac:(lia))).
    rewrite (load_dbl_val mem a_gamma_sum _ _ _ log
               (aget_nth (s_gamma_sum st) (s_t st) 0 ltac:(lia))).
    destruct (Rgt_dec _ _) as [_|_].
    + assert (Hspk : exists spks',
                 (if (s_t st + 1 <? Z.of_nat (length I) - 1)%Z
                  then store a_spks (s_spks st) (s_t st + 1) 1
                  else ret (s_spks st)) log = Ok (spks', log)
                 /\ length spks' = length I).
      { destruct (s_t st + 1 <? Z.of_nat (length I) - 1)%Z eqn:E1.
        - apply Z.ltb_lt in E1. rewrite store_in by lia.
          eexists. split; [reflexivity|]. now rewrite length_upd.
        - exists (s_spks st). split; [reflexivity|exact Hs]. }
      destruct Hspk as [spks' [Es Hs']]. rewrite Es.
      assert (HV2 : exists V2,
                 (if (s_t st + Tref_ind m + 1 <? Z.of_nat (length I) - 1)%Z
                  then store a_V V1 (s_t st + Tref_ind m + 1) (narrowed (Vr m))
                  else ret V1) log = Ok (V2, log)
                 /\ length V2 = length I).
      { destruct (s_t st + Tref_ind m + 1 <? Z.of_nat (length I) - 1)%Z eqn:E2.
        - apply Z.ltb_lt in E2. rewrite store_in by lia.
          eexists. split; [reflexivity|]. now rewrite length_upd.
        - exists V1. split; [reflexivity|exact HV1]. }
      destruct HV2 as [V2 [EV2 HlV2]]. rewrite EV2.
      assert (Hsup : forall a sum kernel,
                 padding_covers (Tref_ind m) kernel ->
                 (length I + 2 * length kernel <= length sum)%nat ->
                 exists sum',
                   superpose a sum (s_t st + Tref_ind m + 1) kernel log = Ok (sum', log)
                   /\ length sum' = length sum).
      { intros a sum kernel [->|Hk] Hlen.
        - exists sum. split; reflexivity.
        - destruct (superpose_in a kernel sum (s_t st + Tref_ind m + 1) log)
            as [sum' Hsum']; [lia|lia|].
          exists sum'. split; [exact Hsum'|].
          apply superpose_ok in Hsum'. tauto. }
      destruct (Hsup a_eta_sum (s_eta_sum st) (p_eta m) Pe He) as [eta' [Ee Hle]].
      destruct (Hsup a_gamma_sum (s_gamma_sum st) (p_gamma m) Pg Hg) as [gam' [Eg Hlg]].
      rewrite Ee, Eg.
      apply IH; cbn [s_t s_V s_spks s_eta_sum s_gamma_sum]; auto; lia.
    + apply IH; cbn [s_t s_V s_spks s_eta_sum s_gamma_sum]; auto; lia.
Qed.

Lemma simulate_returns (m : GIF) (mem : memory) (rnd : nat -> R)
    (I : list R) (fuel : nat) (V0 : R) :
  0 < dt m -> 0 <= Tref m ->
  padding_covers (Tref_ind m) (p_eta m) ->
  padding_covers (Tref_ind m) (p_gamma m) ->
  I <> [] -> (length I <= fuel)%nat ->
  exists res, simulate m mem rnd I fuel V0 = Ok res.
Proof.
  intros Hdt Hr Pe Pg Hne Hfuel.
  assert (HT : (0 < length I)%nat) by (destruct I; [congruence|cbn; lia]).
  unfold simulate, setitem. rewrite length_zeros.
  destruct (0 <? length I)%nat eqn:E; [|apply Nat.ltb_ge in E; lia].
  unfold obind at 1.
  destruct (simulate_loop_returns m mem rnd I (Tref_ind_nonneg m Hdt Hr) Pe Pg fuel
              {| s_t := 0; s_V := upd (zeros (length I)) 0 V0;
                 s_spks := zeros (length I);
                 s_eta_sum := zeros (length I + 2 * length (p_eta m));
                 s_gamma_sum := zeros (length I + 2 * length (p_gamma m));
                 s_draws := 0 |} []) as [st' Hrun];
    cbn [s_t s_V s_spks s_eta_sum s_gamma_sum];
    rewrite ?length_upd, ?length_zeros; try lia.
  rewrite Hrun. cbn [obind]. eexists. reflexivity.
Qed.

(** With [lambda0 = 0] every iteration is a plain forward-Euler step. *)
Lemma simulate_loop_passive (m : GIF) (mem : memory) (rnd : nat -> R)
    (I : list R) :
  lambda0 m = 0 -> (forall k, rnd k <= 1) ->
  forall fuel st log,
    (0 <= s_t st)%Z ->
    (Z.of_nat (length I) - 1 - s_t st <= Z.of_nat fuel)%Z ->
    length (s_V st) = length I ->
    (length I <= length (s_eta_sum st))%nat ->
    (length I <= length (s_gamma_sum st))%nat ->
    (forall k, (Z.of_nat k < s_t st)%Z -> (S k < length I)%nat ->
               nth (S k) (s_V st) 0
               = integrate m (nth k (s_V st) 0) (nth k I 0) (nth k (s_eta_sum st) 0)) ->
    exists st',
      simulate_loop m mem rnd I fuel st log = Ok (st', log)
      /\ s_eta_sum st' = s_eta_sum st
      /\ s_gamma_sum st' = s_gamma_sum st
      /\ forall k, (S k < length I)%nat ->
                   nth (S k) (s_V st') 0
                   = integrate m (nth k (s_V st') 0) (nth k I 0)
                               (nth k (s_eta_sum st) 0).
Proof.
  intros H0 Hr. induction fuel as [|fuel IH]; intros st log Ht Hfuel HV He Hg Hrec.
  - exists st. cbn [simulate_loop]. unfold T_ind.
    replace (s_t st <? Z.of_nat (length I) - 1)%Z with false
      by (symmetry; apply Z.ltb_ge; lia).
    cbn [negb]. repeat split; auto. intros k Hk. apply Hrec; lia.
  - cbn [simulate_loop]. unfold T_ind.
    destruct (s_t st <? Z.of_nat (length I) - 1)%Z eqn:Hc; cbn [negb].
    2:{ apply Z.ltb_ge in Hc. exists st. repeat split; auto.
        intros k Hk. apply Hrec; lia. }
    apply Z.ltb_lt in Hc. unfold bind.
    rewrite (load_dbl_val mem a_V _ _ _ log (aget_nth (s_V st) (s_t st) 0 ltac:(lia))).
    rewrite (load_dbl_val mem a_I _ _ _ log (aget_nth I (s_t st) 0 ltac:(lia))).
    rewrite (load_dbl_val mem a_eta_sum _ _ _ log
               (aget_nth (s_eta_sum st) (s_t st) 0 ltac:(lia))).
    rewrite store_in by lia.
    set (V1 := upd (s_V st) (Z.to_nat (s_t st + 1)) _).
    assert (HV1 : length V1 = length I) by (unfold V1; now rewrite length_upd).
    rewrite (load_dbl_val mem a_V _ _ _ log (aget_nth V1 (s_t st + 1) 0 ltac:(lia))).
    rewrite (load_dbl_val mem a_gamma_sum _ _ _ log
               (aget_nth (s_gamma_sum st) (s_t st) 0 ltac:(lia))).
    destruct (Rgt_dec _ _) as [Hsp|_].
    { exfalso. revert Hsp. apply no_spike_without_intensity; auto. }
    apply (IH {| s_t := s_t st + 1; s_V := V1; s_spks := s_spks st;
                 s_eta_sum := s_eta_sum st; s_gamma_sum := s_gamma_sum st;
                 s_draws := S (s_draws st) |} log);
      cbn [s_t s_V s_eta_sum s_gamma_sum]; auto; try lia.
    intros k Hk Hlt. unfold V1. rewrite !nth_upd.
    replace (Z.to_nat (s_t st + 1) <? length (s_V st))%nat with true
      by (symmetry; apply Nat.ltb_lt; lia).
    rewrite !andb_true_r.
    destruct (Nat.eq_dec k (Z.to_nat (s_t st))) as [->|Hne].
    + replace (Z.to_nat (s_t st + 1)) with (S (Z.to_nat (s_t st))) by lia.
      rewrite Nat.eqb_refl.
      replace (Z.to_nat (s_t st) =? S (Z.to_nat (s_t st)))%nat with false
        by (symmetry; apply Nat.eqb_neq; lia).
      reflexivity.
    + replace (S k =? Z.to_nat (s_t st + 1))%nat with false
        by (symmetry; apply Nat.eqb_neq; lia).
      replace (k =? Z.to_nat (s_t st + 1))%nat with false
        by (symmetry; apply Nat.eqb_neq; lia).
      apply Hrec; lia.
Qed.

Lemma firstn_zeros (n k : nat) : firstn n (zeros (n + k)) = zeros n.
Proof.
  unfold zeros. induction n as [|n IH]; [reflexivity|].
  cbn [Nat.add repeat firstn]. now rewrite IH.
Qed.

Lemma simulate_passive (m : GIF) (mem : memory) (rnd : nat -> R) (I : list R)
    (fuel : nat) (V0 : R) :
  lambda0 m = 0 -> I <> [] -> (forall k, rnd k <= 1) ->
  (length I <= fuel)%nat ->
  exists res,
    simulate m mem rnd I fuel V0 = Ok res
    /\ r_spks res = [] /\ r_faults res = []
    /\ length (r_V res) = length I
    /\ nth 0 (r_V res) 0 = V0
    /\ (forall k, (S k < length I)%nat ->
                  nth (S k) (r_V res) 0
                  = integrate m (nth k (r_V res) 0) (nth k I 0) 0)
    /\ r_eta_sum res = zeros (length I)
    /\ r_V_T res = repeat (Vt_star m) (length I).
Proof.
  intros H0 Hne Hr Hfuel.
  assert (HT : (0 < length I)%nat) by (destruct I; [congruence|cbn; lia]).
  destruct (simulate_silent m mem rnd I fuel V0 H0 Hne Hr Hfuel)
    as [res [Hres [Hsp [Hfl [Hlen Hz0]]]]].
  exists res. split; [exact Hres|].
  split; [exact Hsp|]. split; [exact Hfl|]. split; [exact Hlen|].
  clear Hsp Hfl Hlen.
  unfold simulate, setitem in Hres. rewrite length_zeros in Hres.
  destruct (0 <? length I)%nat eqn:E; [|apply Nat.ltb_ge in E; lia].
  unfold obind at 1 in Hres.
  destruct (simulate_loop_passive m mem rnd I H0 Hr fuel
              {| s_t := 0; s_V := upd (zeros (length I)) 0 V0;
                 s_spks := zeros (length I);
                 s_eta_sum := zeros (length I + 2 * length (p_eta m));
                 s_gamma_sum := zeros (length I + 2 * length (p_gamma m));
                 s_draws := 0 |} []) as [st' [Hrun [Heta [Hgam Hrec]]]].
  { cbn [s_t]. lia. }
  { cbn [s_t]. lia. }
  { cbn [s_V]. now rewrite length_upd, length_zeros. }
  { cbn [s_eta_sum]. rewrite length_zeros. lia. }
  { cbn [s_gamma_sum]. rewrite length_zeros. lia. }
  { cbn [s_t]. intros k Hk. lia. }
  rewrite Hrun in Hres. cbn [obind] in Hres. inversion Hres; subst res.
  cbn [r_V r_eta_sum r_V_T] in *.
  cbn [s_eta_sum s_gamma_sum] in Heta, Hgam, Hrec. rewrite Heta, Hgam, !firstn_zeros.
  split; [|split; [|split]].
  - destruct (s_V st') as [|v tl]; [discriminate|]. cbn in Hz0 |- *. congruence.
  - intros k Hk. rewrite (Hrec k Hk), nth_zeros. reflexivity.
  - reflexivity.
  - unfold zeros. rewrite map_repeat. f_equal. ring.
Qed.

Lemma integrate_rest (m : GIF) :
  narrowed (El m) = El m -> integrate m (El m) 0 0 = El m.
Proof. intros H. unfold integrate. rewrite H. unfold Rdiv. ring. Qed.

Lemma euler_rest (m : GIF) (V : list R) (n : nat) :
  narrowed (El m) = El m ->
  nth 0 V 0 = El m ->
  (forall k, (S k < n)%nat ->
             nth (S k) V 0 = integrate m (nth k V 0) (nth k (zeros n) 0) 0) ->
  forall k, (k < n)%nat -> nth k V 0 = El m.
Proof.
  intros HEl H0 Hrec. induction k as [|k IH]; intros Hk; [exact H0|].
  rewrite (Hrec k Hk), nth_zeros, IH by lia. now apply integrate_rest.
Qed.

Lemma Tref_ind_padded_model : Tref_ind padded_model = 4%Z.
Proof.
  unfold Tref_ind. cbn [Tref dt padded_model GIF_init].
  rewrite narrowed_4, narrowed_1.
  replace (4 / 1) with 4 by field. rewrite float_4.
  apply trunc_IZR. lia.
Qed.

Lemma padded_model_covers :
  padding_covers (Tref_ind padded_model) (p_eta padded_model)
  /\ padding_covers (Tref_ind padded_model) (p_gamma padded_model).
Proof.
  rewrite Tref_ind_padded_model. split; right; cbn; lia.
Qed.

Lemma padded_model_runs (rnd : nat -> R) (V0 : R) :
  exists res,
    simulate padded_model quiet_memory rnd [200; 0; 0; 0; 0; 0; 0; 0] 8 V0 = Ok res.
Proof.
  apply simulate_returns.
  - cbn. lra.
  - cbn. lra.
  - apply padded_model_covers.
  - apply padded_model_covers.
  - discriminate.
  - cbn. lia.
Qed.

(** X1. Every call of [simulate] that returns, at a positive time step
    and a non-negative refractory period, returns a time axis, a voltage,
    an adaptation current and a threshold of the length of the input
    current; the voltage starts at [V0]; no array was read out of
    bounds. *)
Theorem simulate_result_shape (m : GIF) (mem : memory) (rnd : nat -> R)
    (I : list R) (fuel : nat) (V0 : R) (res : sim_result) :
  0 < dt m -> 0 <= Tref m ->
  simulate m mem rnd I fuel V0 = Ok res ->
  length (r_time res) = length I
  /\ length (r_V res) = length I
  /\ length (r_eta_sum res) = length I
  /\ length (r_V_T res) = length I
  /\ nth_error (r_V res) 0 = Some V0
  /\ r_faults res = [].
Proof. apply simulate_shape. Qed.

Lemma simulate_result_shape_witness :
  exists res,
    simulate padded_model quiet_memory (fun _ => 1 / 2)
             [200; 0; 0; 0; 0; 0; 0; 0] 8 (-65) = Ok res
    /\ length (r_time res) = 8%nat
    /\ length (r_V res) = 8%nat
    /\ length (r_eta_sum res) = 8%nat
    /\ length (r_V_T res) = 8%nat
    /\ nth_error (r_V res) 0 = Some (-65)
    /\ r_faults res = [].
Proof.
  destruct (padded_model_runs (fun _ => 1 / 2) (-65)) as [res H].
  exists res. split; [exact H|].
  apply (simulate_result_shape padded_model quiet_memory (fun _ => 1 / 2)
           [200; 0; 0; 0; 0; 0; 0; 0] 8 (-65) res).
  - cbn. lra.
  - cbn. lra.
  - exact H.
Defined.

(** X2. The spike times returned by [simulate] lie between [dt] and
    [(len(I) - 2) * dt]: neither the first nor the last sample carries a
    spike. Two different spike times are at least [Tref_ind + 1] samples
    apart, where [Tref_ind = int(float(Tref)/float(dt))] is the
    refractory offset of the loop, computed in single precision. *)
Theorem simulate_spikes_refractory (m : GIF) (mem : memory) (rnd : nat -> R)
    (I : list R) (fuel : nat) (V0 : R) (res : sim_result) :
  0 < dt m -> 0 <= Tref m ->
  simulate m mem rnd I fuel V0 = Ok res ->
  (forall s, In s (r_spks res) -> dt m <= s <= (INR (length I) - 2) * dt m)
  /\ (forall s s', In s (r_spks res) -> In s' (r_spks res) -> s < s' ->
                   (IZR (Tref_ind m) + 1) * dt m <= s' - s).
Proof. apply simulate_spike_times. Qed.

Lemma simulate_spikes_refractory_witness :
  exists res,
    simulate padded_model quiet_memory (fun _ => 1 / 2)
             [200; 0; 0; 0; 0; 0; 0; 0] 8 (-65) = Ok res
    /\ (forall s, In s (r_spks res) -> 1 <= s <= (INR 8 - 2) * 1)
    /\ (forall s s', In s (r_spks res) -> In s' (r_spks res) -> s < s' ->
                     (IZR (Tref_ind padded_model) + 1) * 1 <= s' - s).
Proof.
  destruct (padded_model_runs (fun _ => 1 / 2) (-65)) as [res H].
  exists res. split; [exact H|].
  apply (simulate_spikes_refractory padded_model quiet_memory (fun _ => 1 / 2)
           [200; 0; 0; 0; 0; 0; 0; 0] 8 (-65) res).
  - cbn. lra.
  - cbn. lra.
  - exact H.
Defined.

(** X3. When each kernel is empty or the refractory period spans at most
    one sample more than the kernel, [simulate] returns on every
    non-empty input current and for every sequence of draws: no spike
    writes past the end of an accumulator, and the loop ends within
    [len(I)] iterations. *)
Theorem simulate_returns_when_padded (m : GIF) (mem : memory) (rnd : nat -> R)
    (I : list R) (fuel : nat) (V0 : R) :
  0 < dt m -> 0 <= Tref m ->
  padding_covers (Tref_ind m) (p_eta m) ->
  padding_covers (Tref_ind m) (p_gamma m) ->
  I <> [] -> (length I <= fuel)%nat ->
  exists res, simulate m mem rnd I fuel V0 = Ok res /\ r_faults res = [].
Proof.
  intros Hdt Hr Pe Pg Hne Hfuel.
  destruct (simulate_returns m mem rnd I fuel V0 Hdt Hr Pe Pg Hne Hfuel) as [res H].
  exists res. split; [exact H|].
  apply (simulate_shape m mem rnd I fuel V0 res Hdt Hr H).
Qed.

Lemma simulate_returns_when_padded_witness :
  exists res,
    simulate padded_model quiet_memory (fun _ => 1 / 2)
             [200; 0; 0; 0; 0; 0; 0; 0] 8 (-65) = Ok res
    /\ r_faults res = [].
Proof.
  apply (simulate_returns_when_padded padded_model quiet_memory (fun _ => 1 / 2)
           [200; 0; 0; 0; 0; 0; 0; 0] 8 (-65)).
  - cbn. lra.
  - cbn. lra.
  - apply padded_model_covers.
  - apply padded_model_covers.
  - discriminate.
  - cbn. lia.
Defined.

(** X4. With [lambda0 = 0] the voltage returned by [simulate] is the
    forward-Euler solution of the passive membrane equation from [V0]:
    [V[t+1] = V[t] + dt/C*(-gl*(V[t] - El) + I[t])], on the
    single-precision copies of [dt], [C], [gl] and [El] that the loop
    holds and with the quotient [dt/C] in single precision; the
    adaptation current is zero and the threshold is [Vt_star] at every
    sample. *)
Theorem simulate_passive_membrane (m : GIF) (mem : memory) (rnd : nat -> R)
    (I : list R) (fuel : nat) (V0 : R) :
  lambda0 m = 0 -> I <> [] -> (forall k, rnd k <= 1) ->
  (length I <= fuel)%nat ->
  exists res,
    simulate m mem rnd I fuel V0 = Ok res
    /\ length (r_V res) = length I
    /\ nth 0 (r_V res) 0 = V0
    /\ (forall k, (S k < length I)%nat ->
                  nth (S k) (r_V res) 0
                  = nth k (r_V res) 0
                    + float (narrowed (dt m) / narrowed (C m))
                      * (- narrowed (gl m) * (nth k (r_V res) 0 - narrowed (El m))
                         + nth k I 0))
    /\ r_eta_sum res = zeros (length I)
    /\ r_V_T res = repeat (Vt_star m) (length I).
Proof.
  intros H0 Hne Hr Hfuel.
  destruct (simulate_passive m mem rnd I fuel V0 H0 Hne Hr Hfuel)
    as [res [H [_ [_ [Hl [Hz [Hrec [He Ht]]]]]]]].
  exists res. repeat split; auto.
  intros k Hk. rewrite (Hrec k Hk). unfold integrate. ring.
Qed.

Lemma simulate_passive_membrane_witness :
  exists res,
    simulate (set_lambda0 padded_model 0) quiet_memory (fun _ => 1 / 2)
             [1; 2; 3] 3 (-65) = Ok res
    /\ length (r_V res) = 3%nat
    /\ nth 0 (r_V res) 0 = -65
    /\ (forall k, (S k < 3)%nat ->
                  nth (S k) (r_V res) 0
                  = nth k (r_V res) 0
                    + float (narrowed 1 / narrowed (20 * (1 / 100)))
                      * (- narrowed (1 / 100) * (nth k (r_V res) 0 - narrowed (-65))
                         + nth k [1; 2; 3] 0))
    /\ r_eta_sum res = zeros 3
    /\ r_V_T res = repeat (-48) 3.
Proof.
  apply (simulate_passive_membrane (set_lambda0 padded_model 0) quiet_memory
           (fun _ => 1 / 2) [1; 2; 3] 3 (-65)).
  - reflexivity.
  - discriminate.
  - intros _. lra.
  - cbn. lia.
Defined.

(** X5. [simulateVoltageResponse] on a current that is zero throughout,
    with [lambda0 = 0] and a resting potential [El] that single
    precision represents exactly (the loop holds [El] in a [float]):
    the model is left at the time step [dt0], there is no spike, the
    voltage rests at [El] and the threshold at [Vt_star] on every
    sample. *)
Theorem voltage_response_rests_at_El (m : GIF) (mem : memory) (rnd : nat -> R)
    (fuel n : nat) (dt0 : R) :
  lambda0 m = 0 -> narrowed (El m) = El m ->
  (forall k, rnd k <= 1) -> (0 < n)%nat -> (n <= fuel)%nat ->
  simulateVoltageResponse m mem rnd fuel (zeros n) dt0
  = (setDt m dt0, Ok ([], repeat (El m) n, repeat (Vt_star m) n, [])).
Proof.
  intros H0 HEl Hr Hn Hfuel. unfold simulateVoltageResponse.
  destruct (simulate_passive (setDt m dt0) mem rnd (zeros n) fuel (El (setDt m dt0)))
    as [res [H [Hs [Hf [Hl [Hz [Hrec [_ Ht]]]]]]]].
  - exact H0.
  - destruct n; [lia|discriminate].
  - exact Hr.
  - now rewrite length_zeros.
  - rewrite length_zeros in Hl, Hrec, Ht. rewrite H. cbn [obind].
    rewrite Hs, Hf, Ht.
    replace (r_V res) with (repeat (El m) n); [reflexivity|].
    symmetry. apply (nth_ext _ _ 0 0).
    + now rewrite repeat_length.
    + intros k Hk. rewrite Hl in Hk. rewrite nth_repeat_lt by exact Hk.
      apply (euler_rest (setDt m dt0) (r_V res) n HEl Hz Hrec k Hk).
Qed.

Lemma voltage_response_rests_at_El_witness :
  simulateVoltageResponse (set_lambda0 padded_model 0) quiet_memory
    (fun _ => 1 / 2) 3 (zeros 3) (1 / 10)
  = (setDt (set_lambda0 padded_model 0) (1 / 10),
     Ok ([], repeat (-65) 3, repeat (-48) 3, [])).
Proof.
  apply (voltage_response_rests_at_El (set_lambda0 padded_model 0) quiet_memory
           (fun _ => 1 / 2) 3 3 (1 / 10)).
  - reflexivity.
  - exact narrowed_m65.
  - intros _. lra.
  - lia.
  - lia.
Defined.

(** X6. [simulateSpikingResponse] leaves the model at the time step
    [dt0], and the spike times it returns are measured on that time
    step: they lie between [dt0] and [(len(I) - 2) * dt0], and two
    different spike times are at least [Tref_ind + 1] samples of [dt0]
    apart, with the refractory offset
    [Tref_ind = int(float(Tref)/float(dt0))] of the loop. *)
Theorem spiking_response_refractory (m : GIF) (mem : memory) (rnd : nat -> R)
    (fuel : nat) (I : list R) (dt0 : R) (spks : list R) (log : list fault) :
  0 < dt0 -> 0 <= Tref m ->
  snd (simulateSpikingResponse m mem rnd fuel I dt0) = Ok (spks, log) ->
  dt (fst (simulateSpikingResponse m mem rnd fuel I dt0)) = dt0
  /\ log = []
  /\ (forall s, In s spks -> dt0 <= s <= (INR (length I) - 2) * dt0)
  /\ (forall s s', In s spks -> In s' spks -> s < s' ->
                   (IZR (Tref_ind (setDt m dt0)) + 1) * dt0 <= s' - s).
Proof.
  intros Hdt Hr H. unfold simulateSpikingResponse in *. cbn [fst snd] in *.
  split; [reflexivity|].
  destruct (simulate (setDt m dt0) mem rnd I fuel (El (setDt m dt0)))
    as [res|e] eqn:E; [|discriminate].
  cbn [obind] in H. inversion H; subst.
  split.
  - apply (simulate_shape (setDt m dt0) mem rnd I fuel _ res Hdt Hr E).
  - exact (simulate_spike_times (setDt m dt0) mem rnd I fuel _ res Hdt Hr E).
Qed.

Lemma spiking_response_refractory_witness :
  exists spks log,
    snd (simulateSpikingResponse padded_model quiet_memory (fun _ => 1 / 2) 8
           [200; 0; 0; 0; 0; 0; 0; 0] 1) = Ok (spks, log)
    /\ dt (fst (simulateSpikingResponse padded_model quiet_memory (fun _ => 1 / 2) 8
                  [200; 0; 0; 0; 0; 0; 0; 0] 1)) = 1
    /\ log = []
    /\ (forall s, In s spks -> 1 <= s <= (INR 8 - 2) * 1)
    /\ (forall s s', In s spks -> In s' spks -> s < s' ->
                     (IZR (Tref_ind (setDt padded_model 1)) + 1) * 1 <= s' - s).
Proof.
  destruct (padded_model_runs (fun _ => 1 / 2) (-65)) as [res H].
  exists (r_spks res), (r_faults res).
  assert (E : snd (simulateSpikingResponse padded_model quiet_memory (fun _ => 1 / 2) 8
                     [200; 0; 0; 0; 0; 0; 0; 0] 1)
              = Ok (r_spks res, r_faults res)).
  { unfold simulateSpikingResponse. cbn [snd].
    change (setDt padded_model 1) with padded_model.
    change (El padded_model) with (-65). rewrite H. reflexivity. }
  split; [exact E|].
  apply (spiking_response_refractory padded_model quiet_memory (fun _ => 1 / 2) 8
           [200; 0; 0; 0; 0; 0; 0; 0] 1 (r_spks res) (r_faults res)).
  - lra.
  - cbn. lra.
  - exact E.
Defined.

(** ** Further properties of the forced-spike simulator *)

Lemma nth_add_at (arr : list R) :
  forall (lo : nat) (k : list R) (i : nat),
    (i < length arr)%nat ->
    nth i (add_at arr lo k) 0
    = nth i arr 0
      + (if ((lo <=? i) && (i <? lo + length k))%nat then nth (i - lo) k 0 else 0).
Proof.
  induction arr as [|x tl IH]; intros lo k i Hi; [cbn in Hi; lia|].
  cbn [length] in Hi. destruct lo as [|lo].
  - destruct k as [|y k].
    + cbn [add_at length]. rewrite Nat.add_0_r.
      replace ((0 <=? i) && (i <? 0))%nat with false
        by (symmetry; apply andb_false_iff; right; apply Nat.ltb_ge; lia).
      ring.
    + cbn [add_at]. destruct i as [|i].
      * cbn. ring.
      * cbn [nth]. rewrite IH by lia. cbn [length Nat.leb Nat.add Nat.sub andb].
        change (S i <? S (length k))%nat with (i <? length k)%nat.
        rewrite Nat.sub_0_r. reflexivity.
  - cbn [add_at]. destruct i as [|i].
    + cbn. ring.
    + cbn [nth]. rewrite IH by lia. reflexivity.
Qed.

Lemma nth_add_at_shifted (arr : list R) (a : Z) (k : list R) (i : nat) :
  (0 <= a)%Z -> (i < length arr)%nat ->
  nth i (add_at arr (Z.to_nat a) k) 0 = nth i arr 0 + shifted k a i.
Proof.
  intros Ha Hi. rewrite nth_add_at by exact Hi. unfold shifted.
  destruct ((Z.to_nat a <=? i) && (i <? Z.to_nat a + length k))%nat eqn:E.
  - apply andb_true_iff in E. destruct E as [E1 E2].
    apply Nat.leb_le in E1. apply Nat.ltb_lt in E2.
    replace ((a <=? Z.of_nat i) && (Z.of_nat i <? a + Z.of_nat (length k)))%Z with true.
    + replace (Z.to_nat (Z.of_nat i - a)) with (i - Z.to_nat a)%nat by lia. reflexivity.
    + symmetry. apply andb_true_iff. split; [apply Z.leb_le|apply Z.ltb_lt]; lia.
  - replace ((a <=? Z.of_nat i) && (Z.of_nat i <? a + Z.of_nat (length k)))%Z with false;
      [reflexivity|].
    symmetry. apply andb_false_iff. apply andb_false_iff in E.
    destruct E as [E|E]; [left; apply Z.leb_gt; apply Nat.leb_gt in E
                         |right; apply Z.ltb_ge; apply Nat.ltb_ge in E]; lia.
Qed.

Lemma shifted_beyond (k : list R) (a : Z) (i : nat) :
  (Z.of_nat i < a)%Z -> shifted k a i = 0.
Proof.
  intros H. unfold shifted.
  replace (a <=? Z.of_nat i)%Z with false by (symmetry; apply Z.leb_gt; lia).
  reflexivity.
Qed.

Lemma shifted_nil (a : Z) (i : nat) : shifted [] a i = 0.
Proof.
  unfold shifted. destruct (_ && _); [|reflexivity]. now destruct (Z.to_nat _).
Qed.

(** [arr[a : a + len(k)] += k] from a non-negative bound on: whenever
    numpy accepts the assignment, the kernel has been added from sample
    [a] on, cut at the end of the array. *)
Lemma slice_iadd_shifted (arr : list R) (a : Z) (k arr' : list R) :
  (0 <= a)%Z ->
  slice_iadd arr a (a + Z.of_nat (length k)) k = Ok arr' ->
  length arr' = length arr
  /\ forall i, (i < length arr)%nat -> nth i arr' 0 = nth i arr 0 + shifted k a i.
Proof.
  intros Ha H. unfold slice_iadd, slice_bound in H.
  replace (a <? 0)%Z with false in H by (symmetry; apply Z.ltb_ge; lia).
  replace (a + Z.of_nat (length k) <? 0)%Z with false in H
    by (symmetry; apply Z.ltb_ge; lia).
  set (n := Z.of_nat (length arr)) in *.
  destruct (length k =? Z.to_nat (Z.min (a + Z.of_nat (length k)) n - Z.min a n))%nat
    eqn:E.
  - apply Nat.eqb_eq in E. inversion H; subst arr'. clear H.
    split; [apply length_add_at|]. intros i Hi.
    destruct (Z_le_gt_dec a n) as [Hin|Hout].
    + replace (Z.min a n) with a by lia. now apply nth_add_at_shifted.
    + assert (Hk : k = []).
      { destruct k; [reflexivity|]. cbn [length] in E. lia. }
      subst k. rewrite nth_add_at by exact Hi. cbn [length].
      rewrite Nat.add_0_r, shifted_nil.
      replace ((Z.to_nat (Z.min a n) <=? i) && (i <? Z.to_nat (Z.min a n)))%nat
        with false; [reflexivity|].
      symmetry. apply andb_false_iff.
      destruct (Nat.le_gt_cases (Z.to_nat (Z.min a n)) i);
        [right; apply Nat.ltb_ge|left; apply Nat.leb_gt]; lia.
  - destruct k as [|y [|y' k]]; try discriminate.
    apply Nat.eqb_neq in E. cbn [length] in E, H.
    assert (Hout : (n <= a)%Z) by (unfold n in *; lia).
    replace (Z.to_nat (Z.min (a + Z.of_nat 1) n - Z.min a n)) with 0%nat in H
      by (unfold n in *; lia).
    cbn [repeat] in H. inversion H; subst arr'. clear H.
    split; [apply length_add_at|]. intros i Hi.
    rewrite nth_add_at by exact Hi. cbn [length].
    rewrite Nat.add_0_r, shifted_beyond by (unfold n in *; lia).
    replace ((Z.to_nat (Z.min a n) <=? i) && (i <? Z.to_nat (Z.min a n)))%nat
      with false; [reflexivity|].
    symmetry. apply andb_false_iff.
    destruct (Nat.le_gt_cases (Z.to_nat (Z.min a n)) i);
      [right; apply Nat.ltb_ge|left; apply Nat.leb_gt]; lia.
Qed.

Lemma force_eta_sum_superposition (Tref_i : Z) (k : list R) (spks_i : list Z) :
  (0 <= Tref_i)%Z -> Forall (fun s => (0 <= s)%Z) spks_i ->
  forall arr es,
    force_eta_sum arr Tref_i k spks_i = Ok es ->
    length es = length arr
    /\ forall i, (i < length arr)%nat ->
                 nth i es 0
                 = nth i arr 0
                   + superposition k (map (fun s => (s + 1 + Tref_i)%Z) spks_i) i.
Proof.
  intros Hr Hall. induction Hall as [|s rest Hs Hrest IH]; intros arr es H.
  - cbn [force_eta_sum] in H. inversion H; subst. split; [reflexivity|].
    intros i _. cbn. ring.
  - cbn [force_eta_sum] in H.
    destruct (slice_iadd arr _ _ k) as [arr1|e] eqn:E; [|discriminate].
    cbn [obind] in H. apply slice_iadd_shifted in E; [|lia].
    destruct E as [Hl1 Hn1]. destruct (IH arr1 es H) as [Hl Hn].
    split; [congruence|]. intros i Hi.
    rewrite Hn by (rewrite Hl1; exact Hi). rewrite Hn1 by exact Hi.
    unfold superposition. cbn [map fold_right]. ring.
Qed.

Lemma forced_eta_sum_run (m : GIF) (mem : memory) (fuel : nat)
    (I : list R) (V0 : R) (spks : list R) (res : force_result) :
  0 < dt m -> 0 <= Tref m -> Forall (fun s => 0 <= s) spks ->
  simulateDeterministic_forceSpikes m mem fuel I V0 spks = Ok res ->
  length (fr_eta_sum res) = length I
  /\ forall i, (i < length I)%nat ->
               nth i (fr_eta_sum res) 0
               = superposition (p_eta m)
                   (map (fun s => (s + 1 + p_Tref_i m)%Z) (timeToIndex spks (dt m))) i.
Proof.
  intros Hdt Hr Hall H.
  assert (Hri : (0 <= p_Tref_i m)%Z) by now apply p_Tref_i_nonneg.
  assert (Hidx : Forall (fun s => (0 <= s)%Z) (timeToIndex spks (dt m))).
  { unfold timeToIndex. apply Forall_map.
    eapply Forall_impl; [|exact Hall]. intros s Hs.
    apply np_round_nonneg, Rdiv_nonneg; assumption. }
  unfold simulateDeterministic_forceSpikes in H.
  set (l := length (p_eta m)) in *.
  set (x := INR (length I) + 11 / 10 * INR l + IZR (p_Tref_i m)) in *.
  assert (Hx : (Z.of_nat (length I) + Z.of_nat l + p_Tref_i m <= trunc x)%Z).
  { apply trunc_lower; [lia|]. unfold x.
    rewrite !plus_IZR, <- !INR_IZR_INZ.
    pose proof (pos_INR l). lra. }
  unfold zeros_of_float in H.
  destruct (trunc x <? 0)%Z; [discriminate|].
  cbn [obind] in H.
  destruct (force_eta_sum _ _ _ _) as [es|e] eqn:Ees; [|discriminate].
  cbn [obind] in H.
  destruct (setitem _ _ _) as [V|e]; [|discriminate]. cbn [obind] in H.
  destruct (force_code _ _ _ _ _ _ _ _) as [[st log]|e]; [|discriminate].
  cbn [obind] in H. inversion H; subst res. clear H. cbn [fr_eta_sum].
  destruct (force_eta_sum_superposition (p_Tref_i m) (p_eta m) _ Hri Hidx _ _ Ees)
    as [Hlen Hnth].
  rewrite length_zeros in Hlen, Hnth.
  split.
  - rewrite !length_firstn. lia.
  - intros i Hi. rewrite !nth_firstn.
    destruct (i <? length I)%nat eqn:E1; [|apply Nat.ltb_ge in E1; lia].
    rewrite Hnth by lia. rewrite nth_zeros. ring.
Qed.

(** A single forced spike whose reset falls on sample 0: the inlined code
    stores to [V[-1]]. *)
Lemma forced_reset_at_first_sample (m : GIF) (mem : memory) (fuel : nat)
    (I : list R) (V0 t_spk : R) :
  0 < dt m -> 0 <= Tref m -> 0 <= t_spk ->
  (np_round (t_spk / dt m) + Tref_ind m = 0)%Z ->
  (2 <= length I)%nat -> (1 <= fuel)%nat ->
  simulateDeterministic_forceSpikes m mem fuel I V0 [t_spk]
  = Raise (BufferOverrun a_V (-1)).
Proof.
  intros Hdt HTref Hspk Hidx HT Hfuel.
  set (s := np_round (t_spk / dt m)) in *.
  assert (Hs : (0 <= s)%Z) by (apply np_round_nonneg, Rdiv_nonneg; assumption).
  assert (Hr : (0 <= Tref_ind m)%Z) by now apply Tref_ind_nonneg.
  assert (Hp : (0 <= p_Tref_i m)%Z) by now apply p_Tref_i_nonneg.
  destruct (force_eta_sum_single m (length I) s (p_Tref_i m) Hp)
    as [es [Hes [Hlen _]]]; [lia|].
  unfold simulateDeterministic_forceSpikes.
  cbn [timeToIndex map]. fold s.
  destruct (zeros_of_float _) as [z|e]; [|discriminate Hes].
  cbn [obind] in Hes |- *. rewrite Hes. cbn [obind].
  unfold setitem. rewrite length_zeros.
  destruct (0 <? length I)%nat eqn:E; [|apply Nat.ltb_ge in E; lia].
  cbn [obind].
  destruct fuel as [|fuel]; [lia|].
  unfold force_code, bind.
  change (load_int mem a_spks_i [s] 0 []) with (Ok (s, @nil fault)).
  cbv beta match. rewrite Hidx. cbn [force_loop f_t f_V f_next_spike f_spks_cnt].
  replace (0 <? Z.of_nat (length I) - 1)%Z with true
    by (symmetry; apply Z.ltb_lt; lia).
  cbn [negb]. unfold bind.
  set (Vi := upd (zeros (length I)) 0 V0).
  assert (HVi : length Vi = length I) by (unfold Vi; now rewrite length_upd, length_zeros).
  rewrite (load_dbl_val mem a_V _ _ _ [] (aget_nth Vi 0 0 ltac:(lia))).
  rewrite (load_dbl_val mem a_I _ _ _ [] (aget_nth I 0 0 ltac:(lia))).
  rewrite (load_dbl_val mem a_eta_sum _ _ _ []
             (aget_nth (firstn (length I) es) 0 0
                ltac:(rewrite length_firstn; lia))).
  rewrite store_in by lia.
  cbn [Z.eqb].
  destruct (load_int mem a_spks_i [s] (0 + 1) []) as [[s1 l1]|e] eqn:El.
  - unfold store.
    replace (in_bounds _ (0 - 1)) with false; [reflexivity|].
    symmetry. apply in_bounds_false. lia.
  - unfold load_int in El. destruct (aget [s] (0 + 1)); discriminate.
Qed.

(** A single forced spike away from the first sample: the sample before
    the reset holds 0 when the loop has ended. *)
Lemma force_code_single_before_reset (m : GIF) (mem : memory) (I eta_sum : list R)
    (s : Z) (fuel : nat) (V : list R) (log : list fault) :
  let T := Z.of_nat (length I) in
  let idx := (s + Tref_ind m)%Z in
  let g := (stray_int mem a_spks_i 1 + Tref_ind m)%Z in
  (1 <= idx < T - 1)%Z -> (g < idx \/ T - 1 <= g)%Z ->
  length V = length I -> (length I <= length eta_sum)%nat ->
  (length I <= fuel)%nat ->
  exists st',
    force_code m mem I [s] eta_sum fuel V log
    = Ok (st', StrayRead a_spks_i 1 :: log)
    /\ nth_error (f_V st') (Z.to_nat (idx - 1)) = Some 0.
Proof.
  intros T idx g Hidx Hg HV He Hfuel.
  unfold force_code, bind.
  change (load_int mem a_spks_i [s] 0 log) with (Ok (s, log)).
  fold idx.
  assert (Hsplit : exists f3, fuel = (Z.to_nat idx + S (S f3))%nat
                              /\ (T - 1 - (idx + 1) <= Z.of_nat f3)%Z).
  { exists (fuel - Z.to_nat idx - 2)%nat. unfold T in *. split; lia. }
  destruct Hsplit as [f3 [-> Hf3]].
  destruct (force_loop_approach m mem I [s] eta_sum (Z.to_nat idx) (S (S f3))
              {| f_t := 0; f_V := V; f_spks_cnt := 0; f_next_spike := idx |} log)
    as [V' [HV' Hrun]]; cbn [f_t f_V f_next_spike]; auto; try (unfold T in *; lia).
  cbn [f_spks_cnt f_next_spike] in Hrun. fold idx. rewrite Hrun.
  rewrite force_loop_reset; cbn [f_t f_V f_next_spike f_spks_cnt]; auto;
    try (unfold T in *; lia).
  unfold bind. rewrite load_int_out by (simpl; lia).
  change (0 + 1)%Z with 1%Z. fold g. replace (idx - 1 + 1)%Z with idx by lia.
  set (V3 := upd (upd (next_voltages m I eta_sum V' idx) (Z.to_nat (idx - 1)) 0)
                 (Z.to_nat idx) (narrowed (Vr m))).
  assert (HV3 : length V3 = length I).
  { unfold V3. now rewrite !length_upd, length_next_V. }
  rewrite force_loop_plain; cbn [f_t f_V f_next_spike f_spks_cnt]; auto;
    try (unfold T in *; lia).
  destruct (force_loop_quiet m mem I [s] eta_sum f3
              {| f_t := idx + 1; f_V := next_voltages m I eta_sum V3 idx;
                 f_spks_cnt := 1; f_next_spike := g |}
              (StrayRead a_spks_i 1 :: log))
    as [st' [Hq [Hl Hk]]]; cbn [f_t f_V f_next_spike];
    try rewrite length_next_V; auto; try (unfold T in *; lia).
  exists st'. split; [exact Hq|].
  cbn [f_t f_V] in Hk. rewrite Hk by lia. unfold next_voltages.
  rewrite nth_error_upd_ne by lia. unfold V3.
  rewrite nth_error_upd_ne by lia.
  apply nth_error_upd_eq. rewrite length_next_V, HV'. unfold T in *. lia.
Qed.

Lemma forced_single_spike_before_reset (m : GIF) (mem : memory) (fuel : nat)
    (I : list R) (V0 t_spk : R) :
  0 < dt m -> 0 <= Tref m -> 0 <= t_spk ->
  let idx := (np_round (t_spk / dt m) + Tref_ind m)%Z in
  let g := (stray_int mem a_spks_i 1 + Tref_ind m)%Z in
  (1 <= idx < Z.of_nat (length I) - 1)%Z ->
  (g < idx \/ Z.of_nat (length I) - 1 <= g)%Z ->
  (length I <= fuel)%nat ->
  exists res,
    simulateDeterministic_forceSpikes m mem fuel I V0 [t_spk] = Ok res
    /\ nth_error (fr_V res) (Z.to_nat (idx - 1)) = Some 0.
Proof.
  intros Hdt HTref Hspk idx g Hidx Hg Hfuel. subst idx g.
  set (s := np_round (t_spk / dt m)) in *.
  assert (Hs : (0 <= s)%Z) by (apply np_round_nonneg, Rdiv_nonneg; assumption).
  assert (Hr : (0 <= Tref_ind m)%Z) by now apply Tref_ind_nonneg.
  assert (Hp : (0 <= p_Tref_i m)%Z) by now apply p_Tref_i_nonneg.
  destruct (force_eta_sum_single m (length I) s (p_Tref_i m) Hp)
    as [es [Hes [Hlen Hzero]]]; [lia|].
  unfold simulateDeterministic_forceSpikes.
  cbn [timeToIndex map]. fold s.
  destruct (zeros_of_float _) as [z|e]; [|discriminate Hes].
  cbn [obind] in Hes |- *. rewrite Hes. cbn [obind].
  unfold setitem. rewrite length_zeros.
  destruct (0 <? length I)%nat eqn:E; [|apply Nat.ltb_ge in E; lia].
  cbn [obind].
  destruct (force_code_single_before_reset m mem I (firstn (length I) es) s fuel
              (upd (zeros (length I)) 0 V0) [])
    as [st' [Hrun Hzero']]; auto.
  - now rewrite length_upd, length_zeros.
  - rewrite length_firstn. lia.
  - rewrite Hrun. cbn [obind]. eexists. split; [reflexivity|]. exact Hzero'.
Qed.

Lemma coarse_early_spike_index : np_round (2 / dt coarse_model) = 0%Z.
Proof.
  cbn [dt coarse_model GIF_init]. apply np_round_near. lra.
Qed.

Lemma padded_spike_index : np_round (2 / dt padded_model) = 2%Z.
Proof.
  cbn [dt padded_model GIF_init]. apply np_round_near. lra.
Qed.

Lemma padded_forced_run :
  exists res,
    simulateDeterministic_forceSpikes padded_model quiet_memory 9
      (repeat 0 9) (-65) [2] = Ok res.
Proof.
  destruct (forced_single_spike_run padded_model quiet_memory 9 (repeat 0 9) (-65) 2)
    as [res [H _]].
  - cbn. lra.
  - cbn. lra.
  - lra.
  - rewrite padded_spike_index, Tref_ind_padded_model. cbn. lia.
  - rewrite padded_spike_index, Tref_ind_padded_model. cbn. lia.
  - cbn. lia.
  - exists res. exact H.
Qed.

(** X7. In forced-spike mode a single spike whose reset falls on the
    first sample, [round(t_spk/dt) + Tref_ind = 0] with the refractory
    offset [Tref_ind = int(float(Tref)/float(dt))] of the loop, makes
    the inlined code execute [V[t-1] = 0] at [t = 0]: a store in front
    of the voltage array, for every input current of two samples or
    more. *)
Theorem forced_reset_on_first_sample_underruns (m : GIF) (mem : memory)
    (fuel : nat) (I : list R) (V0 t_spk : R) :
  0 < dt m -> 0 <= Tref m -> 0 <= t_spk ->
  (np_round (t_spk / dt m) + Tref_ind m = 0)%Z ->
  (2 <= length I)%nat -> (1 <= fuel)%nat ->
  simulateDeterministic_forceSpikes m mem fuel I V0 [t_spk]
  = Raise (BufferOverrun a_V (-1)).
Proof. apply forced_reset_at_first_sample. Qed.

Lemma forced_reset_on_first_sample_underruns_witness :
  simulateDeterministic_forceSpikes coarse_model quiet_memory 3 [0; 0; 0] (-65) [2]
  = Raise (BufferOverrun a_V (-1)).
Proof.
  apply (forced_reset_on_first_sample_underruns coarse_model quiet_memory 3
           [0; 0; 0] (-65) 2).
  - cbn [dt coarse_model GIF_init]. lra.
  - cbn [Tref coarse_model GIF_init]. lra.
  - lra.
  - rewrite coarse_early_spike_index, coarse_Tref_ind. reflexivity.
  - cbn. lia.
  - lia.
Defined.

(** X8. In forced-spike mode the sample before the reset of a single
    spike is overwritten with 0: [V[idx-1] = 0] for
    [idx = round(t_spk/dt) + Tref_ind], with the refractory offset
    [Tref_ind = int(float(Tref)/float(dt))] of the loop in single
    precision, when that reset lies inside the trace and the stray read
    behind the spike list schedules no further reset. For [idx = 1]
    this replaces the initial condition [V[0] = V0]. *)
Theorem forced_sample_before_reset_is_zero (m : GIF) (mem : memory) (fuel : nat)
    (I : list R) (V0 t_spk : R) :
  0 < dt m -> 0 <= Tref m -> 0 <= t_spk ->
  let idx := (np_round (t_spk / dt m) + Tref_ind m)%Z in
  let g := (stray_int mem a_spks_i 1 + Tref_ind m)%Z in
  (1 <= idx < Z.of_nat (length I) - 1)%Z ->
  (g < idx \/ Z.of_nat (length I) - 1 <= g)%Z ->
  (length I <= fuel)%nat ->
  exists res,
    simulateDeterministic_forceSpikes m mem fuel I V0 [t_spk] = Ok res
    /\ nth_error (fr_V res) (Z.to_nat (idx - 1)) = Some 0.
Proof. apply forced_single_spike_before_reset. Qed.

Lemma forced_sample_before_reset_is_zero_witness :
  exists res,
    simulateDeterministic_forceSpikes coarse_model quiet_memory 13
      (repeat 0 13) (-65) [50] = Ok res
    /\ nth_error (fr_V res)
         (Z.to_nat (np_round (50 / dt coarse_model)
                    + Tref_ind coarse_model - 1))
       = Some 0.
Proof.
  apply (forced_sample_before_reset_is_zero coarse_model quiet_memory 13
           (repeat 0 13) (-65) 50).
  - cbn [dt coarse_model GIF_init]. lra.
  - cbn [Tref coarse_model GIF_init]. lra.
  - lra.
  - rewrite coarse_spike_index, coarse_Tref_ind. simpl. lia.
  - rewrite coarse_spike_index, coarse_Tref_ind. simpl. lia.
  - simpl. lia.
Defined.

(** X9. The adaptation current returned by
    [simulateDeterministic_forceSpikes], for spike times that are not
    negative, has the length of the input current and is the
    superposition of the kernel [eta] laid from sample
    [round(s/dt) + 1 + p_Tref_i] on, for every spike time [s], where
    [p_Tref_i = int(Tref/dt)] truncates the quotient of the two doubles
    as Python rounds it. *)
Theorem forced_eta_sum_is_superposition (m : GIF) (mem : memory) (fuel : nat)
    (I : list R) (V0 : R) (spks : list R) (res : force_result) :
  0 < dt m -> 0 <= Tref m -> Forall (fun s => 0 <= s) spks ->
  simulateDeterministic_forceSpikes m mem fuel I V0 spks = Ok res ->
  length (fr_eta_sum res) = length I
  /\ forall i, (i < length I)%nat ->
               nth i (fr_eta_sum res) 0
               = superposition (p_eta m)
                   (map (fun s => (s + 1 + p_Tref_i m)%Z) (timeToIndex spks (dt m))) i.
Proof. apply forced_eta_sum_run. Qed.

Lemma forced_eta_sum_is_superposition_witness :
  exists res,
    simulateDeterministic_forceSpikes padded_model quiet_memory 9
      (repeat 0 9) (-65) [2] = Ok res
    /\ length (fr_eta_sum res) = 9%nat
    /\ forall i, (i < 9)%nat ->
                 nth i (fr_eta_sum res) 0
                 = superposition (p_eta padded_model)
                     (map (fun s => (s + 1 + p_Tref_i padded_model)%Z)
                          (timeToIndex [2] (dt padded_model))) i.
Proof.
  destruct padded_forced_run as [res H].
  exists res. split; [exact H|].
  apply (forced_eta_sum_is_superposition padded_model quiet_memory 9
           (repeat 0 9) (-65) [2] res).
  - cbn. lra.
  - cbn. lra.
  - repeat constructor. lra.
  - exact H.
Defined.

(** * Further properties of the threshold fit *)

Lemma take_ok {A} (a : list A) (d : A) :
  forall sel l,
    take a sel = Ok l ->
    l = map (fun t => nth t a d) sel /\ Forall (fun t => (t < length a)%nat) sel.
Proof.
  induction sel as [|t sel IH]; intros l H; cbn [take] in H.
  - inversion H; subst. split; [reflexivity|constructor].
  - destruct (nth_error a t) as [x|] eqn:E; [|discriminate].
    destruct (take a sel) as [rest|e]; [|discriminate].
    cbn [obind] in H. inversion H; subst.
    destruct (IH rest eq_refl) as [-> Hall].
    split.
    + cbn [map]. f_equal. symmetry. now apply nth_error_nth.
    + constructor; [|exact Hall]. apply nth_error_Some. congruence.
Qed.

Lemma nth_map_lt {A B} (f : A -> B) (l : list A) (k : nat) (d : B) (d' : A) :
  (k < length l)%nat -> nth k (map f l) d = f (nth k l d').
Proof.
  intros H. rewrite (nth_indep _ d (f d')) by (now rewrite length_map).
  apply map_nth.
Qed.

Lemma where_eq_from_bound (l : list R) (x : R) :
  forall b, Forall (fun k => (k < b + length l)%nat) (where_eq_from b l x).
Proof.
  intros b. apply Forall_forall. intros k Hk.
  apply where_eq_from_In in Hk. lia.
Qed.

Lemma length_where_eq_from (l : list R) (x : R) :
  forall b, (length (where_eq_from b l x) <= length l)%nat.
Proof.
  induction l as [|y tl IH]; intros b; cbn [where_eq_from length]; [lia|].
  destruct (Req_dec_T y x); cbn [length]; specialize (IH (S b)); lia.
Qed.

Lemma fold_vadd_pairs (vs : list R) :
  forall a b,
    fold_left vadd (map (fun v => [v; 1]) vs) [a; b]
    = [a + total vs; b + INR (length vs)].
Proof.
  induction vs as [|v vs IH]; intros a b.
  - cbn [map fold_left total fold_right length INR]. now rewrite !Rplus_0_r.
  - cbn [map fold_left vadd]. rewrite IH.
    cbn [total fold_right length]. rewrite S_INR.
    replace (a + v + total vs) with (a + (v + total vs)) by ring.
    replace (b + 1 + INR (length vs)) with (b + (INR (length vs) + 1)) by ring.
    reflexivity.
Qed.

(** What [buildXmatrix_staticThreshold] returns, in terms of the selected
    samples. *)
Lemma static_design (m : GIF) (tr : Trace) (V_est : list R)
    (X X_spikes : list (list R)) (sum_X_spikes : list R) (N_spikes : nat) (T_l : R) :
  buildXmatrix_staticThreshold m tr V_est
  = Ok (X, X_spikes, sum_X_spikes, N_spikes, T_l) ->
  let selection := getROI_FarFromSpikes tr (- dt m) (Tref m) in
  exists spikes : list nat,
    X = map (fun t => [nth t V_est 0; 1]) selection
    /\ X_spikes = map (fun k => [nth (nth k selection 0%nat) V_est 0; 1]) spikes
    /\ Forall (fun k => (k < length selection)%nat
                        /\ nth (nth k selection 0%nat) (getSpikeTrain tr) 0 = 1) spikes
    /\ length spikes = N_spikes
    /\ (N_spikes <= length selection)%nat
    /\ sum_X_spikes
       = [0 + total (map (fun k => nth (nth k selection 0%nat) V_est 0) spikes);
          0 + INR N_spikes]
    /\ T_l = INR (length selection) * tr_dt tr / 1000.
Proof.
  intros H selection. unfold buildXmatrix_staticThreshold in H. fold selection in H.
  destruct (take (getSpikeTrain tr) selection) as [train_sel|e] eqn:Et; [|discriminate].
  cbn [obind] in H.
  destruct (take V_est selection) as [V_sel|e] eqn:Ev; [|discriminate].
  cbn [obind] in H.
  destruct (take (map (fun v => [v; 1]) V_sel) (where_eq train_sel 1))
    as [Xs|e] eqn:Ex; [|discriminate].
  cbn [obind] in H. inversion H; subst. clear H.
  apply (take_ok _ 0) in Et. destruct Et as [-> _].
  apply (take_ok _ 0) in Ev. destruct Ev as [-> _].
  apply (take_ok _ [0; 1]) in Ex. destruct Ex as [-> Hin].
  rewrite !length_map in Hin.
  set (train_sel := map (fun t => nth t (getSpikeTrain tr) 0) selection) in *.
  exists (where_eq train_sel 1).
  assert (Hsp : Forall (fun k => (k < length selection)%nat
                                 /\ nth (nth k selection 0%nat) (getSpikeTrain tr) 0 = 1)
                       (where_eq train_sel 1)).
  { apply Forall_forall. intros k Hk.
    apply where_eq_from_In in Hk. rewrite Nat.sub_0_r in Hk.
    destruct Hk as [_ [Hv Hl]]. unfold train_sel in Hv, Hl.
    rewrite length_map in Hl. split; [exact Hl|].
    rewrite <- Hv. symmetry.
    exact (nth_map_lt (fun t => nth t (getSpikeTrain tr) 0) selection k 0 0%nat Hl). }
  assert (Hrows : map (fun t => nth t (map (fun v => [v; 1])
                                         (map (fun t0 => nth t0 V_est 0) selection)) [0; 1])
                      (where_eq train_sel 1)
                  = map (fun v => [v; 1])
                        (map (fun k => nth (nth k selection 0%nat) V_est 0)
                             (where_eq train_sel 1))).
  { rewrite (map_map (fun k => nth (nth k selection 0%nat) V_est 0) (fun v => [v; 1])).
    apply map_ext_in. intros k Hk.
    rewrite Forall_forall in Hsp. destruct (Hsp k Hk) as [Hl _].
    rewrite (map_map (fun t0 => nth t0 V_est 0) (fun v => [v; 1])).
    exact (nth_map_lt (fun t0 => [nth t0 V_est 0; 1]) selection k [0; 1] 0%nat Hl). }
  split; [now rewrite map_map|].
  split; [rewrite Hrows; now rewrite map_map|].
  split; [exact Hsp|].
  split; [reflexivity|].
  split.
  { etransitivity; [apply length_where_eq_from|].
    unfold train_sel. now rewrite length_map. }
  split; [|reflexivity].
  unfold sum_axis0. rewrite Hrows. cbn [zeros repeat].
  rewrite fold_vadd_pairs. now rewrite length_map.
Qed.

(** ** The Hessian of the log-likelihood *)

Lemma weighted_gram_dotp (X : list (list R)) :
  forall e j k,
    length e = length X ->
    dotp (vmul (column j X) e) (column k X) = weighted_gram X e j k.
Proof.
  induction X as [|x X IH]; intros e j k He.
  - reflexivity.
  - destruct e as [|e0 e]; [discriminate|]. cbn [length] in He.
    cbn [column map vmul dotp weighted_gram]. fold (column j X). fold (column k X).
    rewrite IH by lia. reflexivity.
Qed.

Lemma weighted_gram_sym (X : list (list R)) :
  forall e j k, weighted_gram X e j k = weighted_gram X e k j.
Proof.
  induction X as [|x X IH]; intros e j k; [reflexivity|].
  destruct e as [|e0 e]; [reflexivity|].
  cbn [weighted_gram]. rewrite (IH e j k). ring.
Qed.

Lemma nth_map_seq {B} (F : nat -> B) (p j : nat) (d : B) :
  (j < p)%nat -> nth j (map F (seq 0 p)) d = F j.
Proof.
  intros H. rewrite (nth_map_lt F (seq 0 p) j d 0%nat) by (now rewrite length_seq).
  now rewrite seq_nth.
Qed.

(** The Hessian returned by [computeLikelihoodGradientHessian], entry by
    entry. *)
Lemma hessian_rows (m : GIF) (beta : list R) (X X_spikes : list (list R))
    (sum_X_spikes : list R) :
  snd (computeLikelihoodGradientHessian m beta X X_spikes sum_X_spikes)
  = map (fun j =>
           map (fun k => - lambda0 m * (dt m / 1000)
                         * weighted_gram X (map exp (matvec X beta)) j k)
               (seq 0 (length beta)))
        (seq 0 (length beta)).
Proof.
  unfold computeLikelihoodGradientHessian. cbn [snd].
  unfold mscale, matmul, transpose. rewrite !map_map.
  apply map_ext. intros j. unfold vscale. rewrite map_map.
  apply map_ext. intros k.
  rewrite weighted_gram_dotp; [reflexivity|].
  unfold matvec. now rewrite !length_map.
Qed.

Lemma total_map_ext (f g : nat -> R) (l : list nat) :
  (forall i, In i l -> f i = g i) -> total (map f l) = total (map g l).
Proof.
  intros H. f_equal. apply map_ext_in. exact H.
Qed.

Lemma total_map_plus (f g : nat -> R) (l : list nat) :
  total (map (fun i => f i + g i) l) = total (map f l) + total (map g l).
Proof.
  induction l as [|i l IH]; cbn [map total fold_right]; [ring|].
  fold (total (map (fun i => f i + g i) l)). fold (total (map f l)).
  fold (total (map g l)). rewrite IH. ring.
Qed.

Lemma total_map_scale (a : R) (f : nat -> R) (l : list nat) :
  total (map (fun i => a * f i) l) = a * total (map f l).
Proof.
  induction l as [|i l IH]; cbn [map total fold_right]; [ring|].
  fold (total (map (fun i => a * f i) l)). fold (total (map f l)).
  rewrite IH. ring.
Qed.

Lemma dotp_map_seq_from (F : nat -> R) (v : list R) :
  forall a,
    dotp (map F (seq a (length v))) v
    = total (map (fun k => F (a + k)%nat * nth k v 0) (seq 0 (length v))).
Proof.
  induction v as [|x v IH]; intros a; [reflexivity|].
  cbn [length seq map dotp total fold_right nth].
  rewrite IH, Nat.add_0_r. f_equal.
  rewrite <- seq_shift, map_map.
  apply total_map_ext. intros k _. now rewrite Nat.add_succ_r.
Qed.

Lemma dotp_map_seq (F : nat -> R) (v : list R) (p : nat) :
  length v = p ->
  dotp (map F (seq 0 p)) v = sum_upto p (fun k => F k * nth k v 0).
Proof.
  intros <-. apply dotp_map_seq_from.
Qed.

Lemma dotp_comm (u v : list R) : dotp u v = dotp v u.
Proof.
  revert v; induction u as [|x u IH]; intros [|y v]; cbn [dotp]; try reflexivity.
  rewrite IH. ring.
Qed.

(** The quadratic form of the matrix [weighted_gram X e] is a weighted
    sum of squares. *)
Lemma weighted_gram_quadratic (p : nat) (v : list R) (X : list (list R)) :
  forall e,
    sum_upto p (fun j => nth j v 0
                         * sum_upto p (fun k => weighted_gram X e j k * nth k v 0))
    = weighted_squares p X e v.
Proof.
  unfold sum_upto.
  assert (Hzero : total (map (fun j => nth j v 0
                                       * total (map (fun k => 0 * nth k v 0) (seq 0 p)))
                             (seq 0 p)) = 0).
  { rewrite (total_map_ext _ (fun j => 0 * nth j v 0)).
    - rewrite total_map_scale. ring.
    - intros j _. rewrite total_map_scale. ring. }
  induction X as [|x X IH]; intros e; [exact Hzero|].
  destruct e as [|e0 e]; [exact Hzero|].
  cbn [weighted_gram weighted_squares]. unfold sum_upto. rewrite <- (IH e).
  set (r := total (map (fun j => nth j x 0 * nth j v 0) (seq 0 p))).
  rewrite (total_map_ext _
             (fun j => e0 * r * (nth j x 0 * nth j v 0)
                       + nth j v 0
                         * total (map (fun k => weighted_gram X e j k * nth k v 0)
                                      (seq 0 p)))).
  - rewrite total_map_plus, total_map_scale. fold r. ring.
  - intros j _.
    rewrite (total_map_ext _
               (fun k => nth j x 0 * e0 * (nth k x 0 * nth k v 0)
                         + weighted_gram X e j k * nth k v 0)).
    + rewrite total_map_plus, total_map_scale. fold r. ring.
    + intros k _. ring.
Qed.

Lemma weighted_squares_nonneg (p : nat) (v : list R) (X : list (list R)) :
  forall ys, 0 <= weighted_squares p X (map exp ys) v.
Proof.
  induction X as [|x X IH]; intros ys; [cbn; lra|].
  destruct ys as [|y ys]; [cbn; lra|].
  cbn [map weighted_squares].
  pose proof (IH ys) as H1. pose proof (exp_pos y) as H2.
  set (r := sum_upto p (fun j => nth j x 0 * nth j v 0)).
  pose proof (Rle_0_sqr r) as H3. unfold Rsqr in H3. nra.
Qed.

Lemma hessian_quadratic_form (m : GIF) (beta : list R) (X X_spikes : list (list R))
    (sum_X_spikes v : list R) :
  length v = length beta ->
  dotp v (matvec (snd (computeLikelihoodGradientHessian m beta X X_spikes
                         sum_X_spikes)) v)
  = - lambda0 m * (dt m / 1000)
    * weighted_squares (length beta) X (map exp (matvec X beta)) v.
Proof.
  intros Hv. rewrite hessian_rows. set (p := length beta) in *.
  set (e := map exp (matvec X beta)). set (c := - lambda0 m * (dt m / 1000)).
  unfold matvec at 1. rewrite map_map.
  rewrite dotp_comm, (dotp_map_seq _ v p Hv).
  rewrite <- weighted_gram_quadratic. unfold sum_upto.
  rewrite <- total_map_scale. apply total_map_ext. intros j _.
  rewrite (dotp_map_seq _ v p Hv). unfold sum_upto.
  rewrite (total_map_ext _ (fun k => c * (weighted_gram X e j k * nth k v 0))).
  - rewrite total_map_scale. ring.
  - intros k _. ring.
Qed.

Lemma hessian_sym_nsd (m : GIF) (beta : list R) (X X_spikes : list (list R))
    (sum_X_spikes : list R) :
  0 <= lambda0 m -> 0 <= dt m ->
  let H := snd (computeLikelihoodGradientHessian m beta X X_spikes sum_X_spikes) in
  (forall j k, (j < length beta)%nat -> (k < length beta)%nat ->
               nth k (nth j H []) 0 = nth j (nth k H []) 0)
  /\ (forall v, length v = length beta -> dotp v (matvec H v) <= 0).
Proof.
  intros Hl Hdt H. split.
  - intros j k Hj Hk. unfold H. rewrite hessian_rows.
    rewrite !(nth_map_seq _ (length beta) _ []) by assumption.
    rewrite !(nth_map_seq _ (length beta) _ 0) by assumption.
    now rewrite weighted_gram_sym.
  - intros v Hv. unfold H. rewrite hessian_quadratic_form by exact Hv.
    pose proof (weighted_squares_nonneg (length beta) v X (matvec X beta)) as Hs.
    assert (Hc : 0 <= lambda0 m * (dt m / 1000)).
    { apply Rmult_le_pos; [exact Hl|lra]. }
    nra.
Qed.

(** ** A constant estimated voltage *)

Lemma weighted_gram_flat (c : R) (X : list (list R)) :
  Forall (fun r => r = [c; 1]) X ->
  forall e, exists s,
    weighted_gram X e 0 0 = c * c * s
    /\ weighted_gram X e 0 1 = c * s
    /\ weighted_gram X e 1 0 = c * s
    /\ weighted_gram X e 1 1 = s.
Proof.
  induction 1 as [|x X Hx HX IH]; intros e.
  - exists 0. cbn [weighted_gram]. repeat split; ring.
  - destruct e as [|e0 e].
    + exists 0. cbn [weighted_gram]. repeat split; ring.
    + destruct (IH e) as [s [H00 [H01 [H10 H11]]]]. subst x.
      exists (e0 + s). cbn [weighted_gram nth].
      rewrite H00, H01, H10, H11. repeat split; ring.
Qed.

Lemma hessian_flat (m : GIF) (c b0 b1 : R) (X X_spikes : list (list R))
    (sum_X_spikes : list R) :
  Forall (fun r => r = [c; 1]) X ->
  exists a,
    snd (computeLikelihoodGradientHessian m [b0; b1] X X_spikes sum_X_spikes)
    = [[c * c * a; c * a]; [c * a; a]].
Proof.
  intros HX. rewrite hessian_rows. cbn [length seq map].
  destruct (weighted_gram_flat c X HX (map exp (matvec X [b0; b1])))
    as [s [H00 [H01 [H10 H11]]]].
  rewrite H00, H01, H10, H11.
  set (kk := - lambda0 m * (dt m / 1000)).
  exists (kk * s).
  replace (kk * (c * c * s)) with (c * c * (kk * s)) by ring.
  replace (kk * (c * s)) with (c * (kk * s)) by ring.
  reflexivity.
Qed.

Lemma likelihood_flat (m : GIF) (c b0 b1 : R)
    (all : list (list (list R) * list (list R) * list R)) :
  Forall (fun d => Forall (fun r => r = [c; 1]) (fst (fst d))) all ->
  acc_H (likelihood_over_traces m [b0; b1] all) = None
  \/ exists a, acc_H (likelihood_over_traces m [b0; b1] all)
               = Some [[c * c * a; c * a]; [c * a; a]].
Proof.
  intros Hall. unfold likelihood_over_traces.
  set (step := fun (a : lgh) (tr : list (list R) * list (list R) * list R) =>
                 let '(X, X_spikes, sum_X_spikes) := tr in
                 lgh_add a (computeLikelihoodGradientHessian m [b0; b1] X X_spikes
                              sum_X_spikes)).
  assert (Hgen : forall acc,
             (acc_H acc = None
              \/ exists a, acc_H acc = Some [[c * c * a; c * a]; [c * a; a]]) ->
             acc_H (fold_left step all acc) = None
             \/ exists a, acc_H (fold_left step all acc)
                          = Some [[c * c * a; c * a]; [c * a; a]]).
  { induction Hall as [|d all Hd Hall IH]; intros acc Hacc; [exact Hacc|].
    cbn [fold_left]. apply IH. right.
    destruct d as [[X Xs] sXs]. cbn [fst] in Hd. unfold step.
    destruct (hessian_flat m c b0 b1 X Xs sXs Hd) as [a Ha].
    destruct (computeLikelihoodGradientHessian m [b0; b1] X Xs sXs) as [[L G] H].
    cbn [snd] in Ha. subst H. unfold lgh_add. cbn [acc_H].
    destruct Hacc as [->|[a' ->]].
    - exists a. reflexivity.
    - exists (a' + a). cbn [madd vadd].
      replace (c * c * a' + c * c * a) with (c * c * (a' + a)) by ring.
      replace (c * a' + c * a) with (c * (a' + a)) by ring.
      reflexivity. }
  apply Hgen. left. reflexivity.
Qed.

Lemma likelihood_over_traces_some (m : GIF) (beta : list R)
    (all : list (list (list R) * list (list R) * list R)) :
  all <> [] -> acc_H (likelihood_over_traces m beta all) <> None.
Proof.
  intros Hne. unfold likelihood_over_traces.
  set (step := fun (a : lgh) (tr : list (list R) * list (list R) * list R) =>
                 let '(X, X_spikes, sum_X_spikes) := tr in
                 lgh_add a (computeLikelihoodGradientHessian m beta X X_spikes
                              sum_X_spikes)).
  assert (Hstep : forall acc d, acc_H (step acc d) <> None).
  { intros acc [[X Xs] sXs]. unfold step.
    destruct (computeLikelihoodGradientHessian m beta X Xs sXs) as [[L G] H].
    cbn [lgh_add acc_H]. discriminate. }
  assert (Hgen : forall l acc, acc_H acc <> None -> acc_H (fold_left step l acc) <> None).
  { induction l as [|d l IH]; intros acc Hacc; [exact Hacc|].
    cbn [fold_left]. apply IH, Hstep. }
  destruct all as [|d rest]; [congruence|].
  cbn [fold_left]. apply Hgen, Hstep.
Qed.

Lemma hessian_flat_singular (m : GIF) (c b0 b1 : R)
    (all : list (list (list R) * list (list R) * list R)) :
  Forall (fun d => Forall (fun r => r = [c; 1]) (fst (fst d))) all ->
  all <> [] ->
  exists H a,
    acc_H (likelihood_over_traces m [b0; b1] all) = Some H
    /\ H = [[c * c * a; c * a]; [c * a; a]]
    /\ det 2 H = 0.
Proof.
  intros Hall Hne.
  destruct (likelihood_flat m c b0 b1 all Hall) as [Hnone|[a Ha]].
  - now apply likelihood_over_traces_some in Hnone.
  - exists [[c * c * a; c * a]; [c * a; a]], a.
    split; [exact Ha|]. split; [reflexivity|].
    cbn [det total map seq fold_right nth remove_nth pow]. ring.
Qed.

Lemma static_design_flat (m : GIF) (tr : Trace) (V_est : list R) (c : R)
    (d : list (list R) * list (list R) * list R) (N_spikes : nat) (T_l : R) :
  buildXmatrix_staticThreshold m tr V_est = Ok (d, N_spikes, T_l) ->
  (forall t, In t (getROI_FarFromSpikes tr (- dt m) (Tref m)) -> nth t V_est 0 = c) ->
  Forall (fun r => r = [c; 1]) (fst (fst d)).
Proof.
  intros H Hflat. destruct d as [[X Xs] sXs]. cbn [fst].
  destruct (static_design m tr V_est X Xs sXs N_spikes T_l H) as [_ [-> _]].
  apply Forall_forall. intros r Hr. apply in_map_iff in Hr.
  destruct Hr as [t [<- Ht]]. now rewrite (Hflat t Ht).
Qed.

Lemma spiking_trace_design :
  buildXmatrix_staticThreshold coarse_model spiking_trace [-65; -65; -65]
  = Ok ([[-65; 1]; [-65; 1]; [-65; 1]], [[-65; 1]], [0 + -65; 0 + 1], 1%nat,
        INR 3 * 1 / 1000).
Proof.
  unfold buildXmatrix_staticThreshold.
  cbn [spiking_trace getROI_FarFromSpikes getSpikeTrain tr_dt take nth_error obind
       length map].
  unfold where_eq. cbn [where_eq_from].
  destruct (Req_dec_T 0 1) as [E|_]; [lra|].
  destruct (Req_dec_T 1 1) as [_|E]; [|lra].
  cbn [take nth_error obind length]. reflexivity.
Qed.

(** X10. The Hessian returned by [computeLikelihoodGradientHessian] is
    symmetric and negative semidefinite, for every parameter vector and
    every design matrix, when [lambda0] and [dt] are not negative. *)
Theorem hessian_symmetric_negative_semidefinite (m : GIF) (beta : list R)
    (X X_spikes : list (list R)) (sum_X_spikes : list R) :
  0 <= lambda0 m -> 0 <= dt m ->
  let H := snd (computeLikelihoodGradientHessian m beta X X_spikes sum_X_spikes) in
  (forall j k, (j < length beta)%nat -> (k < length beta)%nat ->
               nth k (nth j H []) 0 = nth j (nth k H []) 0)
  /\ (forall v, length v = length beta -> dotp v (matvec H v) <= 0).
Proof. apply hessian_sym_nsd. Qed.

Lemma hessian_symmetric_negative_semidefinite_witness :
  let H := snd (computeLikelihoodGradientHessian coarse_model [1; 2]
                  [[3; 1]; [4; 1]] [[4; 1]] [4; 1]) in
  (forall j k, (j < 2)%nat -> (k < 2)%nat ->
               nth k (nth j H []) 0 = nth j (nth k H []) 0)
  /\ (forall v, length v = 2%nat -> dotp v (matvec H v) <= 0).
Proof.
  apply (hessian_symmetric_negative_semidefinite coarse_model [1; 2]
           [[3; 1]; [4; 1]] [[4; 1]] [4; 1]).
  - cbn. lra.
  - cbn. lra.
Defined.

(** X11. When the estimated voltage is the same, [c], on every sample
    selected from every trace, the design matrices of
    [buildXmatrix_staticThreshold] have two proportional columns: the
    Hessian that a Newton step sums over the traces has a first row
    that is [c] times the second, and its determinant is 0, whatever
    the parameters: in exact arithmetic it has no inverse, and what
    [inv] makes of it in doubles is left to rounding. *)
Theorem flat_voltage_hessian_singular (m : GIF) (c : R)
    (all : list (list (list R) * list (list R) * list R)) (b0 b1 : R) :
  Forall (fun d =>
            exists tr V_est N_spikes T_l,
              buildXmatrix_staticThreshold m tr V_est = Ok (d, N_spikes, T_l)
              /\ forall t, In t (getROI_FarFromSpikes tr (- dt m) (Tref m)) ->
                           nth t V_est 0 = c) all ->
  all <> [] ->
  exists H a,
    acc_H (likelihood_over_traces m [b0; b1] all) = Some H
    /\ H = [[c * c * a; c * a]; [c * a; a]]
    /\ det 2 H = 0.
Proof.
  intros Hall Hne. apply hessian_flat_singular; [|exact Hne].
  eapply Forall_impl; [|exact Hall]. intros d [tr [V_est [N [T_l [Hd Hflat]]]]].
  exact (static_design_flat m tr V_est c d N T_l Hd Hflat).
Qed.

Lemma flat_voltage_hessian_singular_witness :
  exists H a,
    acc_H (likelihood_over_traces coarse_model [1 / 50; 48 / 50]
             [([[-65; 1]; [-65; 1]; [-65; 1]], [[-65; 1]], [0 + -65; 0 + 1])])
    = Some H
    /\ H = [[-65 * -65 * a; -65 * a]; [-65 * a; a]]
    /\ det 2 H = 0.
Proof.
  apply (flat_voltage_hessian_singular coarse_model (-65)
           [([[-65; 1]; [-65; 1]; [-65; 1]], [[-65; 1]], [0 + -65; 0 + 1])]
           (1 / 50) (48 / 50)).
  - constructor; [|constructor].
    exists spiking_trace, [-65; -65; -65], 1%nat, (INR 3 * 1 / 1000).
    split; [exact spiking_trace_design|].
    intros t Ht. cbn in Ht.
    destruct Ht as [<-|[<-|[<-|[]]]]; reflexivity.
  - discriminate.
Defined.

(** X12. [buildXmatrix_staticThreshold] returns one row
    [[V_est[t], 1]] per selected sample [t]; the rows of [X_spikes] are
    rows of [X], their number is [N_spikes] and is at most the number of
    selected samples; the second entry of [sum_X_spikes] is [N_spikes];
    the duration is the number of selected samples times the time step
    of the trace, in seconds. *)
Theorem static_design_structure (m : GIF) (tr : Trace) (V_est : list R)
    (X X_spikes : list (list R)) (sum_X_spikes : list R) (N_spikes : nat) (T_l : R) :
  buildXmatrix_staticThreshold m tr V_est
  = Ok (X, X_spikes, sum_X_spikes, N_spikes, T_l) ->
  let selection := getROI_FarFromSpikes tr (- dt m) (Tref m) in
  X = map (fun t => [nth t V_est 0; 1]) selection
  /\ Forall (fun r => In r X) X_spikes
  /\ length X_spikes = N_spikes
  /\ (N_spikes <= length selection)%nat
  /\ nth 1 sum_X_spikes 0 = INR N_spikes
  /\ T_l = INR (length selection) * tr_dt tr / 1000.
Proof.
  intros H selection.
  destruct (static_design m tr V_est X X_spikes sum_X_spikes N_spikes T_l H)
    as [spikes [HX [HXs [Hsp [Hlen [Hle [Hsum HT]]]]]]].
  fold selection in HX, HXs, Hsp, Hle, Hsum, HT.
  split; [exact HX|]. split.
  - rewrite HXs, HX. apply Forall_forall. intros r Hr.
    apply in_map_iff in Hr. destruct Hr as [k [<- Hk]].
    rewrite Forall_forall in Hsp. destruct (Hsp k Hk) as [Hl _].
    apply (in_map (fun t => [nth t V_est 0; 1])). now apply nth_In.
  - split; [rewrite HXs, length_map; exact Hlen|].
    split; [exact Hle|]. split; [|exact HT].
    rewrite Hsum. cbn [nth]. ring.
Qed.

Lemma static_design_structure_witness :
  [[-65; 1]; [-65; 1]; [-65; 1]]
  = map (fun t => [nth t [-65; -65; -65] 0; 1]) [0; 1; 2]%nat
  /\ Forall (fun r => In r [[-65; 1]; [-65; 1]; [-65; 1]]) [[-65; 1]]
  /\ length [[-65; 1]] = 1%nat
  /\ (1 <= length [0; 1; 2]%nat)%nat
  /\ nth 1 [0 + -65; 0 + 1] 0 = INR 1
  /\ INR 3 * 1 / 1000 = INR (length [0; 1; 2]%nat) * 1 / 1000.
Proof.
  apply (static_design_structure coarse_model spiking_trace [-65; -65; -65]
           [[-65; 1]; [-65; 1]; [-65; 1]] [[-65; 1]] [0 + -65; 0 + 1] 1
           (INR 3 * 1 / 1000)).
  exact spiking_trace_design.
Defined.

(** * Further properties of the first two fitting stages *)

Lemma filter_none {A} (f : A -> bool) (l : list A) :
  (forall x, In x l -> f x = false) -> filter f l = [].
Proof.
  induction l as [|x l IH]; intros H; [reflexivity|].
  cbn [filter]. rewrite (H x (or_introl eq_refl)).
  apply IH. intros y Hy. apply H. now right.
Qed.

Lemma fit_voltage_reset_unbound (m : GIF) (experiment : Experiment) (Tref0 : R) :
  (forall tr, In tr (trainingset_traces experiment) ->
              useTrace tr = false \/ tr_spks tr = []) ->
  fitVoltageReset m experiment Tref0 = Raise UnboundLocalError.
Proof.
  intros H. unfold fitVoltageReset. rewrite reset_visit_fold.
  rewrite (filter_none contributes).
  - reflexivity.
  - intros tr Htr. unfold contributes.
    destruct (H tr Htr) as [->| ->]; [reflexivity|].
    cbn [length Nat.ltb Nat.leb]. apply andb_false_r.
Qed.

Lemma first_ge_from_none (v : list R) (x : R) :
  forall k,
    (forall i, (i < length v)%nat -> nth i v 0 < x) ->
    first_ge_from k v x = Raise IndexError.
Proof.
  induction v as [|y v IH]; intros k H; [reflexivity|].
  cbn [first_ge_from].
  pose proof (H 0%nat ltac:(cbn; lia)) as H0. cbn [nth] in H0.
  destruct (Rle_dec x y); [lra|].
  apply IH. intros i Hi. apply (H (S i)). cbn [length]. lia.
Qed.

Lemma fit_voltage_reset_short_support (m : GIF) (experiment : Experiment)
    (Tref0 : R) (front : list Trace) (last_tr : Trace) (n : nat) :
  let trs := contributing experiment in
  let support := spike_support last_tr in
  trs = front ++ [last_tr] ->
  Forall (fun tr => length (spike_shape tr) = n) trs ->
  (forall i, (i < length support)%nat -> nth i support 0 < Tref0) ->
  fitVoltageReset m experiment Tref0 = Raise IndexError.
Proof.
  intros trs support Htrs Hall Hlt.
  assert (Hne : trs <> []).
  { rewrite Htrs. destruct front; discriminate. }
  destruct (mean_axis0_unweighted trs n Hne Hall) as [avg [Hmean _]].
  unfold fitVoltageReset. rewrite reset_visit_fold.
  cbn [ra_support all_spike_average app].
  fold (contributing experiment). fold trs.
  rewrite Hmean. cbn [obind].
  replace (fold_left (fun _ tr => Some (spike_support tr)) trs None)
    with (Some support).
  2:{ rewrite Htrs, fold_left_app. reflexivity. }
  cbn [Tref set_Tref]. unfold first_ge.
  rewrite (first_ge_from_none support Tref0 0 Hlt). reflexivity.
Qed.

Lemma subthreshold_design_unused (m : GIF) (traces : list Trace) (DT_beforeSpike : R) :
  subthreshold_design m (filter useTrace traces) DT_beforeSpike
  = subthreshold_design m traces DT_beforeSpike.
Proof.
  induction traces as [|tr traces IH]; [reflexivity|].
  cbn [filter]. destruct (useTrace tr) eqn:E.
  - cbn [subthreshold_design]. rewrite E, IH. reflexivity.
  - cbn [subthreshold_design]. rewrite E. exact IH.
Qed.

Lemma fit_subthreshold_no_trace (la : lapack) (m : GIF) (experiment : Experiment)
    (DT_beforeSpike : R) :
  (forall tr, In tr (trainingset_traces experiment) -> useTrace tr = false) ->
  fitSubthresholdDynamics la m experiment DT_beforeSpike = Raise LinAlgError.
Proof.
  intros H. unfold fitSubthresholdDynamics.
  rewrite <- subthreshold_design_unused, (filter_none useTrace) by exact H.
  reflexivity.
Qed.

Lemma combine_maps {A B C} (f : A -> B) (g : A -> C) (l : list A) :
  combine (map f l) (map g l) = map (fun x => (f x, g x)) l.
Proof.
  induction l as [|x l IH]; [reflexivity|]. cbn [map combine]. now rewrite IH.
Qed.

Lemma subthreshold_rows (m : GIF) (trace : Trace) (DT_beforeSpike : R)
    (X : list (list R)) (Y : list R) :
  fitSubthresholdDynamics_Build_Xmatrix_Yvector m trace DT_beforeSpike = Ok (X, Y) ->
  let selection := getROI_FarFromSpikes trace DT_beforeSpike (Tref m) in
  let X_eta :=
    convolution_Spiketrain_basisfunctions (eta m)
      (map (fun s => s + Tref m) (getSpikeTimes trace))
      (tr_T trace) (tr_dt trace) in
  X = map (fun t => [nth t (tr_V trace) 0; nth t (tr_I trace) 0; 1]
                    ++ nth t X_eta []) selection
  /\ length Y = length selection
  /\ Forall (fun t => (t < length (tr_V trace))%nat
                      /\ (t < length (tr_I trace))%nat
                      /\ (t < length X_eta)%nat) selection.
Proof.
  intros H selection X_eta.
  unfold fitSubthresholdDynamics_Build_Xmatrix_Yvector in H.
  fold selection in H. fold X_eta in H.
  destruct (take (tr_V trace) selection) as [X0|e] eqn:E0; [|discriminate].
  cbn [obind] in H.
  destruct (take (tr_I trace) selection) as [X1|e] eqn:E1; [|discriminate].
  cbn [obind] in H.
  destruct (take X_eta selection) as [Xe|e] eqn:E2; [|discriminate].
  cbn [obind] in H.
  destruct (take _ selection) as [Y0|e] eqn:E3 in H; [|discriminate].
  cbn [obind] in H. inversion H; subst X Y. clear H.
  apply (take_ok _ 0) in E0. destruct E0 as [-> H0].
  apply (take_ok _ 0) in E1. destruct E1 as [-> H1].
  apply (take_ok _ []) in E2. destruct E2 as [-> H2].
  apply (take_ok _ 0) in E3. destruct E3 as [-> _].
  split; [|split].
  - rewrite combine_maps, combine_maps, map_map. reflexivity.
  - now rewrite length_map.
  - rewrite Forall_forall in H0, H1, H2. apply Forall_forall. auto.
Qed.

(** X13. [fitVoltageReset] on an experiment in which no training trace
    is both in use and has a spike: the name [support] is never bound,
    and the stage raises [UnboundLocalError]. *)
Theorem voltage_reset_without_spikes_raises (m : GIF) (experiment : Experiment)
    (Tref0 : R) :
  (forall tr, In tr (trainingset_traces experiment) ->
              useTrace tr = false \/ tr_spks tr = []) ->
  fitVoltageReset m experiment Tref0 = Raise UnboundLocalError.
Proof. apply fit_voltage_reset_unbound. Qed.

Lemma voltage_reset_without_spikes_raises_witness :
  fitVoltageReset coarse_model idle_experiment 4 = Raise UnboundLocalError.
Proof.
  apply (voltage_reset_without_spikes_raises coarse_model idle_experiment 4).
  intros tr Htr. cbn in Htr.
  destruct Htr as [<-|[<-|[]]]; [right|left]; reflexivity.
Defined.

(** X14. [fitVoltageReset] with a refractory period that lies beyond the
    support of the spike-triggered average: no support time is at least
    [Tref], and the stage raises [IndexError]. *)
Theorem voltage_reset_beyond_support_raises (m : GIF) (experiment : Experiment)
    (Tref0 : R) (front : list Trace) (last_tr : Trace) (n : nat) :
  let trs := contributing experiment in
  let support := spike_support last_tr in
  trs = front ++ [last_tr] ->
  Forall (fun tr => length (spike_shape tr) = n) trs ->
  (forall i, (i < length support)%nat -> nth i support 0 < Tref0) ->
  fitVoltageReset m experiment Tref0 = Raise IndexError.
Proof. apply fit_voltage_reset_short_support. Qed.

Lemma voltage_reset_beyond_support_raises_witness :
  fitVoltageReset coarse_model reset_experiment 5 = Raise IndexError.
Proof.
  apply (voltage_reset_beyond_support_raises coarse_model reset_experiment 5
           [shape_trace true [5%Z] [0; 4] [1; 3] 1]
           (shape_trace true [2%Z; 5%Z; 8%Z] [0; 4] [3; 5] 3) 2).
  - reflexivity.
  - repeat constructor.
  - intros i Hi. cbn in Hi.
    destruct i as [|[|i]]; [cbn; lra|cbn; lra|lia].
Defined.

(** X15. [fitSubthresholdDynamics] on an experiment without a training
    trace in use: the regression is attempted on the empty list and
    raises [LinAlgError]. *)
Theorem subthreshold_fit_without_trace_raises (la : lapack) (m : GIF)
    (experiment : Experiment) (DT_beforeSpike : R) :
  (forall tr, In tr (trainingset_traces experiment) -> useTrace tr = false) ->
  fitSubthresholdDynamics la m experiment DT_beforeSpike = Raise LinAlgError.
Proof. apply fit_subthreshold_no_trace. Qed.

Lemma subthreshold_fit_without_trace_raises_witness :
  fitSubthresholdDynamics rounding_lapack (bare_model 4) unused_experiment 5
  = Raise LinAlgError.
Proof.
  apply (subthreshold_fit_without_trace_raises rounding_lapack (bare_model 4)
           unused_experiment 5).
  intros tr Htr. cbn in Htr. destruct Htr as [<-|[]]. reflexivity.
Defined.

(** X16. [fitSubthresholdDynamics] depends only on the training traces
    that are in use: removing the others from the experiment changes
    neither the fitted model nor the exception raised. *)
Theorem subthreshold_fit_ignores_unused_traces (la : lapack) (m : GIF)
    (experiment : Experiment) (DT_beforeSpike : R) :
  fitSubthresholdDynamics la m
    {| exp_dt := exp_dt experiment;
       trainingset_traces := filter useTrace (trainingset_traces experiment) |}
    DT_beforeSpike
  = fitSubthresholdDynamics la m experiment DT_beforeSpike.
Proof.
  unfold fitSubthresholdDynamics. cbn [exp_dt trainingset_traces].
  now rewrite subthreshold_design_unused.
Qed.

(** X17. The design matrix that
    [fitSubthresholdDynamics_Build_Xmatrix_Yvector] returns has one row
    per selected sample [t]: [V[t]], [I[t]], 1 and row [t] of the
    convolution of the spike train with the basis functions of [eta];
    the target has as many entries, and every selected sample lies
    inside the trace. *)
Theorem subthreshold_design_rows (m : GIF) (trace : Trace) (DT_beforeSpike : R)
    (X : list (list R)) (Y : list R) :
  fitSubthresholdDynamics_Build_Xmatrix_Yvector m trace DT_beforeSpike = Ok (X, Y) ->
  let selection := getROI_FarFromSpikes trace DT_beforeSpike (Tref m) in
  let X_eta :=
    convolution_Spiketrain_basisfunctions (eta m)
      (map (fun s => s + Tref m) (getSpikeTimes trace))
      (tr_T trace) (tr_dt trace) in
  X = map (fun t => [nth t (tr_V trace) 0; nth t (tr_I trace) 0; 1]
                    ++ nth t X_eta []) selection
  /\ length Y = length selection
  /\ Forall (fun t => (t < length (tr_V trace))%nat
                      /\ (t < length (tr_I trace))%nat
                      /\ (t < length X_eta)%nat) selection.
Proof. apply subthreshold_rows. Qed.

Lemma subthreshold_design_rows_witness :
  [[0; 0; 1]; [1; 0; 1]; [1; 1; 1]]
  = map (fun t => [nth t [0; 1; 1; 2] 0; nth t [0; 0; 1; 0] 0; 1]
                  ++ nth t (repeat [] 4) []) [0; 1; 2]%nat
  /\ length [(1 - 0) / 1; (1 - 1) / 1; (2 - 1) / 1] = length [0; 1; 2]%nat
  /\ Forall (fun t => (t < length [0; 1; 1; 2])%nat
                      /\ (t < length [0; 0; 1; 0])%nat
                      /\ (t < length (repeat (@nil R) 4))%nat) [0; 1; 2]%nat.
Proof.
  apply (subthreshold_design_rows (bare_model 4) membrane_trace 5
           [[0; 0; 1]; [1; 0; 1]; [1; 1; 1]]
           [(1 - 0) / 1; (1 - 1) / 1; (2 - 1) / 1]).
  reflexivity.
Defined.

(** * Further properties of forced-spike mode: padding and empty input *)

Lemma slice_iadd_inside (arr : list R) (a : Z) (k : list R) :
  (0 <= a)%Z -> (a + Z.of_nat (length k) <= Z.of_nat (length arr))%Z ->
  slice_iadd arr a (a + Z.of_nat (length k)) k = Ok (add_at arr (Z.to_nat a) k).
Proof.
  intros Ha Hfit. unfold slice_iadd, slice_bound.
  replace (a <? 0)%Z with false by (symmetry; apply Z.ltb_ge; lia).
  replace (a + Z.of_nat (length k) <? 0)%Z with false
    by (symmetry; apply Z.ltb_ge; lia).
  replace (Z.min a (Z.of_nat (length arr))) with a by lia.
  replace (Z.min (a + Z.of_nat (length k)) (Z.of_nat (length arr)))
    with (a + Z.of_nat (length k))%Z by lia.
  replace (Z.to_nat (a + Z.of_nat (length k) - a)) with (length k) by lia.
  now rewrite Nat.eqb_refl.
Qed.

Lemma force_eta_sum_inside (Tref_i : Z) (k : list R) (T : nat) (spks_i : list Z) :
  (0 <= Tref_i)%Z ->
  Forall (fun s => (0 <= s < Z.of_nat T)%Z) spks_i ->
  forall arr,
    (Z.of_nat T + Z.of_nat (length k) + Tref_i <= Z.of_nat (length arr))%Z ->
    exists es,
      force_eta_sum arr Tref_i k spks_i = Ok es /\ length es = length arr.
Proof.
  intros Hr Hall. induction Hall as [|s rest Hs Hrest IH]; intros arr Hlen.
  - exists arr. split; reflexivity.
  - cbn [force_eta_sum]. rewrite slice_iadd_inside by lia. cbn [obind].
    destruct (IH (add_at arr (Z.to_nat (s + 1 + Tref_i)) k)) as [es [Hes Hl]].
    + rewrite length_add_at. exact Hlen.
    + exists es. split; [exact Hes|]. now rewrite Hl, length_add_at.
Qed.

Lemma forced_eta_padding (m : GIF) (T : nat) (spks : list R) :
  0 < dt m -> 0 <= Tref m ->
  Forall (fun s => 0 <= s /\ (np_round (s / dt m) < Z.of_nat T)%Z) spks ->
  exists es,
    (let? z := zeros_of_float (INR T + 11 / 10 * INR (length (p_eta m))
                               + IZR (p_Tref_i m)) in
     force_eta_sum z (p_Tref_i m) (p_eta m) (timeToIndex spks (dt m)))
    = Ok es
    /\ (T <= length es)%nat.
Proof.
  intros Hdt Hr Hall.
  assert (Hri : (0 <= p_Tref_i m)%Z) by now apply p_Tref_i_nonneg.
  set (l := length (p_eta m)).
  set (x := INR T + 11 / 10 * INR l + IZR (p_Tref_i m)).
  assert (Hx : (Z.of_nat T + Z.of_nat l + p_Tref_i m <= trunc x)%Z).
  { apply trunc_lower; [lia|]. unfold x.
    rewrite !plus_IZR, <- !INR_IZR_INZ.
    pose proof (pos_INR l). lra. }
  unfold zeros_of_float.
  destruct (trunc x <? 0)%Z eqn:E; [apply Z.ltb_lt in E; lia|].
  cbn [obind].
  destruct (force_eta_sum_inside (p_Tref_i m) (p_eta m) T (timeToIndex spks (dt m)) Hri)
    with (arr := zeros (Z.to_nat (trunc x))) as [es [Hes Hl]].
  - unfold timeToIndex. apply Forall_map.
    eapply Forall_impl; [|exact Hall]. intros s [Hs Hlt]. split; [|exact Hlt].
    apply np_round_nonneg, Rdiv_nonneg; assumption.
  - rewrite length_zeros. fold l. lia.
  - exists es. split; [exact Hes|]. rewrite Hl, length_zeros. lia.
Qed.

Lemma forced_empty_input (m : GIF) (mem : memory) (fuel : nat) (V0 : R) :
  0 < dt m -> 0 <= Tref m ->
  simulateDeterministic_forceSpikes m mem fuel [] V0 [] = Raise IndexError.
Proof.
  intros Hdt Hr.
  destruct (forced_eta_padding m 0 [] Hdt Hr (Forall_nil _)) as [es [Hes _]].
  unfold simulateDeterministic_forceSpikes. cbn [length] in Hes |- *.
  destruct (zeros_of_float _) as [z|e]; [|discriminate Hes].
  cbn [obind] in Hes |- *. rewrite Hes. reflexivity.
Qed.

(** X18. In forced-spike mode the adaptation current is laid out
    without an exception when every spike falls inside the trace
    ([0 <= round(s/dt) < len(I)]): the padding of [eta_sum] by
    [1.1*len(eta) + p_Tref_i] samples, [p_Tref_i = int(Tref/dt)] as
    Python computes it in doubles, holds every shifted kernel, so
    that no slice is clipped and numpy does not raise [ValueError]. *)
Theorem forced_eta_padding_suffices (m : GIF) (T : nat) (spks : list R) :
  0 < dt m -> 0 <= Tref m ->
  Forall (fun s => 0 <= s /\ (np_round (s / dt m) < Z.of_nat T)%Z) spks ->
  exists es,
    (let? z := zeros_of_float (INR T + 11 / 10 * INR (length (p_eta m))
                               + IZR (p_Tref_i m)) in
     force_eta_sum z (p_Tref_i m) (p_eta m) (timeToIndex spks (dt m)))
    = Ok es
    /\ (T <= length es)%nat.
Proof. apply forced_eta_padding. Qed.

Lemma forced_eta_padding_suffices_witness :
  exists es,
    (let? z := zeros_of_float (INR 9 + 11 / 10 * INR (length (p_eta padded_model))
                               + IZR (p_Tref_i padded_model)) in
     force_eta_sum z (p_Tref_i padded_model) (p_eta padded_model)
       (timeToIndex [2; 2] (dt padded_model)))
    = Ok es
    /\ (9 <= length es)%nat.
Proof.
  apply (forced_eta_padding_suffices padded_model 9 [2; 2]).
  - cbn. lra.
  - cbn. lra.
  - repeat constructor; try lra; rewrite padded_spike_index; lia.
Defined.

(** X19. [simulateDeterministic_forceSpikes] on the empty input current,
    without spikes: the assignment [V[0] = V0] raises [IndexError]. *)
Theorem forced_empty_input_raises (m : GIF) (mem : memory) (fuel : nat) (V0 : R) :
  0 < dt m -> 0 <= Tref m ->
  simulateDeterministic_forceSpikes m mem fuel [] V0 [] = Raise IndexError.
Proof. apply forced_empty_input. Qed.

Lemma forced_empty_input_raises_witness :
  simulateDeterministic_forceSpikes padded_model quiet_memory 0 [] (-65) []
  = Raise IndexError.
Proof.
  apply (forced_empty_input_raises padded_model quiet_memory 0 (-65)).
  - cbn. lra.
  - cbn. lra.
Defined.

(** * Further properties of the roundings to single precision *)

Lemma double_milli :
  double (1 / 1000) = 4611686018427388 * powerRZ 2 (-62).
Proof. unfold double. rounds (-10)%Z 4611686018427388%Z. Qed.

Lemma narrowed_milli :
  narrowed (1 / 1000) = 8589935 * powerRZ 2 (-33).
Proof.
  unfold narrowed. rewrite double_milli. unfold float.
  rounds (-10)%Z 8589935%Z.
Qed.

Lemma Tref_ind_fine_model : Tref_ind fine_model = 3999%Z.
Proof.
  unfold Tref_ind. cbn [Tref dt fine_model GIF_init].
  rewrite narrowed_4, narrowed_milli.
  assert (H : float (4 / (8589935 * powerRZ 2 (-33))) = 16383999 * powerRZ 2 (-12)).
  { unfold float. rounds 11%Z 16383999%Z. }
  rewrite H. apply trunc_between; power_bounds.
Qed.

Lemma p_Tref_i_fine_model : p_Tref_i fine_model = 4000%Z.
Proof.
  unfold p_Tref_i. cbn [Tref dt fine_model GIF_init].
  rewrite double_4, double_milli.
  assert (H : double (4 / (4611686018427388 * powerRZ 2 (-62)))
              = 8796093022208000 * powerRZ 2 (-41)).
  { unfold double. rounds 11%Z 8796093022208000%Z. }
  rewrite H. apply trunc_between; power_bounds.
Qed.

Lemma double_m653 :
  double (-653 / 10) = -4595078994801459 * powerRZ 2 (-46).
Proof. unfold double. rounds 6%Z (-4595078994801459)%Z. Qed.

Lemma narrowed_m653 :
  narrowed (-653 / 10) = -8559002 * powerRZ 2 (-17).
Proof.
  unfold narrowed. rewrite double_m653. unfold float.
  rounds 6%Z (-8559002)%Z.
Qed.

Lemma integrate_drifts (dt0 : R) :
  0 < dt0 ->
  integrate (setDt drifting_model dt0) (El drifting_model) 0 0 < El drifting_model.
Proof.
  intros Hdt. unfold integrate.
  cbn [setDt set_dt drifting_model set_subthreshold dt C gl El].
  rewrite narrowed_m653.
  pose proof (narrowed_pos dt0 Hdt) as Hd.
  pose proof (narrowed_pos (20 * (1 / 100)) ltac:(lra)) as Hc.
  pose proof (narrowed_pos (1 / 100) ltac:(lra)) as Hg.
  assert (Hq : 0 < narrowed dt0 / narrowed (20 * (1 / 100))).
  { apply Rdiv_lt_0_compat; lra. }
  pose proof (float_pos _ Hq) as Hk.
  set (k := float (narrowed dt0 / narrowed (20 * (1 / 100)))) in *.
  set (g := narrowed (1 / 100)) in *.
  assert (Hgap : 0 < -653 / 10 - -8559002 * powerRZ 2 (-17)) by power_bounds.
  set (gap := -653 / 10 - -8559002 * powerRZ 2 (-17)) in *.
  assert (Hkg : 0 < k * g) by now apply Rmult_lt_0_compat.
  nra.
Qed.

(** X20. The refractory period is converted to a number of samples
    twice in [simulateDeterministic_forceSpikes]: by Python in doubles,
    [p_Tref_i = int(Tref/dt)], for the layout of the adaptation
    current, and by the C loop in single precision,
    [Tref_ind = int(float(Tref)/float(dt))], for the resets. The two
    disagree: for [Tref = 4] and [dt = 0.001] the first is 4000 and the
    second 3999. *)
Theorem refractory_offsets_disagree :
  Tref_ind fine_model = 3999%Z /\ p_Tref_i fine_model = 4000%Z.
Proof. split; [exact Tref_ind_fine_model|exact p_Tref_i_fine_model]. Qed.

(** X21. [simulateVoltageResponse] on a current that is zero
    throughout, with [lambda0 = 0], does not rest at a resting potential
    that single precision does not represent: for [El = -65.3] the
    voltage starts at [El] and its second sample lies below [El], at
    every positive time step. *)
Theorem voltage_response_leaves_unrepresentable_El (mem : memory)
    (rnd : nat -> R) (fuel n : nat) (dt0 : R) :
  0 < dt0 -> (forall k, rnd k <= 1) -> (2 <= n)%nat -> (n <= fuel)%nat ->
  exists spks V V_T log,
    snd (simulateVoltageResponse drifting_model mem rnd fuel (zeros n) dt0)
    = Ok (spks, V, V_T, log)
    /\ nth 0 V 0 = El drifting_model
    /\ nth 1 V 0 < El drifting_model.
Proof.
  intros Hdt Hr Hn Hfuel. unfold simulateVoltageResponse. cbn [snd].
  destruct (simulate_passive (setDt drifting_model dt0) mem rnd (zeros n) fuel
              (El (setDt drifting_model dt0)))
    as [res [H [_ [_ [_ [Hz [Hrec _]]]]]]].
  - reflexivity.
  - destruct n; [lia|discriminate].
  - exact Hr.
  - now rewrite length_zeros.
  - rewrite H. cbn [obind]. do 4 eexists. split; [reflexivity|].
    split; [exact Hz|].
    rewrite length_zeros in Hrec. rewrite (Hrec 0%nat) by lia.
    rewrite Hz, nth_zeros. now apply integrate_drifts.
Qed.

Lemma voltage_response_leaves_unrepresentable_El_witness :
  exists spks V V_T log,
    snd (simulateVoltageResponse drifting_model quiet_memory (fun _ => 1 / 2) 3
           (zeros 3) (1 / 10))
    = Ok (spks, V, V_T, log)
    /\ nth 0 V 0 = -653 / 10
    /\ nth 1 V 0 < -653 / 10.
Proof.
  apply (voltage_response_leaves_unrepresentable_El quiet_memory (fun _ => 1 / 2)
           3 3 (1 / 10)).
  - lra.
  - intros _. lra.
  - lia.
  - lia.
Defined.
